(** * Path-model builder: correlation matrix, validation, estimation kernel

    A shallow embedding of the computational core of
    [src/PathModelBuilder2.tsx] (and of the text parser of
    [src/PathModelBuilder - Copy.tsx]) together with the properties that
    the specification states about it.

    Modelling conventions.

    - A JavaScript [number] is modelled by [num]: an exact rational, or one
      of NaN, +Infinity, -Infinity.  Arithmetic follows the IEEE rules for
      the special values; rounding, overflow and the sign of zero are not
      modelled (a zero divisor counts as +0).
    - A [CellMatrix] (a JS object of objects) is a finite map from row
      names to finite maps from column names to cells.
    - A thrown exception is an explicit [Err] result.
    - The message strings pushed on the [errors] and [warnings] arrays are
      modelled by one constructor of [finding] per message template. *)

From Stdlib Require Import QArith Qabs Lqa ZArith Lia.
From stdpp Require Import gmap strings list fin_maps.

Local Open Scope Z_scope.
Local Open Scope nat_scope.
Local Open Scope string_scope.
Local Open Scope list_scope.

(** ** Numbers *)

Inductive num : Type :=
| NaN
| PInf
| NInf
| Fin (q : Q).

Definition Qltb (x y : Q) : bool := negb (Qle_bool y x).

(** [Number.isFinite] *)
Definition isFinite (x : num) : bool :=
  match x with Fin _ => true | _ => false end.

(** [Number.isFinite(c?.f)]: [undefined] is not finite. *)
Definition isFiniteOpt (x : option num) : bool :=
  match x with Some v => isFinite v | None => false end.

(** [x < y]; every comparison with NaN is false. *)
Definition num_lt (x y : num) : bool :=
  match x, y with
  | NaN, _ | _, NaN => false
  | NInf, NInf => false
  | NInf, _ => true
  | _, NInf => false
  | PInf, _ => false
  | Fin _, PInf => true
  | Fin a, Fin b => Qltb a b
  end.

(** [x <= y] *)
Definition num_le (x y : num) : bool :=
  match x, y with
  | NaN, _ | _, NaN => false
  | NInf, _ => true
  | _, NInf => false
  | _, PInf => true
  | PInf, _ => false
  | Fin a, Fin b => Qle_bool a b
  end.

Definition num_gt (x y : num) : bool := num_lt y x.
Definition num_ge (x y : num) : bool := num_le y x.

Definition num_neg (x : num) : num :=
  match x with
  | NaN => NaN
  | PInf => NInf
  | NInf => PInf
  | Fin a => Fin (- a)
  end.

Definition num_add (x y : num) : num :=
  match x, y with
  | NaN, _ | _, NaN => NaN
  | PInf, NInf | NInf, PInf => NaN
  | PInf, _ | _, PInf => PInf
  | NInf, _ | _, NInf => NInf
  | Fin a, Fin b => Fin (a + b)
  end.

Definition num_sub (x y : num) : num :=
  match x, y with
  | NaN, _ | _, NaN => NaN
  | PInf, PInf | NInf, NInf => NaN
  | PInf, _ | _, NInf => PInf
  | NInf, _ | _, PInf => NInf
  | Fin a, Fin b => Fin (a - b)
  end.

(** Sign of a finite value, used for products and quotients with infinity. *)
Definition inf_of_sign (negative : bool) : num :=
  if negative then NInf else PInf.

Definition num_mul (x y : num) : num :=
  match x, y with
  | NaN, _ | _, NaN => NaN
  | PInf, PInf | NInf, NInf => PInf
  | PInf, NInf | NInf, PInf => NInf
  | PInf, Fin b | Fin b, PInf =>
      if Qeq_bool b 0 then NaN else inf_of_sign (Qltb b 0)
  | NInf, Fin b | Fin b, NInf =>
      if Qeq_bool b 0 then NaN else inf_of_sign (negb (Qltb b 0))
  | Fin a, Fin b => Fin (a * b)
  end.

Definition num_div (x y : num) : num :=
  match x, y with
  | NaN, _ | _, NaN => NaN
  | (PInf | NInf), (PInf | NInf) => NaN
  | Fin _, (PInf | NInf) => Fin 0
  | PInf, Fin b => inf_of_sign (Qltb b 0)
  | NInf, Fin b => inf_of_sign (negb (Qltb b 0))
  | Fin a, Fin b =>
      if Qeq_bool b 0
      then (if Qeq_bool a 0 then NaN else inf_of_sign (Qltb a 0))
      else Fin (a / b)
  end.

(** [Math.abs] *)
Definition num_abs (x : num) : num :=
  match x with
  | NaN => NaN
  | PInf | NInf => PInf
  | Fin a => Fin (Qabs a)
  end.

(** [Math.min(x, y)] and [Math.max(x, y)]: NaN if either argument is NaN. *)
Definition num_min (x y : num) : num :=
  match x, y with
  | NaN, _ | _, NaN => NaN
  | _, _ => if num_le x y then x else y
  end.

Definition num_max (x y : num) : num :=
  match x, y with
  | NaN, _ | _, NaN => NaN
  | _, _ => if num_le y x then x else y
  end.

(** [Math.min(...xs)]; the minimum of no argument is +Infinity. *)
Definition num_min_list (xs : list num) : num := fold_left num_min xs PInf.

Definition num_of_Z (z : Z) : num := Fin (inject_Z z).
Definition num_of_nat (k : nat) : num := num_of_Z (Z.of_nat k).

(** Numeric equality of two numbers ([===] on numbers, NaN excepted). *)
Definition num_eq (x y : num) : Prop :=
  match x, y with
  | Fin a, Fin b => (a == b)%Q
  | PInf, PInf | NInf, NInf => True
  | _, _ => False
  end.

Declare Scope num_scope.
Delimit Scope num_scope with num.
Bind Scope num_scope with num.
Infix "+" := num_add : num_scope.
Infix "-" := num_sub : num_scope.
Infix "*" := num_mul : num_scope.
Infix "/" := num_div : num_scope.
Infix "<?" := num_lt : num_scope.
Infix "<=?" := num_le : num_scope.
Infix ">?" := num_gt : num_scope.
Infix ">=?" := num_ge : num_scope.

#[global] Arguments num_lt : simpl never.
#[global] Arguments num_le : simpl never.
#[global] Arguments num_gt : simpl never.
#[global] Arguments num_ge : simpl never.
#[global] Arguments num_abs : simpl never.
#[global] Arguments num_add : simpl never.
#[global] Arguments num_sub : simpl never.
#[global] Arguments num_mul : simpl never.
#[global] Arguments num_div : simpl never.
#[global] Arguments num_min : simpl never.
#[global] Arguments num_max : simpl never.

Definition n0 : num := Fin 0.
Definition n1 : num := Fin 1.
Definition n2 : num := Fin 2.
(** The literals [1e-6], [0.999999], [1e-12], [1e-8], [0.999]. *)
Definition lit_1e_6 : num := Fin (1 # 1000000).
Definition lit_0_999999 : num := Fin (999999 # 1000000).
Definition lit_1e_12 : num := Fin (1 # 1000000000000).
Definition lit_1e_8 : num := Fin (1 # 100000000).
Definition lit_0_999 : num := Fin (999 # 1000).

(** ** Data model *)

Abbreviation VarName := string (only parsing).

Record Cell : Type := mkCell { cell_r : num; cell_n : num }.

Abbreviation CellMatrix := (gmap string (gmap string Cell)) (only parsing).

Record Edge : Type := mkEdge { e_from : string; e_to : string }.

Record Coef : Type := mkCoef { c_from : string; c_to : string; c_beta : num }.

(** Exceptions the code can raise. *)
Inductive js_error : Type :=
| TypeError            (* property read on [undefined] *)
| SingularMatrix       (* "Matrix is singular (cannot invert). ..." *)
| NotPositiveDefinite  (* "Observed/implied matrix not positive definite ..." *)
| ParseError (msg : string).

Inductive result (A : Type) : Type :=
| Ok (a : A)
| Err (e : js_error).
Arguments Ok {A} a.
Arguments Err {A} e.

#[global] Instance result_bind : MBind result :=
  fun A B f x => match x with Ok a => f a | Err e => Err e end.
#[global] Instance result_ret : MRet result := fun A a => Ok a.

(** [M[a]?.[b]] *)
Definition cell_at (M : CellMatrix) (a b : string) : option Cell :=
  M !! a ≫= (fun row => row !! b).

(** [M[a][b]]: a missing row raises, a missing cell is [undefined]. *)
Definition cell_get (M : CellMatrix) (a b : string) : result (option Cell) :=
  match M !! a with
  | Some row => Ok (row !! b)
  | None => Err TypeError
  end.

(** [M[a][b].r] *)
Definition cell_get_r (M : CellMatrix) (a b : string) : result num :=
  c ← cell_get M a b;
  match c with Some c => Ok (cell_r c) | None => Err TypeError end.

(** [M[a][b] = c] on an existing or missing row [a] (the callers create
    the row first; assigning into a missing row raises). *)
Definition cell_set (M : CellMatrix) (a b : string) (c : Cell) : result CellMatrix :=
  match M !! a with
  | Some row => Ok (<[a := <[b := c]> row]> M)
  | None => Err TypeError
  end.

(** [M[a][b] = v] where [v] may be [undefined]: an undefined slot reads
    like a missing one. *)
Definition cell_set_opt (M : CellMatrix) (a b : string) (c : option Cell)
  : result CellMatrix :=
  match M !! a with
  | Some row => Ok (<[a := match c with Some c => <[b := c]> row | None => delete b row end]> M)
  | None => Err TypeError
  end.

Definition forcedDiag : Cell := mkCell n1 NaN.
Definition emptyCell : Cell := mkCell NaN NaN.

(** A [for ... of] loop whose body updates a state and may throw. *)
Fixpoint foldM {A St : Type} (f : St -> A -> result St) (l : list A) (s : St) : result St :=
  match l with
  | [] => Ok s
  | x :: l' => s' ← f s x; foldM f l' s'
  end.

(** The index pairs [(i, j)], [i < j < len], in the order of the loops
    [for (i = 0; i < len; i++) for (j = i + 1; j < len; j++)]. *)
Definition upper_index_pairs (len : nat) : list (nat * nat) :=
  flat_map (fun i => map (fun j => (i, j)) (seq (S i) (len - S i))) (seq 0 len).

(** The pairs [(vars[i], vars[j])] visited by those two loops. *)
Definition upper_pairs (vars : list string) : list (string * string) :=
  map (fun ij => (nth (fst ij) vars "", nth (snd ij) vars ""))
      (upper_index_pairs (length vars)).

(** ** Building and editing a matrix (PathModelBuilder2.tsx) *)

Definition BASE_VARS : list string := ["loyalty"; "satisfaction"; "value"; "quality"].

Inductive SampleType : Type := All | Lodging | Restaurant | TourismAndTravel.

Definition dec3 (thousandths : Z) : num := Fin (thousandths # 1000).

(** [SAMPLE_PRESETS[sample].pair] *)
Definition SAMPLE_PRESETS (sample : SampleType) : list (string * (num * num)) :=
  match sample with
  | All =>
      [ ("loyalty|satisfaction", (dec3 734, num_of_Z 63671));
        ("loyalty|value", (dec3 545, num_of_Z 81110));
        ("loyalty|quality", (dec3 575, num_of_Z 52764));
        ("satisfaction|value", (dec3 708, num_of_Z 37150));
        ("quality|satisfaction", (dec3 711, num_of_Z 34677));
        ("quality|value", (dec3 561, num_of_Z 58390)) ]
  | Lodging =>
      [ ("loyalty|satisfaction", (dec3 726, num_of_Z 19271));
        ("loyalty|value", (dec3 675, num_of_Z 11993));
        ("loyalty|quality", (dec3 547, num_of_Z 12251));
        ("satisfaction|value", (dec3 770, num_of_Z 12705));
        ("quality|satisfaction", (dec3 922, num_of_Z 8859));
        ("quality|value", (dec3 784, num_of_Z 9268)) ]
  | Restaurant =>
      [ ("loyalty|satisfaction", (dec3 707, num_of_Z 10048));
        ("loyalty|value", (dec3 693, num_of_Z 6599));
        ("loyalty|quality", (dec3 532, num_of_Z 10941));
        ("satisfaction|value", (dec3 720, num_of_Z 6710));
        ("quality|satisfaction", (dec3 714, num_of_Z 7936));
        ("quality|value", (dec3 600, num_of_Z 7301)) ]
  | TourismAndTravel =>
      [ ("loyalty|satisfaction", (dec3 739, num_of_Z 32943));
        ("loyalty|value", (dec3 503, num_of_Z 62257));
        ("loyalty|quality", (dec3 598, num_of_Z 28903));
        ("satisfaction|value", (dec3 661, num_of_Z 17474));
        ("quality|satisfaction", (dec3 601, num_of_Z 16283));
        ("quality|value", (dec3 501, num_of_Z 41821)) ]
  end.

Fixpoint assoc_lookup {V : Type} (k : string) (l : list (string * V)) : option V :=
  match l with
  | [] => None
  | (k', v) :: l' => if String.eqb k k' then Some v else assoc_lookup k l'
  end.

(** [pairKey]: the two names sorted, joined by a bar. *)
Definition pairKey (a b : string) : string :=
  if String.ltb b a then b ++ "|" ++ a else a ++ "|" ++ b.

(** [next[a] ??= {}; next[a][b] = c] *)
Definition put_cell (M : CellMatrix) (a b : string) (c : Cell) : CellMatrix :=
  <[a := <[b := c]> (default ∅ (M !! a))]> M.

Definition makeEmptyRow (vars : list string) (r : string) : gmap string Cell :=
  foldl (fun row c => <[c := if String.eqb r c then forcedDiag else emptyCell]> row) ∅ vars.

Definition makeEmptyCellMatrix (vars : list string) : CellMatrix :=
  foldl (fun M r => <[r := makeEmptyRow vars r]> M) ∅ vars.

(** [for (const v of vars) M[v][v] = { r: 1, n: NaN }] *)
Definition forceDiagonal (vars : list string) (M : CellMatrix) : result CellMatrix :=
  foldM (fun M v => cell_set M v v forcedDiag) vars M.

Definition inb (x : string) (l : list string) : bool := existsb (String.eqb x) l.

(** [carryOverCellMatrix]; [newM] is updated and returned.  The old and the
    new matrix are taken to be distinct objects. *)
Definition carryOverCellMatrix (oldVars : list string) (oldM : CellMatrix)
    (newVars : list string) (newM : CellMatrix) : result CellMatrix :=
  newM ← foldM (fun newM r =>
      if negb (inb r oldVars) then Ok newM
      else foldM (fun newM c =>
             if negb (inb c oldVars) then Ok newM
             else match cell_at oldM r c with
                  | Some cell => cell_set newM r c (mkCell (cell_r cell) (cell_n cell))
                  | None => Ok newM
                  end) newVars newM) newVars newM;
  forceDiagonal newVars newM.

Definition buildPresetBaseMatrix (sample : SampleType) : result CellMatrix :=
  let M := makeEmptyCellMatrix BASE_VARS in
  M ← foldM (fun M ab =>
      let '(a, b) := ab in
      match assoc_lookup (pairKey a b) (SAMPLE_PRESETS sample) with
      | Some (vr, vn) =>
          M ← cell_set M a b (mkCell vr vn);
          cell_set M b a (mkCell vr vn)
      | None => Ok M
      end) (upper_pairs BASE_VARS) M;
  forceDiagonal BASE_VARS M.

(** The effect run when the sample type changes: base cells are replaced by
    the preset, then the diagonal is forced for all current variables. *)
Definition applySampleType (vars : list string) (prev : CellMatrix)
    (sample : SampleType) : result CellMatrix :=
  base ← buildPresetBaseMatrix sample;
  next ← foldM (fun next a =>
      foldM (fun next b =>
        let next := <[a := default ∅ (next !! a)]> next in
        let next := <[b := default ∅ (next !! b)]> next in
        c ← cell_get base a b;
        cell_set_opt next a b c) BASE_VARS next) BASE_VARS prev;
  Ok (foldl (fun next v => put_cell next v v forcedDiag) next vars).

(** A [Partial<Cell>] and the object spread [{ ...old, ...patch }]. *)
Record CellPatch : Type := mkPatch { patch_r : option num; patch_n : option num }.

Definition spread (old : Cell) (patch : CellPatch) : Cell :=
  mkCell (default (cell_r old) (patch_r patch)) (default (cell_n old) (patch_n patch)).

(** [setCell]: the state update of the grid editor. *)
Definition setCell (prev : CellMatrix) (r c : string) (patch : CellPatch) : CellMatrix :=
  let next := prev in
  let old := default emptyCell (cell_at next r c) in
  let next := put_cell next r c (spread old patch) in
  if negb (String.eqb r c) then
    let old2 := default emptyCell (cell_at next c r) in
    put_cell next c r (spread old2 patch)
  else
    put_cell next r c forcedDiag.

(** [applyVars], the matrix it stores for the new variable list
    [BASE_VARS ++ names]. *)
Definition applyVarsMatrix (vars : list string) (cellM : CellMatrix)
    (names : list string) (sample : SampleType) : result CellMatrix :=
  let newVars := BASE_VARS ++ names in
  let newM := makeEmptyCellMatrix newVars in
  newM ← carryOverCellMatrix vars cellM newVars newM;
  basePreset ← buildPresetBaseMatrix sample;
  foldM (fun newM a =>
    foldM (fun newM b =>
      c ← cell_get basePreset a b;
      cell_set_opt newM a b c) BASE_VARS newM) BASE_VARS newM.

(** *** Text input.  The text is taken after [splitLine]: one list of
    trimmed tokens per non-empty line.  The lexical part of
    [parseCellToken] (three regular expressions and [Number]) is the
    parameter [scan]: it returns the [r] and, when the token has one, the
    [n] that the token spells, or nothing when no pattern matches. *)
Section TextInput.
Variable scan : string -> option (num * option num).

Definition parseCellToken (token : string) (isDiag : bool) : Cell :=
  if String.eqb token "" then mkCell NaN NaN
  else match scan token with
       | Some (r, Some n) => mkCell r (if isDiag then NaN else n)
       | Some (r, None) => mkCell r NaN
       | None => mkCell NaN NaN
       end.

Definition hasDuplicates (l : list string) : bool :=
  negb (bool_decide (NoDup l)).

Definition parseRow (vars : list string) (M : CellMatrix) (row : list string)
  : result CellMatrix :=
  let rowName := nth 0 row "" in
  if String.eqb rowName "" then Err (ParseError "Row has empty variable name.")
  else
    let M := <[rowName := ∅]> M in
    Ok (foldl (fun M jc =>
          let '(j, colName) := jc in
          let token := nth j row "" in
          let isDiag := String.eqb rowName colName in
          put_cell M rowName colName (parseCellToken token isDiag))
        M (zip (seq 1 (length vars)) vars)).

Definition checkCoverage (vars : list string) (M : CellMatrix) : result unit :=
  foldM (fun _ r =>
    match M !! r with
    | None => Err (ParseError "Missing row. Row names must match header.")
    | Some row =>
        foldM (fun _ c =>
          match row !! c with
          | None => Err (ParseError "Missing cell.")
          | Some _ => Ok tt
          end) vars tt
    end) vars tt.

Definition parseCombinedMatrixText (rows : list (list string))
  : result (list string * CellMatrix) :=
  if Nat.ltb (length rows) 2 then Err (ParseError "Matrix needs at least 2 rows.")
  else
    let header := nth 0 rows [] in
    if Nat.ltb (length header) 2 then Err (ParseError "Header row must include variable names.")
    else
      let vars := skipn 1 header in
      if existsb (fun v => String.eqb v "") vars
      then Err (ParseError "Header contains empty variable name.")
      else if hasDuplicates vars
      then Err (ParseError "Duplicate variable names in header.")
      else
        cellMatrix ← foldM (parseRow vars) (skipn 1 rows) ∅;
        _ ← checkCoverage vars cellMatrix;
        cellMatrix ← forceDiagonal vars cellMatrix;
        Ok (vars, cellMatrix).
End TextInput.

(** ** Validation *)

(** One constructor per message template of the [errors] and [warnings]
    arrays. *)
Inductive finding : Type :=
| MissingRow (r : string)                 (* Missing row "r". *)
| MissingCell (r c : string)              (* Missing cell (r, c). *)
| InvalidR (r c : string)                 (* Invalid correlation r at (r, c). *)
| ROutOfBounds (r c : string) (rr : num)  (* Correlation r out of bounds [-1,1] ... *)
| DiagNotOne (r c : string) (rr : num)    (* Diagonal must be 1. ... *)
| MissingN (r c : string)                 (* Missing/invalid sample size n ... *)
| NTooSmall (r c : string) (nn : num)     (* Sample size n must be > 2 ... *)
| RNotSymmetric (a b : string)            (* Matrix not symmetric in r: ... *)
| NNotSymmetric (a b : string)            (* n not symmetric: ... *)
| VeryHighR (a b : string)                (* Very high |r| close to 1 between a and b. ... *)
| NoPaths                                 (* No paths defined. ... *)
| TotalNInvalid                           (* Total N is invalid ... *)
| DfZero                                  (* df = 0. Fit indices ... are not meaningful. *)
| Thrown (e : js_error)                   (* the message of a caught exception *)
| RMismatchAveraged (a b : string) (r1 r2 : num)  (* r mismatch for (a, b). Averaged ... *)
| NMismatchMin (a b : string) (n1 n2 : num).      (* N mismatch for (a, b). Used min(...). *)

Record Validation : Type :=
  mkValidation { v_ok : bool; v_errors : list finding; v_warnings : list finding }.

Definition is_nil {A : Type} (l : list A) : bool :=
  match l with [] => true | _ => false end.

(** First loop: one error per declared variable without a row. *)
Definition missingRows (vars : list string) (M : CellMatrix) : list finding :=
  flat_map (fun r => match M !! r with None => [MissingRow r] | Some _ => [] end) vars.

(** The body of the cell loop for the coordinate [(r, c)]. *)
Definition checkCell (r c : string) (cell : option Cell) : list finding :=
  match cell with
  | None => [MissingCell r c]
  | Some cell =>
      let isDiag := String.eqb r c in
      let rr := cell_r cell in
      (if negb (isFinite rr) then [InvalidR r c]
       else
         (if (rr <? num_neg n1)%num || (rr >? n1)%num then [ROutOfBounds r c rr] else [])
         ++ (if isDiag && (num_abs (rr - n1) >? lit_1e_6)%num then [DiagNotOne r c rr] else []))
      ++ (if negb isDiag then
            let nn := cell_n cell in
            if negb (isFinite nn) then [MissingN r c]
            else if (nn <=? n2)%num then [NTooSmall r c nn] else []
          else [])
  end.

Definition cellFindings (vars : list string) (M : CellMatrix) : list finding :=
  flat_map (fun r => flat_map (fun c => checkCell r c (cell_at M r c)) vars) vars.

(** The value of [c?.r] or [c?.n] used in arithmetic: [undefined] behaves
    as NaN. *)
Definition numOpt (x : option num) : num := default NaN x.

(** The body of the pair loop; the accumulators are the two arrays. *)
Definition checkPair (M : CellMatrix) (acc : list finding * list finding)
    (ab : string * string) : result (list finding * list finding) :=
  let '(errors, warnings) := acc in
  let '(a, b) := ab in
  c1 ← cell_get M a b;
  c2 ← cell_get M b a;
  let r1 := cell_r <$> c1 in
  let r2 := cell_r <$> c2 in
  let errors :=
    if isFiniteOpt r1 && isFiniteOpt r2
       && (num_abs (numOpt r1 - numOpt r2) >? lit_1e_6)%num
    then errors ++ [RNotSymmetric a b] else errors in
  let m1 := cell_n <$> c1 in
  let m2 := cell_n <$> c2 in
  let warnings :=
    if isFiniteOpt m1 && isFiniteOpt m2
       && (num_abs (numOpt m1 - numOpt m2) >? lit_1e_6)%num
    then warnings ++ [NNotSymmetric a b] else warnings in
  rr ← cell_get_r M a b;
  let warnings :=
    if isFinite rr && (num_abs rr >=? lit_0_999999)%num
    then warnings ++ [VeryHighR a b] else warnings in
  Ok (errors, warnings).

Definition validateCellMatrix (vars : list string) (M : CellMatrix) : result Validation :=
  let errors := missingRows vars M in
  if negb (is_nil errors) then Ok (mkValidation false errors [])
  else
    let errors := errors ++ cellFindings vars M in
    acc ← foldM (checkPair M) (upper_pairs vars) (errors, []);
    Ok (mkValidation (is_nil acc.1) acc.1 acc.2).

(** [buildRMatrix] *)
Definition buildRMatrix (vars : list string) (M : CellMatrix) : result (list (list num)) :=
  mapM (fun r => mapM (fun c => cell_get_r M r c) vars) vars.

(** ** Total N *)

Definition symN (M : CellMatrix) (a b : string) : num :=
  let k1 := cell_n <$> cell_at M a b in
  let k2 := cell_n <$> cell_at M b a in
  if isFiniteOpt k1 && isFiniteOpt k2 then num_min (numOpt k1) (numOpt k2)
  else if isFiniteOpt k1 then numOpt k1
  else if isFiniteOpt k2 then numOpt k2
  else NaN.

Inductive NMethod : Type := harmonic | minimum.

(** The array [ns] after the two loops of [computeTotalN]. *)
Definition collectN (vars : list string) (M : CellMatrix) : list num :=
  foldl (fun ns ab =>
           let k := symN M ab.1 ab.2 in
           if isFinite k then ns ++ [k] else ns)
        [] (upper_pairs vars).

Definition computeTotalN (vars : list string) (M : CellMatrix) (method : NMethod) : num :=
  let ns := collectN vars M in
  if Nat.eqb (length ns) 0 then NaN
  else match method with
       | minimum => num_min_list ns
       | harmonic =>
           let denom := foldl (fun denom k => (denom + n1 / k)%num) n0 ns in
           (num_of_nat (length ns) / denom)%num
       end.

(** ** Small matrix algebra.  A matrix is an array of rows. *)

(** [A[i][j]] for a row index known to be in range; a missing entry is
    [undefined], which is NaN in arithmetic. *)
Definition mget (A : list (list num)) (i j : nat) : num := nth j (nth i A []) NaN.

(** [A[i]] when the row may be missing: reading an entry of it raises. *)
Definition row_at (A : list (list num)) (i : nat) : result (list num) :=
  match A !! i with Some row => Ok row | None => Err TypeError end.

(** [A[i][j] = v] on existing rows and columns. *)
Definition mset (A : list (list num)) (i j : nat) (v : num) : list (list num) :=
  <[i := <[j := v]> (nth i A [])]> A.

Definition matIdentity (n : nat) : list (list num) :=
  map (fun i => map (fun j => if Nat.eqb i j then n1 else n0) (seq 0 n)) (seq 0 n).

Definition matZero (n : nat) : list (list num) :=
  map (fun _ => map (fun _ => n0) (seq 0 n)) (seq 0 n).

Definition matClone (A : list (list num)) : list (list num) := map (fun r => r) A.

Definition transpose (A : list (list num)) : result (list (list num)) :=
  match A with
  | [] => Err TypeError
  | row0 :: _ => Ok (map (fun j => map (fun row => nth j row NaN) A) (seq 0 (length row0)))
  end.

Definition matMul (A B : list (list num)) : result (list (list num)) :=
  match B with
  | [] => Err TypeError
  | b0 :: _ =>
      let n := length A in
      let m := length b0 in
      let k := length B in
      Ok (map (fun i =>
            map (fun j =>
              foldl (fun s t => (s + mget A i t * mget B t j)%num) n0 (seq 0 k))
              (seq 0 m))
            (seq 0 n))
  end.

(** [arr.reduce((s, x, i) => f(s, x, i), s0)] *)
Fixpoint reducei {A St : Type} (f : St -> A -> nat -> St) (l : list A) (i : nat) (s : St) : St :=
  match l with
  | [] => s
  | x :: l' => reducei f l' (S i) (f s x i)
  end.

Definition vecDot (a b : list num) : num :=
  reducei (fun s x i => (s + x * nth i b NaN)%num) a 0 n0.

Definition matVecMul (A : list (list num)) (v : list num) : list num :=
  map (fun row => vecDot row v) A.

Definition swapRows (A : list (list num)) (i j : nat) : list (list num) :=
  <[j := nth i A []]> (<[i := nth j A []]> A).

(** The row chosen by the pivot search of column [col] among rows
    [col .. n-1]: a later row wins only when strictly larger. *)
Definition findPivot (M : list (list num)) (n col : nat) : nat :=
  foldl (fun pivotRow r =>
           if (num_abs (mget M r col) >? num_abs (mget M pivotRow col))%num
           then r else pivotRow)
        col (seq col (n - col)).

(** [for (j = 0; j < n; j++) row[j] = f(row[j], j)] *)
Definition updRow (n : nat) (f : num -> nat -> num) (row : list num) : list num :=
  map (fun j => f (nth j row NaN) j) (seq 0 n).

(** One iteration of the column loop of [matInverse] on the pair of
    the working copy [M] and the accumulated inverse [I'] (the source's [I]). *)
Definition inverseStep (n : nat) (st : list (list num) * list (list num)) (col : nat)
  : result (list (list num) * list (list num)) :=
  let '(M, I') := st in
  let pivotRow := findPivot M n col in
  if (num_abs (mget M pivotRow col) <? lit_1e_12)%num then Err SingularMatrix
  else
    let M := swapRows M col pivotRow in
    let I' := swapRows I' col pivotRow in
    let piv := mget M col col in
    let M := <[col := updRow n (fun x _ => (x / piv)%num) (nth col M [])]> M in
    let I' := <[col := updRow n (fun x _ => (x / piv)%num) (nth col I' [])]> I' in
    Ok (foldl (fun MI r =>
          let '(M, I') := MI in
          if Nat.eqb r col then (M, I')
          else
            let factor := mget M r col in
            (<[r := updRow n (fun x j => (x - factor * mget M col j)%num) (nth r M [])]> M,
             <[r := updRow n (fun x j => (x - factor * mget I' col j)%num) (nth r I' [])]> I'))
        (M, I') (seq 0 n)).

Definition matInverse (A : list (list num)) : result (list (list num)) :=
  let n := length A in
  st ← foldM (inverseStep n) (seq 0 n) (matClone A, matIdentity n);
  Ok st.2.

(** State of [matDet]: the working matrix and the running determinant;
    [inl] is the early [return 0]. *)
Definition detStep (n : nat) (st : list (list num) * num) (i : nat)
  : num + (list (list num) * num) :=
  let '(M, det) := st in
  let pivot := findPivot M n i in
  if (num_abs (mget M pivot i) <? lit_1e_12)%num then inl n0
  else
    let '(M, det) :=
      if negb (Nat.eqb pivot i) then (swapRows M i pivot, (det * num_neg n1)%num)
      else (M, det) in
    let det := (det * mget M i i)%num in
    let piv := mget M i i in
    inr (foldl (fun M r =>
           let f := (mget M r i / piv)%num in
           <[r := map (fun c =>
                    if Nat.ltb c i then nth c (nth r M []) NaN
                    else (mget M r c - f * mget M i c)%num) (seq 0 n)]> M)
         M (seq (S i) (n - S i)), det).

Definition matDet (A : list (list num)) : num :=
  let n := length A in
  match foldl (fun acc i =>
           match acc with
           | inl z => inl z
           | inr st => detStep n st i
           end) (inr (matClone A, n1)) (seq 0 n) with
  | inl z => z
  | inr st => st.2
  end.

Definition matTrace (A : list (list num)) : num :=
  reducei (fun s row i => (s + nth i row NaN)%num) A 0 n0.

(** ** Path estimation *)

Definition parentsOf (node : string) (edges : list Edge) : list string :=
  map e_from (filter (fun e => String.eqb (e_to e) node = true) edges).

Record EstPaths : Type :=
  mkEstPaths { est_coeffs : list Coef; est_r2 : gmap string num; est_resid : gmap string num }.

(** The body of the loop over [y] in [estimatePathsFromCorrelation]. *)
Definition estimateOne (cellM : CellMatrix) (edges : list Edge)
    (st : EstPaths) (y : string) : result EstPaths :=
  let X := parentsOf y edges in
  if Nat.eqb (length X) 0 then Ok st
  else
    Rxx ← mapM (fun a => mapM (fun b => cell_get_r cellM a b) X) X;
    rXy ← mapM (fun a => cell_get_r cellM a y) X;
    inv ← matInverse Rxx;
    let beta := matVecMul inv rXy in
    let R2 := vecDot rXy beta in
    Ok (mkEstPaths
          (est_coeffs st ++ imap (fun i x => mkCoef x y (nth i beta NaN)) X)
          (<[y := R2]> (est_r2 st))
          (<[y := num_max lit_1e_8 (n1 - R2)%num]> (est_resid st))).

(** [new Set(edges.map((e) => e.to))] and its [has]. *)
Definition endogenousSet (edges : list Edge) : gset string :=
  list_to_set (map e_to edges).

Definition isEndogenous (edges : list Edge) (v : string) : bool :=
  bool_decide (v ∈ endogenousSet edges).

Definition estimatePathsFromCorrelation (vars : list string) (cellM : CellMatrix)
    (edges : list Edge) : result EstPaths :=
  st ← foldM (estimateOne cellM edges) vars (mkEstPaths [] ∅ ∅);
  Ok (foldl (fun st v =>
        if isEndogenous edges v && negb (bool_decide (is_Some (est_resid st !! v)))
        then mkEstPaths (est_coeffs st) (est_r2 st) (<[v := n1]> (est_resid st))
        else st) st vars).

(** ** Implied matrix, fit statistics and the estimation run *)

(** [Object.fromEntries(vars.map((v, i) => [v, i]))]: a later entry wins. *)
Definition indexMap (vars : list string) : gmap string nat :=
  foldl (fun m iv => <[iv.2 := iv.1]> m) ∅ (zip (seq 0 (length vars)) vars).

Definition impliedSigmaRecursive (vars : list string) (S : list (list num))
    (edges : list Edge) (coeffs : list Coef) (residVar : gmap string num)
  : result (list (list num)) :=
  let p := length vars in
  let idx := indexMap vars in
  B ← foldM (fun B e =>
         match idx !! c_to e with
         | None => Err TypeError
         | Some i =>
             match idx !! c_from e with
             | Some j => Ok (mset B i j (c_beta e))
             | None => Ok B
             end
         end) coeffs (matZero p);
  let exoIdx :=
    filter (fun i => isEndogenous edges (nth i vars "") = false) (seq 0 p) in
  Psi ← foldM (fun Psi i =>
           foldM (fun Psi j =>
             row ← row_at S i;
             Ok (mset Psi i j (nth j row NaN))) exoIdx Psi) exoIdx (matZero p);
  Psi ← foldM (fun Psi v =>
           match idx !! v with
           | None => Err TypeError
           | Some i =>
               if isEndogenous edges v
               then Ok (mset Psi i i (num_max lit_1e_8 (default n1 (residVar !! v))))
               else Ok Psi
           end) vars Psi;
  let IminusB :=
    imap (fun i row => imap (fun j x => (x - mget B i j)%num) row) (matIdentity p) in
  inv ← matInverse IminusB;
  invT ← transpose inv;
  m ← matMul inv Psi;
  matMul m invT.

Record DF : Type :=
  mkDF { df_df : Z; df_df0 : Z; df_observedMoments : Z; df_freeParams : Z; df_endoCount : Z }.

Definition countDF (vars : list string) (edges : list Edge) : DF :=
  let len := Z.of_nat (length vars) in
  let observedMoments := ((len * (len + 1)) / 2)%Z in
  let endoCount := Z.of_nat (length (filter (fun v => isEndogenous edges v = true) vars)) in
  let freeParams := (Z.of_nat (length edges) + endoCount)%Z in
  let df := Z.max 0 (observedMoments - freeParams) in
  let df0 := ((len * (len - 1)) / 2)%Z in
  mkDF df df0 observedMoments freeParams endoCount.

Record Fit : Type := mkFit {
  totalN : num;
  N_method : NMethod;
  SRMR : num;
  fit_df : Z;
  observedMoments : Z;
  freeParams : Z;
  endogenousCount : Z;
  chi2 : option num;
  rmsea : option num;
  cfi : option num;
  tli : option num }.

Record EstResult : Type := mkEstResult {
  res_coeffs : list Coef;
  res_r2 : gmap string num;
  res_resid : gmap string num;
  res_fit : Fit }.

(** What the run leaves in the component state. *)
Record RunState : Type := mkRunState {
  matrixErrors : list finding;
  matrixWarnings : list finding;
  lastEst : option EstResult }.

(** [Math.sqrt] and [Math.log] have no rational model; the functions that
    call them take them as parameters. *)
Section Transcendental.
Variables js_sqrt js_log : num -> num.

Definition srmrOffDiag (S Sigma : list (list num)) : result num :=
  let p := length S in
  acc ← foldM (fun (acc : num * nat) ij =>
           rowΣ ← row_at Sigma ij.1;
           let d := (mget S ij.1 ij.2 - nth ij.2 rowΣ NaN)%num in
           Ok ((acc.1 + d * d)%num, Datatypes.S acc.2))
         (upper_index_pairs p) (n0, 0);
  Ok (js_sqrt (acc.1 / num_max n1 (num_of_nat acc.2))%num).

Definition fitML (S Sigma : list (list num)) (N : num) : result (num * num) :=
  let p := length S in
  let detS := matDet S in
  let detSig := matDet Sigma in
  if (detS <=? n0)%num || (detSig <=? n0)%num then Err NotPositiveDefinite
  else
    SigInv ← matInverse Sigma;
    prod ← matMul S SigInv;
    let tr := matTrace prod in
    let Fml := (js_log detSig + tr - js_log detS - num_of_nat p)%num in
    let chi2 := ((N - n1) * Fml)%num in
    let Sigma0 :=
      map (fun i => map (fun j => if Nat.eqb i j then mget S i i else n0) (seq 0 p))
          (seq 0 p) in
    let det0 := matDet Sigma0 in
    inv0 ← matInverse Sigma0;
    prod0 ← matMul S inv0;
    let tr0 := matTrace prod0 in
    let F0 := (js_log det0 + tr0 - js_log detS - num_of_nat p)%num in
    let chi2_0 := ((N - n1) * F0)%num in
    Ok (chi2, chi2_0).

(** Returns (cfi, tli, rmsea). *)
Definition computeFitIndices (chi2 : num) (df : Z) (chi2_0 : num) (df0 : Z) (N : num)
  : num * num * num :=
  let df := num_of_Z df in
  let df0 := num_of_Z df0 in
  let cfi := (n1 - num_max n0 (chi2 - df) / num_max lit_1e_12 (chi2_0 - df0))%num in
  let tli := (n1 - (chi2 / num_max lit_1e_12 df - n1)
                   / (chi2_0 / num_max lit_1e_12 df0 - n1))%num in
  let rmsea :=
    js_sqrt (num_max n0 ((chi2 - df) / (num_max lit_1e_12 df * (N - n1))))%num in
  (cfi, tli, rmsea).

(** The [try] block of [runEstimationAndStore]: the estimate and the
    warnings to show with it. *)
Definition runTry (vars : list string) (cellM : CellMatrix) (edges : list Edge)
    (nMethod : NMethod) (N : num) (warnings : list finding)
  : result (EstResult * list finding) :=
  S ← buildRMatrix vars cellM;
  est ← estimatePathsFromCorrelation vars cellM edges;
  Sigma ← impliedSigmaRecursive vars S edges (est_coeffs est) (est_resid est);
  srmr ← srmrOffDiag S Sigma;
  let d := countDF vars edges in
  let fit := mkFit N nMethod srmr (df_df d) (df_observedMoments d) (df_freeParams d)
                   (df_endoCount d) None None None None in
  if (0 <? df_df d)%Z then
    chis ← fitML S Sigma N;
    let '(cfi, tli, rmsea) :=
      computeFitIndices chis.1 (df_df d) chis.2 (df_df0 d) N in
    let fit := mkFit N nMethod srmr (df_df d) (df_observedMoments d) (df_freeParams d)
                     (df_endoCount d) (Some chis.1) (Some rmsea) (Some cfi) (Some tli) in
    Ok (mkEstResult (est_coeffs est) (est_r2 est) (est_resid est) fit, warnings)
  else
    Ok (mkEstResult (est_coeffs est) (est_r2 est) (est_resid est) fit,
        warnings ++ [DfZero]).

(** [runEstimationAndStore]: the state it stores.  An exception raised by
    the validation itself is not caught. *)
Definition runEstimationAndStore (vars : list string) (cellM : CellMatrix)
    (edges : list Edge) (nMethod : NMethod) : result RunState :=
  v ← validateCellMatrix vars cellM;
  let warnings := v_warnings v in
  let errors := if Nat.eqb (length edges) 0 then [NoPaths] else [] in
  let errors := if negb (v_ok v) then errors ++ v_errors v else errors in
  let N := if v_ok v then computeTotalN vars cellM nMethod else NaN in
  let errors :=
    if v_ok v && (negb (isFinite N) || (N <=? n2)%num)
    then errors ++ [TotalNInvalid] else errors in
  if negb (is_nil errors) then Ok (mkRunState errors warnings None)
  else
    match runTry vars cellM edges nMethod N warnings with
    | Ok (res, warnings') => Ok (mkRunState errors warnings' (Some res))
    | Err e => Ok (mkRunState [Thrown e] warnings None)
    end.
End Transcendental.

(** ** The two-matrix text parser of [PathModelBuilder - Copy.tsx] *)

(** [M[a][b]] followed by a property read: both a missing row and a missing
    cell raise. *)
Definition cell_get_def (M : CellMatrix) (a b : string) : result Cell :=
  c ← cell_get M a b;
  match c with Some c => Ok c | None => Err TypeError end.

Module Copy.

Definition MAX_NEW_VARS : nat := 3.

Definition clampR (x : num) : num :=
  if negb (isFinite x) then NaN
  else if (x >? lit_0_999)%num then lit_0_999
  else if (x <? num_neg lit_0_999)%num then num_neg lit_0_999
  else x.

Definition makeEmptyMatrix (vars : list string) : CellMatrix :=
  foldl (fun out r =>
           <[r := foldl (fun row c =>
                     <[c := if String.eqb r c then mkCell n1 NaN else mkCell NaN NaN]> row)
                   ∅ vars]> out)
        ∅ vars.

(** The symmetry pass of [parseMatrixText] for one pair: the matrix and
    the warnings so far are updated. *)
Definition reconcilePair (acc : CellMatrix * list finding) (ab : string * string)
  : result (CellMatrix * list finding) :=
  let '(m, warnings) := acc in
  let '(a, b) := ab in
  cab ← cell_get_def m a b;
  cba ← cell_get_def m b a;
  let r1 := cell_r cab in
  let r2 := cell_r cba in
  let k1 := cell_n cab in
  let k2 := cell_n cba in
  let r1ok := isFinite r1 in
  let r2ok := isFinite r2 in
  let n1ok := isFinite k1 in
  let n2ok := isFinite k2 in
  let '(warnings, rFinal) :=
    if r1ok && r2ok && (num_abs (r1 - r2) >? lit_1e_6)%num
    then (warnings ++ [RMismatchAveraged a b r1 r2], clampR ((r1 + r2) / n2)%num)
    else if r1ok then (warnings, r1)
    else if r2ok then (warnings, r2)
    else (warnings, NaN) in
  let '(warnings, nFinal) :=
    if n1ok && n2ok && (num_abs (k1 - k2) >? lit_1e_6)%num
    then (warnings ++ [NMismatchMin a b k1 k2], num_min k1 k2)
    else if n1ok then (warnings, k1)
    else if n2ok then (warnings, k2)
    else (warnings, NaN) in
  m ← cell_set m a b (mkCell rFinal nFinal);
  m ← cell_set m b a (mkCell rFinal nFinal);
  Ok (m, warnings).

(** The symmetry pass and the final diagonal loop. *)
Definition reconcile (vars : list string) (m : CellMatrix)
  : result (CellMatrix * list finding) :=
  acc ← foldM reconcilePair (upper_pairs vars) (m, []);
  m ← forceDiagonal vars acc.1;
  Ok (m, acc.2).

(** The text is taken after the line and field splitting; [Number] and
    [toLowerCase] are the string primitives the parser calls. *)
Section Text.
Variable Number : string -> num.
Variable toLowerCase : string -> string.

Definition fillCell (vars : list string) (i : nat) (rRow nRow : list string)
    (m : CellMatrix) (j : nat) : result CellMatrix :=
  let rr := nth (j + 1) rRow "" in
  let nn := nth (j + 1) nRow "" in
  if Nat.eqb i j then cell_set m (nth i vars "") (nth j vars "") (mkCell n1 NaN)
  else
    let rVal := if String.eqb rr "" then NaN else Number rr in
    let nVal := if String.eqb nn "" then NaN else Number nn in
    if negb (String.eqb rr "") && negb (isFinite rVal)
    then Err (ParseError "Invalid r")
    else if negb (String.eqb nn "") && (negb (isFinite nVal) || (nVal <=? n0)%num)
    then Err (ParseError "Invalid N")
    else cell_set m (nth i vars "") (nth j vars "") (mkCell (clampR rVal) nVal).

Definition fillRow (vars : list string) (rRows nRows : list (list string))
    (m : CellMatrix) (i : nat) : result CellMatrix :=
  let rRow := nth (i + 1) rRows [] in
  let nRow := nth (i + 1) nRows [] in
  let rowNameR := toLowerCase (nth 0 rRow "") in
  let rowNameN := toLowerCase (nth 0 nRow "") in
  if negb (String.eqb rowNameR (nth i vars ""))
  then Err (ParseError "Correlation matrix row name mismatch")
  else if negb (String.eqb rowNameN (nth i vars ""))
  then Err (ParseError "N matrix row name mismatch")
  else foldM (fillCell vars i rRow nRow) (seq 0 (length vars)) m.

Definition parseMatrixText (rRows nRows : list (list string))
  : result (list string * CellMatrix * list finding) :=
  if Nat.ltb (length rRows) 2 then Err (ParseError "Correlation matrix text is too short.")
  else if Nat.ltb (length nRows) 2 then Err (ParseError "Sample size matrix text is too short.")
  else
    let rHeader := skipn 1 (nth 0 rRows []) in
    let nHeader := skipn 1 (nth 0 nRows []) in
    if Nat.eqb (length rHeader) 0
    then Err (ParseError "Correlation matrix header row is missing variable names.")
    else if Nat.eqb (length nHeader) 0
    then Err (ParseError "N matrix header row is missing variable names.")
    else
      let vars := map toLowerCase rHeader in
      let varsN := map toLowerCase nHeader in
      if negb (String.eqb (String.concat "|" vars) (String.concat "|" varsN))
      then Err (ParseError "Variable headers do not match between r and N matrices.")
      else
        let k := length vars in
        if negb (Nat.eqb (length rRows) (k + 1))
        then Err (ParseError "Correlation matrix row count does not match header size.")
        else if negb (Nat.eqb (length nRows) (k + 1))
        then Err (ParseError "N matrix row count does not match header size.")
        else if Nat.ltb (length BASE_VARS + MAX_NEW_VARS) k
        then Err (ParseError "Too many variables in text matrices.")
        else
          m ← foldM (fillRow vars rRows nRows) (seq 0 k) (makeEmptyMatrix vars);
          mw ← reconcile vars m;
          Ok (vars, mw.1, mw.2).
End Text.

(** [setCell] of this variant: both slots receive the same updated cell. *)
Definition setCell (prev : CellMatrix) (a b : string) (patch : CellPatch) : CellMatrix :=
  let next := prev in
  let cur := default emptyCell (cell_at next a b) in
  let upd := mkCell (match patch_r patch with Some x => clampR x | None => cell_r cur end)
                    (match patch_n patch with Some x => x | None => cell_n cur end) in
  let next := put_cell next a b upd in
  let next := put_cell next b a upd in
  if String.eqb a b then put_cell next a b (mkCell n1 NaN) else next.


(** *** Edges, variable names and the demo estimation of this variant *)

(** [toggleEdge]: the state update; a self-loop is ignored. *)
Definition toggleEdge (prev : list Edge) (from to : string) : list Edge :=
if String.eqb from to then prev
else
  let same := fun e => String.eqb (e_from e) from && String.eqb (e_to e) to in
  if existsb same prev then List.filter (fun e => negb (same e)) prev
  else prev ++ [mkEdge from to].

(** The selection and the edges of the diagram. *)
Record Diagram : Type := mkDiagram { selectFrom : option string; dg_edges : list Edge }.

(** A string used as a condition: [null] and the empty string are falsy. *)
Definition truthy (s : option string) : bool :=
match s with
| Some s => negb (String.eqb s "")
| None => false
end.

(** [onNodeClick] *)
Definition onNodeClick (d : Diagram) (v : string) : Diagram :=
if negb (truthy (selectFrom d)) then mkDiagram (Some v) (dg_edges d)
else if bool_decide (selectFrom d = Some v) then mkDiagram None (dg_edges d)
else mkDiagram None (toggleEdge (dg_edges d) (default "" (selectFrom d)) v).

(** The values kept by [harmonicMean] and [minPositive]: finite and > 0. *)
Definition positiveFinite (xs : list num) : list num :=
List.filter (fun x => isFinite x && (x >? n0)%num) xs.

Definition harmonicMean (xs : list num) : num :=
let vals := positiveFinite xs in
if Nat.eqb (length vals) 0 then NaN
else
  let inv := foldl (fun a x => (a + n1 / x)%num) n0 vals in
  (num_of_nat (length vals) / inv)%num.

Definition minPositive (xs : list num) : num :=
let vals := positiveFinite xs in
if Nat.eqb (length vals) 0 then NaN
else num_min_list vals.

(** What [runEstimation] throws. *)
Inductive EstimationFailure : Type :=
| NoEdges                                  (* Please create at least one arrow ... *)
| MissingData (items : list (bool * Edge)) (* Missing r / Missing N for from -> to *)
| NoValidN.                                (* Could not derive total N ... *)

(** The body of the loop over the edges: the missing items (tagged [true]
    for r, [false] for N) and the collected N. *)
Definition checkEdge (m : CellMatrix) (acc : list (bool * Edge) * list num) (e : Edge)
  : list (bool * Edge) * list num :=
let '(missing, Ns) := acc in
let cell := cell_at m (e_from e) (e_to e) in
let missing :=
  if negb (isFiniteOpt (cell_r <$> cell)) then missing ++ [(true, e)] else missing in
let missing :=
  if negb (isFiniteOpt (cell_n <$> cell)) then missing ++ [(false, e)] else missing in
let Ns :=
  if isFiniteOpt (cell_n <$> cell) then Ns ++ [numOpt (cell_n <$> cell)] else Ns in
(missing, Ns).

(** [runEstimation]: on success the total N (before the rounding of the
    message) and the number of edges that the message reports. *)
Definition runEstimation (vars : list string) (m : CellMatrix) (edges : list Edge)
    (totalNMode : NMethod) : EstimationFailure + (num * nat) :=
if Nat.ltb (length edges) 1 then inl NoEdges
else
  let '(missing, Ns) := foldl (checkEdge m) ([], []) edges in
  if negb (is_nil missing) then inl (MissingData missing)
  else
    let totalN :=
      match totalNMode with
      | harmonic => harmonicMean Ns
      | minimum => minPositive Ns
      end in
    if negb (isFinite totalN) then inl NoValidN
    else inr (totalN, length edges).

(** The messages of [validateMatrix]. *)
Inductive GridFinding : Type :=
| DiagShouldBeOne (r : string)   (* Diagonal r for "r" should be 1. (Forced to 1.) *)
| InvalidRBound (r c : string)   (* Invalid r at (r, c): must be between -1 and 1. *)
| InvalidNPositive (r c : string). (* Invalid N at (r, c): must be > 0. *)

(** [cell.r !== 1] on numbers. *)
Definition isOne (x : num) : bool :=
match x with Fin q => Qeq_bool q 1 | _ => false end.

(** The body of the two loops of [validateMatrix] for one coordinate: the
    errors and the warnings it adds. *)
Definition checkGridCell (r c : string) (cell : option Cell)
  : list GridFinding * list GridFinding :=
match cell with
| None => ([], [])
| Some cell =>
    if String.eqb r c then
      ([], if negb (isOne (cell_r cell)) then [DiagShouldBeOne r] else [])
    else
      ((if isFinite (cell_r cell) && (num_abs (cell_r cell) >=? n1)%num
        then [InvalidRBound r c] else [])
       ++ (if isFinite (cell_n cell) && (cell_n cell <=? n0)%num
           then [InvalidNPositive r c] else []),
       [])
end.

(** [validateMatrix]: the errors and the warnings it stores; it returns
    whether there is no error. *)
Definition validateMatrix (vars : list string) (cellM : CellMatrix)
  : list GridFinding * list GridFinding :=
let cells := flat_map (fun r => map (fun c => checkGridCell r c (cell_at cellM r c)) vars) vars in
(flat_map fst cells, flat_map snd cells).

Section Names.
(** [s.trim().toLowerCase()] *)
Variable cleanName : string -> string.

(** [uniqueVars]: cleaned, non-empty names, each kept at its first
    occurrence. *)
Definition uniqueVars (names : list string) : list string :=
let cleaned := List.filter (fun s => negb (String.eqb s "")) (map cleanName names) in
(foldl (fun (acc : gset string * list string) v =>
          if bool_decide (v ∈ acc.1) then acc
          else ({[v]} ∪ acc.1, acc.2 ++ [v]))
       (∅, []) cleaned).2.
End Names.

End Copy.

(** ** Reference notions used to state the properties *)

(** Every unordered pair of positions of the list once, the earlier
    variable first. *)
Fixpoint unordered_pairs (vars : list string) : list (string * string) :=
  match vars with
  | [] => []
  | a :: rest => map (fun b => (a, b)) rest ++ unordered_pairs rest
  end.

(** The finite [n] of a cell, if the cell exists and holds one. *)
Definition finiteN (M : CellMatrix) (a b : string) : option num :=
  match cell_at M a b with
  | Some c => if isFinite (cell_n c) then Some (cell_n c) else None
  | None => None
  end.

(** The [n] of an unordered pair: the smaller side when both are finite,
    the finite side when one is, none otherwise. *)
Definition pairN (M : CellMatrix) (ab : string * string) : option num :=
  match finiteN M ab.1 ab.2, finiteN M ab.2 ab.1 with
  | Some x, Some y => Some (num_min x y)
  | Some x, None => Some x
  | None, Some y => Some y
  | None, None => None
  end.

(** The sum of the reciprocals of a list of numbers. *)
Definition sumReciprocals (ns : list num) : num :=
  foldl num_add n0 (map (fun k => (n1 / k)%num) ns).

(** Every variable of the list has a row. *)
Definition allRows (vars : list string) (M : CellMatrix) : Prop :=
  forall r, In r vars -> is_Some (M !! r).

(** The findings that the checks of the validator call for on a matrix in
    which every variable has a row: one clause per check. *)
Inductive expectedError (vars : list string) (M : CellMatrix) : finding -> Prop :=
| exp_missing_cell r c :
    In r vars -> In c vars -> cell_at M r c = None ->
    expectedError vars M (MissingCell r c)
| exp_invalid_r r c cell :
    In r vars -> In c vars -> cell_at M r c = Some cell ->
    isFinite (cell_r cell) = false ->
    expectedError vars M (InvalidR r c)
| exp_out_of_bounds r c cell :
    In r vars -> In c vars -> cell_at M r c = Some cell ->
    isFinite (cell_r cell) = true ->
    (cell_r cell <? num_neg n1)%num = true \/ (cell_r cell >? n1)%num = true ->
    expectedError vars M (ROutOfBounds r c (cell_r cell))
| exp_diag r cell :
    In r vars -> cell_at M r r = Some cell ->
    isFinite (cell_r cell) = true ->
    (num_abs (cell_r cell - n1) >? lit_1e_6)%num = true ->
    expectedError vars M (DiagNotOne r r (cell_r cell))
| exp_missing_n r c cell :
    In r vars -> In c vars -> r <> c -> cell_at M r c = Some cell ->
    isFinite (cell_n cell) = false ->
    expectedError vars M (MissingN r c)
| exp_small_n r c cell :
    In r vars -> In c vars -> r <> c -> cell_at M r c = Some cell ->
    isFinite (cell_n cell) = true ->
    (cell_n cell <=? n2)%num = true ->
    expectedError vars M (NTooSmall r c (cell_n cell))
| exp_not_symmetric a b c1 c2 :
    In (a, b) (unordered_pairs vars) ->
    cell_at M a b = Some c1 -> cell_at M b a = Some c2 ->
    isFinite (cell_r c1) = true -> isFinite (cell_r c2) = true ->
    (num_abs (cell_r c1 - cell_r c2) >? lit_1e_6)%num = true ->
    expectedError vars M (RNotSymmetric a b).

(** The forced diagonal on a list of variables. *)
Definition diagForced (vars : list string) (M : CellMatrix) : Prop :=
  forall v, In v vars -> cell_at M v v = Some forcedDiag.

(** The cells that the path estimation reads for the edge set: a parent
    against a parent of the same variable, or a parent against its child. *)
Definition estimationCell (edges : list Edge) (a b : string) : Prop :=
  exists y, In a (parentsOf y edges) /\ (In b (parentsOf y edges) \/ b = y).



(** What the pair loop of the validator adds for one pair when it gets
    through it, stated on [M[a]?.[b]]. *)
Definition pairErrors (M : CellMatrix) (ab : string * string) : list finding :=
  let r1 := cell_r <$> cell_at M ab.1 ab.2 in
  let r2 := cell_r <$> cell_at M ab.2 ab.1 in
  if isFiniteOpt r1 && isFiniteOpt r2
     && (num_abs (numOpt r1 - numOpt r2) >? lit_1e_6)%num
  then [RNotSymmetric ab.1 ab.2] else [].

Definition pairWarnings (M : CellMatrix) (ab : string * string) : list finding :=
  let m1 := cell_n <$> cell_at M ab.1 ab.2 in
  let m2 := cell_n <$> cell_at M ab.2 ab.1 in
  let rr := numOpt (cell_r <$> cell_at M ab.1 ab.2) in
  (if isFiniteOpt m1 && isFiniteOpt m2
      && (num_abs (numOpt m1 - numOpt m2) >? lit_1e_6)%num
   then [NNotSymmetric ab.1 ab.2] else [])
  ++ (if isFinite rr && (num_abs rr >=? lit_0_999999)%num
      then [VeryHighR ab.1 ab.2] else []).

(** ** Sample inputs *)

Definition cellQ (r : Q) (n : Z) : Cell := mkCell (Fin r) (num_of_Z n).


(** Two variables; the two off-diagonal cells hold [rab] and [rba]. *)
Definition twoVarMatrix (rab rba : Q) : CellMatrix :=
  put_cell (put_cell (makeEmptyCellMatrix ["a"; "b"]) "a" "b" (cellQ rab 100))
           "b" "a" (cellQ rba 100).

(** Row [b] is missing and the cell (a, b) is out of bounds with a small n. *)
Definition missingRowMatrix : CellMatrix :=
  {[ "a" := <["a" := forcedDiag]> {[ "b" := cellQ 5 1 ]} ]}.


(** Rational stand-ins for [Math.sqrt] and [Math.log], used only to run the
    estimation on sample inputs: two Newton steps for the square root and
    the first terms of the area-tangent series for the logarithm. *)
Definition approxSqrt (x : num) : num :=
  match x with
  | Fin q =>
      if Qle_bool q 0 then (if Qeq_bool q 0 then Fin 0 else NaN)
      else
        let step := fun y => Qred ((y + q / y) / 2) in
        Fin (step (step (Qred ((1 + q) / 2))))
  | PInf => PInf
  | _ => NaN
  end.

Definition approxLog (x : num) : num :=
  match x with
  | Fin q =>
      if Qle_bool q 0 then (if Qeq_bool q 0 then NInf else NaN)
      else
        let z := Qred ((q - 1) / (q + 1)) in
        Fin (Qred (2 * (z + z * z * z / 3)))
  | PInf => PInf
  | _ => NaN
  end.

Definition losslessEdges : list Edge := [mkEdge "a" "b"].

(** *** The symmetry pass in terms of the two sides of a pair *)

(** Both sides hold a finite value and the two differ by more than 1e-6. *)
Definition mismatch (x1 x2 : num) : bool :=
  isFinite x1 && isFinite x2 && (num_abs (x1 - x2) >? lit_1e_6)%num.

(** The r written on both sides of a pair by [Copy.reconcilePair]. *)
Definition reconciledR (r1 r2 : num) : num :=
  if mismatch r1 r2 then Copy.clampR ((r1 + r2) / n2)%num
  else if isFinite r1 then r1
  else if isFinite r2 then r2
  else NaN.

(** The n written on both sides of a pair by [Copy.reconcilePair]. *)
Definition reconciledN (k1 k2 : num) : num :=
  if mismatch k1 k2 then num_min k1 k2
  else if isFinite k1 then k1
  else if isFinite k2 then k2
  else NaN.

(** The warnings about a mismatch of r for the pair (a, b). *)
Definition isRMismatch (a b : string) (f : finding) : bool :=
  match f with
  | RMismatchAveraged a' b' _ _ => String.eqb a a' && String.eqb b b'
  | _ => false
  end.

(** A list of pairs that does not mention the pair (a, b) in either order. *)
Definition untouched (a b : string) (l : list (string * string)) : Prop :=
  forall x y, In (x, y) l -> (x, y) <> (a, b) /\ (x, y) <> (b, a).

(** *** The working matrix of the inverse, on its own *)








(** The correlation read at [M[a][b].r] when the cell exists. *)
Definition corr (M : CellMatrix) (a b : string) : num :=
  match cell_at M a b with Some c => cell_r c | None => NaN end.

(** ** Editing the edges and loading a pasted matrix (PathModelBuilder2.tsx) *)

(** [addEdge]: the new edge list; a self-loop or an edge already present
    changes nothing. *)
Definition addEdge (edges : list Edge) (from to : string) : list Edge :=
  if String.eqb from to then edges
  else if existsb (fun e => String.eqb (e_from e) from && String.eqb (e_to e) to) edges
  then edges
  else edges ++ [mkEdge from to].

(** [removeEdgeAt]: [edges.filter((_, i) => i !== idx)] *)
Definition removeEdgeAt (edges : list Edge) (idx : nat) : list Edge :=
  map snd (List.filter (fun ie => negb (Nat.eqb (fst ie) idx))
                       (zip (seq 0 (length edges)) edges)).

(** The selection and the edges of the diagram. *)
Record DiagramState : Type :=
  mkDiagramState { connectFrom : option string; ds_edges : list Edge }.

(** [onNodeClick]; [null] and the empty string are falsy. *)
Definition onNodeClick (d : DiagramState) (v : string) : DiagramState :=
  if negb (Copy.truthy (connectFrom d)) then mkDiagramState (Some v) (ds_edges d)
  else if bool_decide (connectFrom d = Some v) then mkDiagramState None (ds_edges d)
  else mkDiagramState None (addEdge (ds_edges d) (default "" (connectFrom d)) v).

(** The position kept while a node is dragged:
    [Math.max(lo, Math.min(hi, x))]. *)
Definition clampCoord (lo hi x : num) : num := num_max lo (num_min hi x).

(** The "Load from text" button: the parsed matrix is stored only when its
    header repeats the current variables in order. *)
Definition loadFromText (scan : string -> option (num * option num))
    (vars : list string) (rows : list (list string)) : result CellMatrix :=
  parsed ← parseCombinedMatrixText scan rows;
  let pv := parsed.1 in
  let same :=
    Nat.eqb (length pv) (length vars)
    && forallb (fun iv => String.eqb iv.2 (nth iv.1 vars "")) (zip (seq 0 (length pv)) pv) in
  if negb same
  then Err (ParseError "Variable names in pasted matrix do not match current variables.")
  else Ok parsed.2.

(** ** Notions used to state the order and the multiplicity of results *)

(** A declared variable without a row in the matrix: the test of the first
    loop of [validateCellMatrix]. *)
Definition rowMissing (M : CellMatrix) (r : string) : bool :=
  match M !! r with None => true | Some _ => false end.

(** The list with every element kept at its first occurrence only. *)
Fixpoint keepFirst (l : list string) : list string :=
  match l with
  | [] => []
  | x :: l' => x :: List.filter (fun y => negb (String.eqb y x)) (keepFirst l')
  end.

(** The loop body of [Copy.uniqueVars] on the pair of the set [seen] and
    the array [out]. *)
Abbreviation uniqueStep :=
  (fun (acc : gset string * list string) (v : string) =>
     if bool_decide (v ∈ acc.1) then acc
     else ({[v]} ∪ acc.1, acc.2 ++ [v])).



(** * Properties *)

(** ** The pair loops visit every unordered pair once *)

Lemma map_nth_seq_id (l : list string) :
  map (fun j => nth j l "") (seq 0 (length l)) = l.
Proof.
  induction l as [|a l IH]; [reflexivity|].
  cbn [length seq map nth]. f_equal.
  rewrite <- List.seq_shift, List.map_map. exact IH.
Qed.

Lemma upper_index_pairs_S (len : nat) :
  upper_index_pairs (S len) =
  map (fun j => (0, j)) (seq 1 len)
  ++ map (fun ij => (S ij.1, S ij.2)) (upper_index_pairs len).
Proof.
  unfold upper_index_pairs.
  change (seq 0 (S len)) with (0 :: seq 1 len).
  change (flat_map ?f (0 :: ?l)) with (f 0 ++ flat_map f l).
  cbv beta. change (S len - 1) with (len - 0). rewrite Nat.sub_0_r. f_equal.
  rewrite <- List.seq_shift, List.flat_map_concat_map, List.map_map.
  rewrite List.flat_map_concat_map, List.concat_map, List.map_map.
  f_equal. apply List.map_ext. intros i.
  cbn [Nat.sub]. rewrite <- List.seq_shift, !List.map_map. reflexivity.
Qed.

Lemma upper_pairs_cons (a : string) (rest : list string) :
  upper_pairs (a :: rest) = map (fun b => (a, b)) rest ++ upper_pairs rest.
Proof.
  unfold upper_pairs. cbn [length]. rewrite upper_index_pairs_S.
  rewrite List.map_app, !List.map_map. f_equal.
  cbn [fst snd].
  rewrite <- List.seq_shift, List.map_map. cbn [nth].
  rewrite <- (map_nth_seq_id rest) at 2. rewrite List.map_map. reflexivity.
Qed.

Lemma upper_pairs_unordered (vars : list string) :
  upper_pairs vars = unordered_pairs vars.
Proof.
  induction vars as [|a rest IH]; [reflexivity|].
  rewrite upper_pairs_cons. cbn [unordered_pairs]. now rewrite IH.
Qed.

Lemma unordered_pairs_In (vars : list string) (a b : string) :
  In (a, b) (unordered_pairs vars) -> In a vars /\ In b vars.
Proof.
  induction vars as [|x rest IH]; cbn [unordered_pairs]; [intros []|].
  rewrite List.in_app_iff, List.in_map_iff. intros [(y & Hy & Hin)|Hin].
  - inversion Hy; subst. split; [now left | now right].
  - destruct (IH Hin). split; now right.
Qed.

(** ** Validation *)

Ltac case_ifs :=
  repeat match goal with
         | |- context [if ?b then _ else _] => destruct b
         end.

Lemma missingRows_nil (vars : list string) (M : CellMatrix) :
  missingRows vars M = [] <-> allRows vars M.
Proof.
  unfold missingRows, allRows. induction vars as [|v vars IH]; cbn [flat_map].
  - split; [intros _ r []|reflexivity].
  - destruct (M !! v) eqn:Hv; cbn [app].
    + rewrite IH. split.
      * intros H r [<-|Hr]; [rewrite Hv; eauto | auto].
      * intros H r Hr. apply H. now right.
    + split; [discriminate|]. intros H.
      destruct (H v (or_introl eq_refl)) as [x Hx]. congruence.
Qed.

Lemma missingRows_only (vars : list string) (M : CellMatrix) (f : finding) :
  In f (missingRows vars M) <-> exists r, f = MissingRow r /\ In r vars /\ M !! r = None.
Proof.
  unfold missingRows. rewrite List.in_flat_map. split.
  - intros (r & Hr & Hf). destruct (M !! r) eqn:E; [destruct Hf|].
    destruct Hf as [<-|[]]. eauto.
  - intros (r & -> & Hr & E). exists r. split; [assumption|]. rewrite E. now left.
Qed.

Lemma cell_get_at (M : CellMatrix) (a b : string) (c : option Cell) :
  cell_get M a b = Ok c -> cell_at M a b = c.
Proof.
  unfold cell_get, cell_at. destruct (M !! a); [|discriminate].
  intros H. inversion H. reflexivity.
Qed.

Lemma cell_get_r_at (M : CellMatrix) (a b : string) :
  cell_get_r M a b =
  match cell_at M a b with Some c => Ok (cell_r c) | None => Err TypeError end.
Proof.
  unfold cell_get_r, cell_get, cell_at.
  destruct (M !! a) as [row|]; [|reflexivity]. cbn. now destruct (row !! b).
Qed.

Lemma checkPair_ok (M : CellMatrix) (e w e' w' : list finding) (ab : string * string) :
  checkPair M (e, w) ab = Ok (e', w') ->
  e' = e ++ pairErrors M ab /\ w' = w ++ pairWarnings M ab.
Proof.
  destruct ab as [a b]. unfold checkPair, pairErrors, pairWarnings. cbn [fst snd].
  destruct (cell_get M a b) as [c1|] eqn:H1; [|discriminate].
  destruct (cell_get M b a) as [c2|] eqn:H2; [|discriminate].
  apply cell_get_at in H1, H2. cbn. rewrite cell_get_r_at, H1, H2.
  destruct c1 as [c1|]; [|discriminate]. cbn.
  intros H. inversion H; subst; clear H.
  split; case_ifs; cbn; rewrite <- ?List.app_assoc, ?List.app_nil_r; reflexivity.
Qed.

Lemma foldM_checkPair (M : CellMatrix) (pairs : list (string * string))
    (e w e' w' : list finding) :
  foldM (checkPair M) pairs (e, w) = Ok (e', w') ->
  e' = e ++ flat_map (pairErrors M) pairs /\ w' = w ++ flat_map (pairWarnings M) pairs.
Proof.
  revert e w. induction pairs as [|ab pairs IH]; intros e w; cbn [foldM flat_map].
  - intros H. inversion H. now rewrite !List.app_nil_r.
  - destruct (checkPair M (e, w) ab) as [[e1 w1]|] eqn:Hab; [|discriminate].
    cbn. intros H. apply IH in H. apply checkPair_ok in Hab.
    destruct H as [-> ->], Hab as [-> ->]. now rewrite <- !List.app_assoc.
Qed.

(** The pair loop gets through when every cell above the diagonal exists. *)
Lemma foldM_checkPair_total (M : CellMatrix) (pairs : list (string * string))
    (acc : list finding * list finding) :
  (forall a b, In (a, b) pairs ->
     is_Some (M !! a) /\ is_Some (M !! b) /\ is_Some (cell_at M a b)) ->
  exists acc', foldM (checkPair M) pairs acc = Ok acc'.
Proof.
  revert acc. induction pairs as [|[a b] pairs IH]; intros [e w] H; cbn [foldM].
  - eauto.
  - destruct (H a b (or_introl eq_refl)) as ([ra Ha] & [rb Hb] & [c Hc]).
    assert (Hstep : exists acc1, checkPair M (e, w) (a, b) = Ok acc1).
    { unfold checkPair. rewrite cell_get_r_at, Hc. unfold cell_get. rewrite Ha, Hb.
      cbn. eauto. }
    destruct Hstep as [acc1 ->]. cbn. apply IH. intros; apply H; now right.
Qed.

(** With every row present, what the validator returns is determined by
    the cell loop and the pair loop together. *)
Lemma validate_all_rows (vars : list string) (M : CellMatrix) (v : Validation) :
  allRows vars M ->
  validateCellMatrix vars M = Ok v ->
  v_errors v = cellFindings vars M ++ flat_map (pairErrors M) (unordered_pairs vars)
  /\ v_warnings v = flat_map (pairWarnings M) (unordered_pairs vars)
  /\ v_ok v = is_nil (v_errors v).
Proof.
  intros Hrows. unfold validateCellMatrix.
  apply missingRows_nil in Hrows. rewrite Hrows. cbn [is_nil negb app].
  destruct (foldM _ _ _) as [[e w]|] eqn:Hf; [|discriminate].
  apply foldM_checkPair in Hf. destruct Hf as [-> ->].
  cbn. intros H. inversion H; subst; clear H. cbn.
  rewrite upper_pairs_unordered. auto.
Qed.

Lemma validate_missing_row (vars : list string) (M : CellMatrix) :
  ~ allRows vars M ->
  validateCellMatrix vars M = Ok (mkValidation false (missingRows vars M) []).
Proof.
  intros Hrows. unfold validateCellMatrix.
  destruct (missingRows vars M) eqn:E; [|reflexivity].
  apply missingRows_nil in E. contradiction.
Qed.

Lemma cellFindings_In (vars : list string) (M : CellMatrix) (f : finding) :
  In f (cellFindings vars M) <->
  exists r c, In r vars /\ In c vars /\ In f (checkCell r c (cell_at M r c)).
Proof.
  unfold cellFindings. rewrite List.in_flat_map. split.
  - intros (r & Hr & H). apply List.in_flat_map in H. destruct H as (c & Hc & H). eauto.
  - intros (r & c & Hr & Hc & H). exists r. split; [assumption|].
    apply List.in_flat_map. eauto.
Qed.

Lemma checkCell_In (r c : string) (cell : option Cell) (f : finding) :
  In f (checkCell r c cell) <->
  match cell with
  | None => f = MissingCell r c
  | Some cell =>
      (isFinite (cell_r cell) = false /\ f = InvalidR r c)
      \/ (isFinite (cell_r cell) = true
          /\ ((cell_r cell <? num_neg n1)%num = true \/ (cell_r cell >? n1)%num = true)
          /\ f = ROutOfBounds r c (cell_r cell))
      \/ (isFinite (cell_r cell) = true /\ r = c
          /\ (num_abs (cell_r cell - n1) >? lit_1e_6)%num = true
          /\ f = DiagNotOne r c (cell_r cell))
      \/ (r <> c /\ isFinite (cell_n cell) = false /\ f = MissingN r c)
      \/ (r <> c /\ isFinite (cell_n cell) = true
          /\ (cell_n cell <=? n2)%num = true /\ f = NTooSmall r c (cell_n cell))
  end.
Proof.
  unfold checkCell. destruct cell as [cell|].
  2:{ cbn. split; [intros [H|[]]; now symmetry | intros ->; now left]. }
  rewrite List.in_app_iff.
  destruct (String.eqb_spec r c) as [Heq|Hne];
    destruct (isFinite (cell_r cell)) eqn:Hr; cbn [negb andb];
    rewrite ?List.in_app_iff.
  all: destruct (isFinite (cell_n cell)) eqn:Hn; cbn [negb].
  all: repeat match goal with
         | |- context [if ?b then _ else _] =>
             let E := fresh "E" in destruct b eqn:E
         end.
  all: rewrite ?orb_true_iff, ?orb_false_iff in *.
  all: cbn [In]; split; intros H;
    repeat match goal with
      | H : _ \/ _ |- _ => destruct H
      | H : _ /\ _ |- _ => destruct H
      | H : False |- _ => destruct H
      end; subst; try congruence; try tauto; auto 10.
Qed.

Lemma pairErrors_In (M : CellMatrix) (pairs : list (string * string)) (f : finding) :
  In f (flat_map (pairErrors M) pairs) <->
  exists a b c1 c2,
    In (a, b) pairs /\ f = RNotSymmetric a b
    /\ cell_at M a b = Some c1 /\ cell_at M b a = Some c2
    /\ isFinite (cell_r c1) = true /\ isFinite (cell_r c2) = true
    /\ (num_abs (cell_r c1 - cell_r c2) >? lit_1e_6)%num = true.
Proof.
  rewrite List.in_flat_map. unfold pairErrors. split.
  - intros ([a b] & Hin & H). cbn [fst snd] in H.
    destruct (cell_at M a b) as [c1|] eqn:H1; [|destruct H].
    destruct (cell_at M b a) as [c2|] eqn:H2;
      [|cbn in H; rewrite andb_false_r in H; destruct H].
    cbn in H.
    destruct (isFinite (cell_r c1)) eqn:F1; [|destruct H].
    destruct (isFinite (cell_r c2)) eqn:F2; [|destruct H].
    cbn [andb] in H.
    destruct (num_gt _ _) eqn:G; [|destruct H].
    destruct H as [<-|[]]. exists a, b, c1, c2. auto 10.
  - intros (a & b & c1 & c2 & Hin & -> & H1 & H2 & F1 & F2 & G).
    exists (a, b). split; [assumption|]. cbn [fst snd]. rewrite H1, H2. cbn.
    rewrite F1, F2. cbn [andb]. rewrite G. now left.
Qed.

Lemma expectedError_iff (vars : list string) (M : CellMatrix) (f : finding) :
  expectedError vars M f <->
  In f (cellFindings vars M ++ flat_map (pairErrors M) (unordered_pairs vars)).
Proof.
  rewrite List.in_app_iff, cellFindings_In, pairErrors_In. split.
  - intros H. destruct H.
    + left. exists r, c. rewrite checkCell_In, H1. auto.
    + left. exists r, c. rewrite checkCell_In, H1. auto.
    + left. exists r, c. rewrite checkCell_In, H1. auto 10.
    + left. exists r, r. rewrite checkCell_In, H0. auto 10.
    + left. exists r, c. rewrite checkCell_In, H2. auto 10.
    + left. exists r, c. rewrite checkCell_In, H2. auto 10.
    + right. exists a, b, c1, c2. auto 10.
  - intros [(r & c & Hr & Hc & H)|(a & b & c1 & c2 & Hin & -> & H)].
    + rewrite checkCell_In in H. destruct (cell_at M r c) as [cell|] eqn:E.
      * destruct H as [(? & ->)|[(? & ? & ->)|[(? & <- & ? & ->)|[(? & ? & ->)|(? & ? & ? & ->)]]]];
          eauto using expectedError.
      * subst. now constructor.
    + destruct H as (? & ? & ? & ? & ?). eauto using expectedError.
Qed.

(** Bounds check of a finite correlation: below -1 or above 1 is the same
    as a magnitude above 1. *)
Lemma out_of_bounds_abs (x : num) :
  isFinite x = true ->
  (x <? num_neg n1)%num || (x >? n1)%num = (num_abs x >? n1)%num.
Proof.
  destruct x as [| | |q]; try discriminate. intros _.
  unfold num_gt, num_lt, num_abs, num_neg, n1, Qltb.
  apply eq_true_iff_eq.
  rewrite orb_true_iff, !negb_true_iff, <- !not_true_iff_false, !Qle_bool_iff.
  pattern (Qabs q). apply Qabs_case; intros Hq; split; intros H.
  - intros H'. destruct H as [H|H]; apply H; lra.
  - right. exact H.
  - intros H'. destruct H as [H|H]; apply H; lra.
  - left. intros H'. apply H. lra.
Qed.

(** The validator returns whenever every variable has a row and every cell
    above the diagonal exists. *)
Lemma validate_returns (vars : list string) (M : CellMatrix) :
  allRows vars M ->
  (forall a b, In (a, b) (unordered_pairs vars) -> is_Some (cell_at M a b)) ->
  exists v, validateCellMatrix vars M = Ok v.
Proof.
  intros Hrows Hcells. unfold validateCellMatrix.
  apply missingRows_nil in Hrows as Hnil. rewrite Hnil. cbn [is_nil negb app].
  destruct (foldM_checkPair_total M (upper_pairs vars) (cellFindings vars M, []))
    as [acc Hacc].
  - rewrite upper_pairs_unordered. intros a b Hin.
    destruct (unordered_pairs_In _ _ _ Hin). auto.
  - rewrite Hacc. cbn. eauto.
Qed.

Lemma missingRows_filter (vars : list string) (M : CellMatrix) :
  missingRows vars M = map MissingRow (List.filter (rowMissing M) vars).
Proof.
  unfold missingRows, rowMissing. induction vars as [|r vars IH]; [reflexivity|].
  cbn [flat_map List.filter]. rewrite IH. destruct (M !! r); reflexivity.
Qed.

Lemma NoDup_filter_map_MissingRow (p : string -> bool) (vars : list string) :
  NoDup vars -> NoDup (map MissingRow (List.filter p vars)).
Proof.
  intros Hnd.
  assert (Hinj : Inj eq eq MissingRow) by (intros x y H; now inversion H).
  apply (NoDup_fmap_2 MissingRow).
  induction Hnd as [|x l Hx Hnd IH]; cbn [List.filter]; [constructor|].
  destruct (p x); [|exact IH]. constructor; [|exact IH].
  intros Hin. apply Hx. apply list_elem_of_In in Hin. apply List.filter_In in Hin.
  apply list_elem_of_In. tauto.
Qed.

(** C7 (corrected).  Whenever the validator returns: if every declared
    variable has a row, a finding is in the returned error list exactly
    when one of the checks calls for it (missing cells, non-finite r,
    out-of-bounds r, bad diagonal, missing or too-small n, asymmetric r),
    so none is dropped after an earlier one; if some variable has no row,
    the run ends after the row check for every row: ok is false, there is
    no warning, and the errors are one missing-row finding for each entry
    of the variable list that has no row, in the order of the list and
    nothing else.  For pairwise distinct variables that is exactly one
    finding per missing variable; a name listed twice is reported twice. *)
Theorem validate_accumulates_findings (vars : list string) (M : CellMatrix)
    (v : Validation) :
  validateCellMatrix vars M = Ok v ->
  (allRows vars M -> forall f, In f (v_errors v) <-> expectedError vars M f)
  /\ (~ allRows vars M ->
      v_ok v = false /\ v_warnings v = []
      /\ v_errors v = map MissingRow (List.filter (rowMissing M) vars)
      /\ (NoDup vars -> NoDup (v_errors v))).
Proof.
  intros Hv. split.
  - intros Hrows f. destruct (validate_all_rows _ _ _ Hrows Hv) as (-> & _ & _).
    symmetry. apply expectedError_iff.
  - intros Hrows. rewrite (validate_missing_row _ _ Hrows) in Hv.
    inversion Hv; subst; clear Hv. cbn [v_ok v_warnings v_errors].
    rewrite missingRows_filter.
    split; [reflexivity|]. split; [reflexivity|]. split; [reflexivity|].
    apply NoDup_filter_map_MissingRow.
Qed.

(** Row [b] is missing: the only finding is that row. *)
Lemma validate_accumulates_findings_witness :
  let M := missingRowMatrix in
  let v := mkValidation false [MissingRow "b"] [] in
  (allRows ["a"; "b"] M -> forall f, In f (v_errors v) <-> expectedError ["a"; "b"] M f)
  /\ (~ allRows ["a"; "b"] M ->
      v_ok v = false /\ v_warnings v = []
      /\ v_errors v = map MissingRow (List.filter (rowMissing M) ["a"; "b"])
      /\ (NoDup ["a"; "b"] -> NoDup (v_errors v))).
Proof.
  intros M v.
  apply (validate_accumulates_findings ["a"; "b"] M v).
  vm_compute; reflexivity.
Defined.

(** C7, the claim as stated fails: with row [b] missing, the cell (a, b)
    holds r = 5 (out of bounds) and n = 1 (too small), yet the returned
    errors are the missing row alone. *)
Lemma validate_stops_after_missing_row :
  cell_at missingRowMatrix "a" "b" = Some (cellQ 5 1)
  /\ (Fin 5 >? n1)%num = true
  /\ exists v, validateCellMatrix ["a"; "b"] missingRowMatrix = Ok v
               /\ v_errors v = [MissingRow "b"]
               /\ ~ In (ROutOfBounds "a" "b" (Fin 5)) (v_errors v).
Proof.
  split; [vm_compute; reflexivity|]. split; [vm_compute; reflexivity|].
  exists (mkValidation false [MissingRow "b"] []).
  split; [vm_compute; reflexivity|]. split; [reflexivity|].
  cbn. intros [H|[]]. discriminate H.
Qed.

(** A row that exists but lacks a cell above the diagonal makes the pair
    loop read a property of [undefined]. *)
Example validate_missing_upper_cell :
  validateCellMatrix ["a"; "b"]
    (<["a" := {["a" := forcedDiag]}]> (<["b" := <["a" := cellQ (1 # 2) 100]> {["b" := forcedDiag]}]> ∅))
  = Err TypeError.
Proof. vm_compute; reflexivity. Qed.

Lemma pairWarnings_VeryHighR (M : CellMatrix) (pairs : list (string * string))
    (a b : string) :
  In (VeryHighR a b) (flat_map (pairWarnings M) pairs) <->
  In (a, b) pairs
  /\ isFinite (numOpt (cell_r <$> cell_at M a b))
     && (num_abs (numOpt (cell_r <$> cell_at M a b)) >=? lit_0_999999)%num = true.
Proof.
  rewrite List.in_flat_map. unfold pairWarnings. split.
  - intros ([x y] & Hin & H). cbn [fst snd] in H.
    apply List.in_app_iff in H. destruct H as [H|H].
    + destruct (_ && _ && _); [|destruct H]. destruct H as [H|[]]. discriminate H.
    + destruct (isFinite _ && _) eqn:E; [|destruct H].
      destruct H as [H|[]]. inversion H; subst. auto.
  - intros [Hin H]. exists (a, b). split; [exact Hin|]. cbn [fst snd].
    apply List.in_app_iff. right. rewrite H. now left.
Qed.

(** C2 (corrected).  Whenever the validator returns, on a matrix where
    every declared variable has a row, for a cell (r, c) of declared
    variables that holds a finite correlation: an out-of-bounds error for
    that cell is reported exactly when the correlation is below -1 or above
    1, that is when its magnitude exceeds 1, and then ok is false.  The
    accepted range is the closed interval: a correlation of exactly 1 or -1
    is never reported as out of bounds.  When the cell is the first side of
    its pair (row variable listed before the column variable), the
    near-unity warning for the pair is given exactly when the magnitude is
    at least 0.999999, so it is given for 1 and -1; that warning is never
    among the errors. *)
Theorem validate_bounds_closed_interval (vars : list string) (M : CellMatrix)
    (v : Validation) (r c : string) (cell : Cell) :
  validateCellMatrix vars M = Ok v ->
  allRows vars M ->
  In r vars -> In c vars ->
  cell_at M r c = Some cell ->
  isFinite (cell_r cell) = true ->
  (forall x, In (ROutOfBounds r c x) (v_errors v)
             <-> x = cell_r cell /\ (num_abs (cell_r cell) >? n1)%num = true)
  /\ ((num_abs (cell_r cell) >? n1)%num = true -> v_ok v = false)
  /\ (In (r, c) (unordered_pairs vars) ->
      (In (VeryHighR r c) (v_warnings v)
       <-> (num_abs (cell_r cell) >=? lit_0_999999)%num = true))
  /\ (forall a b, ~ In (VeryHighR a b) (v_errors v))
  /\ (cell_r cell = n1 \/ cell_r cell = num_neg n1 ->
      (forall x, ~ In (ROutOfBounds r c x) (v_errors v))
      /\ (In (r, c) (unordered_pairs vars) -> In (VeryHighR r c) (v_warnings v)))
  /\ (cell_r cell <? num_neg n1)%num || (cell_r cell >? n1)%num
     = (num_abs (cell_r cell) >? n1)%num.
Proof.
  intros Hv Hrows Hr Hc Hcell Hfin.
  destruct (validate_all_rows _ _ _ Hrows Hv) as (He & Hw & Hok).
  assert (Hall : forall f, In f (v_errors v) <-> expectedError vars M f).
  { intros f. rewrite He. symmetry. apply expectedError_iff. }
  assert (Hiff : forall x, In (ROutOfBounds r c x) (v_errors v)
                 <-> x = cell_r cell /\ (num_abs (cell_r cell) >? n1)%num = true).
  { intros x. rewrite Hall, <- out_of_bounds_abs, orb_true_iff by assumption. split.
    - intros H. inversion H; subst. split; congruence.
    - intros [-> H]. now apply exp_out_of_bounds. }
  assert (Hwarn : In (r, c) (unordered_pairs vars) ->
            (In (VeryHighR r c) (v_warnings v)
             <-> (num_abs (cell_r cell) >=? lit_0_999999)%num = true)).
  { intros Hin. rewrite Hw, pairWarnings_VeryHighR, Hcell.
    change (numOpt (cell_r <$> Some cell)) with (cell_r cell).
    rewrite Hfin. cbn [andb]. tauto. }
  split; [exact Hiff|]. split; [|split; [exact Hwarn|split; [|split]]].
  - intros H. assert (Hin : In (ROutOfBounds r c (cell_r cell)) (v_errors v))
      by (apply Hiff; auto).
    rewrite Hok. destruct (v_errors v); [destruct Hin | reflexivity].
  - intros a b H. apply Hall in H. inversion H.
  - intros Hone. split.
    + intros x H. apply Hiff in H. destruct H as [_ H].
      destruct Hone as [E|E]; rewrite E in H; vm_compute in H; discriminate.
    + intros Hin. apply Hwarn; [exact Hin|].
      destruct Hone as [E|E]; rewrite E; vm_compute; reflexivity.
  - now apply out_of_bounds_abs.
Qed.

(** Two variables whose off-diagonal cells hold r = 1. *)
Lemma validate_bounds_closed_interval_witness :
  let vars := ["a"; "b"] in
  let M := twoVarMatrix 1 1 in
  let v := mkValidation true [] [VeryHighR "a" "b"] in
  let cell := cellQ 1 100 in
  (forall x, In (ROutOfBounds "a" "b" x) (v_errors v)
             <-> x = cell_r cell /\ (num_abs (cell_r cell) >? n1)%num = true)
  /\ ((num_abs (cell_r cell) >? n1)%num = true -> v_ok v = false)
  /\ (In ("a", "b") (unordered_pairs vars) ->
      (In (VeryHighR "a" "b") (v_warnings v)
       <-> (num_abs (cell_r cell) >=? lit_0_999999)%num = true))
  /\ (forall a b, ~ In (VeryHighR a b) (v_errors v))
  /\ (cell_r cell = n1 \/ cell_r cell = num_neg n1 ->
      (forall x, ~ In (ROutOfBounds "a" "b" x) (v_errors v))
      /\ (In ("a", "b") (unordered_pairs vars) -> In (VeryHighR "a" "b") (v_warnings v)))
  /\ (cell_r cell <? num_neg n1)%num || (cell_r cell >? n1)%num
     = (num_abs (cell_r cell) >? n1)%num.
Proof.
  intros vars M v cell.
  apply (validate_bounds_closed_interval vars M v "a" "b" cell).
  - vm_compute; reflexivity.
  - intros x [<-|[<-|[]]]; vm_compute; eauto.
  - now left.
  - right; now left.
  - vm_compute; reflexivity.
  - reflexivity.
Defined.

(** C2, the claim as stated fails: two variables whose off-diagonal cells
    hold r exactly 1 pass validation with ok = true and no error; only the
    advisory warning is given. *)
Lemma validate_accepts_unit_correlation :
  cell_at (twoVarMatrix 1 1) "a" "b" = Some (cellQ 1 100)
  /\ validateCellMatrix ["a"; "b"] (twoVarMatrix 1 1)
     = Ok (mkValidation true [] [VeryHighR "a" "b"]).
Proof. split; vm_compute; reflexivity. Qed.

(** ** Degrees of freedom *)

Lemma isEndogenous_spec (edges : list Edge) (v : string) :
  isEndogenous edges v = true <-> exists e, In e edges /\ e_to e = v.
Proof.
  unfold isEndogenous, endogenousSet.
  rewrite bool_decide_eq_true, elem_of_list_to_set, list_elem_of_In, List.in_map_iff.
  split; intros (e & H1 & H2); eauto.
Qed.

(** The variables counted as endogenous are the distinct edge targets when
    the variables are pairwise distinct and every target is a variable. *)
Lemma endoCount_distinct_targets (vars : list string) (edges : list Edge) :
  NoDup vars ->
  (forall e, In e edges -> In (e_to e) vars) ->
  length (filter (fun v => isEndogenous edges v = true) vars)
  = size (endogenousSet edges).
Proof.
  intros Hnd Hin.
  rewrite <- (size_list_to_set (C := gset string)
                (filter (fun v => isEndogenous edges v = true) vars))
    by now apply NoDup_filter.
  f_equal. apply set_eq. intros x.
  rewrite elem_of_list_to_set, list_elem_of_filter, isEndogenous_spec.
  unfold endogenousSet.
  rewrite elem_of_list_to_set, !list_elem_of_In, List.in_map_iff. split.
  - intros [(e & He & <-) _]. eauto.
  - intros (e & <- & He). split; eauto.
Qed.

Lemma half_of_consecutive_product (p : Z) :
  (2 * ((p * (p + 1)) / 2) = p * (p + 1))%Z.
Proof.
  assert (H : ((p * (p + 1)) mod 2 = 0)%Z).
  { rewrite Z.mul_mod by lia.
    destruct (Z.mod_pos_bound p 2) as [? ?]; [lia|].
    assert (Hp : (p mod 2 = 0 \/ p mod 2 = 1)%Z) by lia.
    destruct Hp as [Hp|Hp]; rewrite Hp.
    - now rewrite Z.mul_0_l.
    - rewrite Z.add_mod, Hp by lia. reflexivity. }
  pose proof (Z.div_mod (p * (p + 1)) 2 ltac:(lia)). lia.
Qed.

(** C5.  For a list of [p] pairwise distinct variables and edges whose
    targets are variables of the list, [countDF] returns
    observedMoments = p(p+1)/2 (an exact half), freeParams = |E| + the
    number of distinct variables that are the target of some edge,
    df = max(0, observedMoments - freeParams) and df0 = p(p-1)/2 (an exact
    half). *)
Theorem countDF_accounting (vars : list string) (edges : list Edge) :
  NoDup vars ->
  (forall e, In e edges -> In (e_to e) vars) ->
  let p := Z.of_nat (length vars) in
  let d := countDF vars edges in
  (df_observedMoments d = (p * (p + 1)) / 2 /\ 2 * df_observedMoments d = p * (p + 1))%Z
  /\ df_endoCount d = Z.of_nat (size (endogenousSet edges))
  /\ (df_freeParams d
      = Z.of_nat (length edges) + Z.of_nat (size (endogenousSet edges)))%Z
  /\ df_df d = Z.max 0 (df_observedMoments d - df_freeParams d)
  /\ (df_df0 d = (p * (p - 1)) / 2 /\ 2 * df_df0 d = p * (p - 1))%Z.
Proof.
  intros Hnd Hin p d. subst d. unfold countDF. cbn [df_observedMoments df_endoCount
    df_freeParams df_df df_df0]. fold p.
  rewrite (endoCount_distinct_targets vars edges Hnd Hin).
  repeat split.
  - apply half_of_consecutive_product.
  - replace (p * (p - 1))%Z with ((p - 1) * ((p - 1) + 1))%Z by lia.
    apply half_of_consecutive_product.
Qed.

Lemma countDF_accounting_witness :
  let vars := ["loyalty"; "satisfaction"; "value"; "quality"] in
  let edges := [mkEdge "value" "satisfaction"; mkEdge "quality" "satisfaction";
                mkEdge "satisfaction" "loyalty"; mkEdge "value" "loyalty";
                mkEdge "quality" "loyalty"] in
  countDF vars edges = mkDF 3 6 10 7 2
  /\ ((df_observedMoments (countDF vars edges) = (4 * (4 + 1)) / 2
       /\ 2 * df_observedMoments (countDF vars edges) = 4 * (4 + 1))%Z
      /\ df_endoCount (countDF vars edges) = Z.of_nat (size (endogenousSet edges))
      /\ (df_freeParams (countDF vars edges)
          = Z.of_nat (length edges) + Z.of_nat (size (endogenousSet edges)))%Z
      /\ df_df (countDF vars edges)
         = Z.max 0 (df_observedMoments (countDF vars edges)
                    - df_freeParams (countDF vars edges))
      /\ (df_df0 (countDF vars edges) = (4 * (4 - 1)) / 2
          /\ 2 * df_df0 (countDF vars edges) = 4 * (4 - 1))%Z).
Proof.
  intros vars edges. split; [vm_compute; reflexivity|].
  apply (countDF_accounting vars edges).
  - apply (bool_decide_unpack (NoDup vars)). vm_compute. exact I.
  - intros e He. subst vars edges. cbn in He.
    repeat (destruct He as [<-|He]; [cbn; tauto|]). destruct He.
Defined.

(** ** Total N *)

Lemma num_le_trans (x y z : num) :
  (x <=? y)%num = true -> (y <=? z)%num = true -> (x <=? z)%num = true.
Proof.
  destruct x, y, z; unfold num_le; try discriminate; try reflexivity.
  rewrite !Qle_bool_iff. apply Qle_trans.
Qed.

Lemma num_le_total (x y : num) :
  x <> NaN -> y <> NaN -> (x <=? y)%num = false -> (y <=? x)%num = true.
Proof.
  destruct x, y; unfold num_le; try congruence; intros _ _.
  rewrite <- not_true_iff_false, !Qle_bool_iff. intros H.
  destruct (Qlt_le_dec q0 q) as [Hlt|Hle]; [now apply Qlt_le_weak | contradiction].
Qed.

Lemma num_le_refl (x : num) : x <> NaN -> (x <=? x)%num = true.
Proof.
  destruct x; unfold num_le; try congruence; intros _.
  apply Qle_bool_iff, Qle_refl.
Qed.

Lemma num_min_cases (x y : num) :
  x <> NaN -> y <> NaN ->
  (num_min x y = x \/ num_min x y = y)
  /\ (num_min x y <=? x)%num = true /\ (num_min x y <=? y)%num = true.
Proof.
  intros Hx Hy. unfold num_min.
  destruct x, y; try congruence.
  all: match goal with
       | |- context [if ?b then _ else _] => destruct b eqn:E
       end.
  all: repeat split; auto using num_le_refl, num_le_total.
Qed.

(** The minimum of a list of numbers without NaN, seen from a start value:
    it is the start value or an element, and it is below both. *)
Lemma fold_min_spec (xs : list num) (acc : num) :
  acc <> NaN -> Forall (fun x => isFinite x = true) xs ->
  let m := fold_left num_min xs acc in
  m <> NaN /\ (m = acc \/ In m xs)
  /\ (m <=? acc)%num = true /\ (forall x, In x xs -> (m <=? x)%num = true).
Proof.
  revert acc. induction xs as [|x xs IH]; intros acc Hacc Hfin; cbn [fold_left].
  - split; [exact Hacc|]. split; [now left|]. split; [now apply num_le_refl|].
    intros x [].
  - inversion Hfin as [|? ? Hx Hxs]; subst.
    assert (Hx' : x <> NaN) by (intros ->; discriminate).
    destruct (num_min_cases acc x Hacc Hx') as (Hcase & Hle1 & Hle2).
    assert (Hm : num_min acc x <> NaN) by (destruct Hcase as [-> | ->]; assumption).
    destruct (IH (num_min acc x) Hm Hxs) as (Hn & Hin & Hle & Hall).
    split; [|split; [|split]].
    + exact Hn.
    + destruct Hin as [Heq|Hin]; [|right; now right].
      rewrite Heq. destruct Hcase as [-> | ->]; [now left | right; now left].
    + eapply num_le_trans; eassumption.
    + intros y [<-|Hy]; [eapply num_le_trans; eassumption | auto].
Qed.

Lemma symN_pairN (M : CellMatrix) (a b : string) :
  (if isFinite (symN M a b) then Some (symN M a b) else None) = pairN M (a, b).
Proof.
  unfold symN, pairN, finiteN. cbn [fst snd].
  destruct (cell_at M a b) as [[ra ka]|], (cell_at M b a) as [[rb kb]|]; cbn.
  all: try destruct ka; try destruct kb; cbn; try reflexivity.
  unfold num_min. destruct (num_le _ _); reflexivity.
Qed.

Lemma collect_push {A : Type} (f : A -> num) (l : list A) (acc : list num) :
  foldl (fun ns x => let k := f x in if isFinite k then ns ++ [k] else ns) acc l
  = acc ++ omap (fun x => if isFinite (f x) then Some (f x) else None) l.
Proof.
  revert acc. induction l as [|x l IH]; intros acc; cbn.
  - now rewrite List.app_nil_r.
  - rewrite IH. destruct (isFinite (f x)); [|reflexivity].
    now rewrite <- List.app_assoc.
Qed.

Lemma collectN_pairN (vars : list string) (M : CellMatrix) :
  collectN vars M = omap (pairN M) (unordered_pairs vars).
Proof.
  unfold collectN.
  rewrite (collect_push (fun ab => symN M ab.1 ab.2)), upper_pairs_unordered.
  cbn [app]. induction (unordered_pairs vars) as [|[a b] l IH]; [reflexivity|].
  cbn [omap list_omap fst snd]. rewrite symN_pairN, <- IH. reflexivity.
Qed.

Lemma pairN_finite (M : CellMatrix) (ab : string * string) (x : num) :
  pairN M ab = Some x -> isFinite x = true.
Proof.
  destruct ab as [a b]. rewrite <- symN_pairN.
  destruct (isFinite (symN M a b)) eqn:E; [|discriminate].
  intros H. inversion H; subst. exact E.
Qed.

Lemma collected_finite (M : CellMatrix) (pairs : list (string * string)) :
  Forall (fun x => isFinite x = true) (omap (pairN M) pairs).
Proof.
  induction pairs as [|ab l IH]; cbn; [constructor|].
  destruct (pairN M ab) eqn:E; [|assumption].
  constructor; [eapply pairN_finite; eassumption | assumption].
Qed.

Lemma foldl_sum_reciprocals (ns : list num) (acc : num) :
  foldl (fun denom k => (denom + n1 / k)%num) acc ns
  = foldl num_add acc (map (fun k => (n1 / k)%num) ns).
Proof.
  revert acc. induction ns as [|k ns IH]; intros acc; cbn; [reflexivity|apply IH].
Qed.

(** C6.  [computeTotalN] collects one n per unordered pair of variables:
    the smaller side when both sides are finite, the finite side when one
    is, nothing when neither is.  It returns NaN when nothing is collected;
    otherwise with method "min" it returns the minimum of the collected
    values (a collected value below all of them), and with method
    "harmonic" the count divided by the sum of the reciprocals. *)
Theorem computeTotalN_spec (vars : list string) (M : CellMatrix) :
  let ns := omap (pairN M) (unordered_pairs vars) in
  collectN vars M = ns
  /\ (ns = [] -> forall method, computeTotalN vars M method = NaN)
  /\ (ns <> [] ->
      computeTotalN vars M minimum = num_min_list ns
      /\ In (computeTotalN vars M minimum) ns
      /\ (forall x, In x ns -> (computeTotalN vars M minimum <=? x)%num = true)
      /\ computeTotalN vars M harmonic
         = (num_of_nat (length ns) / sumReciprocals ns)%num).
Proof.
  intros ns. pose proof (collectN_pairN vars M) as Hc. fold ns in Hc.
  split; [exact Hc|]. unfold computeTotalN. rewrite Hc. split.
  - intros -> method. reflexivity.
  - intros Hne. destruct ns as [|x xs] eqn:Ens; [congruence|].
    cbn [length Nat.eqb]. rewrite <- Ens.
    assert (Hfin : Forall (fun x => isFinite x = true) ns)
      by apply collected_finite.
    destruct (fold_min_spec ns PInf ltac:(discriminate) Hfin)
      as (Hn & Hin & _ & Hall).
    fold (num_min_list ns) in Hn, Hin, Hall.
    repeat split.
    + destruct Hin as [Heq|Hin]; [|exact Hin].
      exfalso. specialize (Hall x). rewrite Heq, Ens in Hall.
      specialize (Hall (or_introl eq_refl)).
      rewrite Ens in Hfin. inversion Hfin as [|? ? Hx _]; subst.
      destruct x; discriminate.
    + exact Hall.
    + unfold sumReciprocals. now rewrite foldl_sum_reciprocals.
Qed.

Lemma computeTotalN_spec_witness :
  collectN ["a"; "b"] (twoVarMatrix 1 1) = [num_of_Z 100]
  /\ ([num_of_Z 100] = [] ->
      forall method, computeTotalN ["a"; "b"] (twoVarMatrix 1 1) method = NaN)
  /\ ([num_of_Z 100] <> [] ->
      computeTotalN ["a"; "b"] (twoVarMatrix 1 1) minimum = num_min_list [num_of_Z 100]
      /\ In (computeTotalN ["a"; "b"] (twoVarMatrix 1 1) minimum) [num_of_Z 100]
      /\ (forall x, In x [num_of_Z 100] ->
            (computeTotalN ["a"; "b"] (twoVarMatrix 1 1) minimum <=? x)%num = true)
      /\ computeTotalN ["a"; "b"] (twoVarMatrix 1 1) harmonic
         = (num_of_nat (length [num_of_Z 100]) / sumReciprocals [num_of_Z 100])%num).
Proof.
  change [num_of_Z 100]
    with (omap (pairN (twoVarMatrix 1 1)) (unordered_pairs ["a"; "b"])).
  apply (computeTotalN_spec ["a"; "b"] (twoVarMatrix 1 1)).
Defined.

(** ** The forced diagonal *)

Lemma cell_at_put_cell (M : CellMatrix) (a b x y : string) (c : Cell) :
  cell_at (put_cell M a b c) x y
  = if decide (a = x /\ b = y) then Some c else cell_at M x y.
Proof.
  unfold cell_at, put_cell.
  destruct (decide (a = x)) as [->|Hax].
  - rewrite lookup_insert_eq. cbn.
    destruct (decide (b = y)) as [->|Hby].
    + rewrite lookup_insert_eq. rewrite decide_True by auto. reflexivity.
    + rewrite lookup_insert_ne by assumption. rewrite decide_False by tauto.
      destruct (M !! x); reflexivity.
  - rewrite lookup_insert_ne by assumption. rewrite decide_False by tauto. reflexivity.
Qed.

Lemma cell_set_put (M M' : CellMatrix) (a b : string) (c : Cell) :
  cell_set M a b c = Ok M' -> M' = put_cell M a b c.
Proof.
  unfold cell_set, put_cell. destruct (M !! a); [|discriminate].
  intros H. inversion H. reflexivity.
Qed.

Lemma cell_set_rows (M M' : CellMatrix) (a b x : string) (c : Cell) :
  cell_set M a b c = Ok M' -> is_Some (M !! x) -> is_Some (M' !! x).
Proof.
  intros H Hx. apply cell_set_put in H. subst M'. unfold put_cell.
  destruct (decide (a = x)) as [->|Hne].
  - rewrite lookup_insert_eq. eauto.
  - now rewrite lookup_insert_ne.
Qed.

Lemma cell_set_returns (M : CellMatrix) (a b : string) (c : Cell) :
  is_Some (M !! a) -> exists M', cell_set M a b c = Ok M'.
Proof. intros [row Hrow]. unfold cell_set. rewrite Hrow. eauto. Qed.

Lemma forceDiagonal_spec (vars : list string) (M M' : CellMatrix) :
  forceDiagonal vars M = Ok M' ->
  (forall v, In v vars -> cell_at M' v v = Some forcedDiag)
  /\ (forall a b, a <> b \/ ~ In a vars -> cell_at M' a b = cell_at M a b)
  /\ (forall x, is_Some (M !! x) -> is_Some (M' !! x)).
Proof.
  unfold forceDiagonal. revert M. induction vars as [|v vars IH]; intros M; cbn [foldM].
  - intros H. inversion H; subst. repeat split; auto. intros v [].
  - destruct (cell_set M v v forcedDiag) as [M1|] eqn:H1; [|discriminate]. cbn.
    intros H. destruct (IH _ H) as (Hd & Ho & Hr).
    pose proof (fun x => cell_set_rows M M1 v v x forcedDiag H1) as Hrows.
    apply cell_set_put in H1. subst M1. split; [|split].
    + intros x [<-|Hx]; [|auto].
      destruct (List.in_dec String.string_dec v vars) as [Hin|Hnin]; [auto|].
      rewrite Ho by auto. rewrite cell_at_put_cell, decide_True by auto. reflexivity.
    + intros a b Hab. rewrite Ho.
      * rewrite cell_at_put_cell, decide_False; [reflexivity|].
        intros [-> ->]. destruct Hab as [Hab|Hab]; [congruence|]. apply Hab. now left.
      * destruct Hab as [Hab|Hab]; [now left|]. right. intros Hin. apply Hab. now right.
    + intros x Hx. apply Hr. apply Hrows. exact Hx.
Qed.

Lemma forceDiagonal_returns (vars : list string) (M : CellMatrix) :
  allRows vars M -> exists M', forceDiagonal vars M = Ok M'.
Proof.
  unfold forceDiagonal, allRows. revert M.
  induction vars as [|v vars IH]; intros M Hrows; cbn [foldM]; [eauto|].
  destruct (cell_set_returns M v v forcedDiag) as [M1 H1]; [apply Hrows; now left|].
  rewrite H1. cbn. apply IH. intros r Hr.
  eapply cell_set_rows; [eassumption|]. apply Hrows. now right.
Qed.

Lemma foldl_put_diag (vars : list string) (M : CellMatrix) :
  forall v, In v vars ->
    cell_at (foldl (fun next v => put_cell next v v forcedDiag) M vars) v v
    = Some forcedDiag.
Proof.
  revert M. induction vars as [|x vars IH]; intros M v Hin; [destruct Hin|].
  cbn [foldl].
  destruct (List.in_dec String.string_dec v vars) as [Hv|Hv]; [now apply IH|].
  destruct Hin as [->|Hin]; [|contradiction].
  clear IH. revert M. induction vars as [|y vars IH]; intros M; cbn [foldl].
  - rewrite cell_at_put_cell, decide_True by auto. reflexivity.
  - assert (Hne : y <> v) by (intros ->; apply Hv; now left).
    assert (Hv' : ~ In v vars) by (intros H; apply Hv; now right).
    specialize (IH Hv').
    assert (Hswap : put_cell (put_cell M v v forcedDiag) y y forcedDiag
                    = put_cell (put_cell M y y forcedDiag) v v forcedDiag).
    { unfold put_cell. rewrite !lookup_insert_ne by congruence.
      apply insert_insert_ne. congruence. }
    rewrite Hswap. apply IH.
Qed.

Lemma makeEmptyRow_lookup (vars : list string) (r c : string) :
  In c vars ->
  makeEmptyRow vars r !! c = Some (if String.eqb r c then forcedDiag else emptyCell).
Proof.
  unfold makeEmptyRow. generalize (∅ : gmap string Cell).
  induction vars as [|x vars IH]; intros row Hin; [destruct Hin|]. cbn [foldl].
  destruct (List.in_dec String.string_dec c vars) as [Hc|Hc]; [now apply IH|].
  destruct Hin as [->|Hin]; [|contradiction].
  clear IH.
  assert (H : forall row0 : gmap string Cell,
             row0 !! c = Some (if String.eqb r c then forcedDiag else emptyCell) ->
             foldl (fun row c0 =>
                      <[c0 := if String.eqb r c0 then forcedDiag else emptyCell]> row)
                   row0 vars !! c
             = Some (if String.eqb r c then forcedDiag else emptyCell)).
  { induction vars as [|y vars IH]; intros row0 H0; cbn [foldl]; [exact H0|].
    apply IH; [intros H; apply Hc; now right|].
    rewrite lookup_insert_ne; [exact H0|]. intros ->. apply Hc. now left. }
  apply H. apply lookup_insert_eq.
Qed.

Lemma makeEmptyCellMatrix_row (vars all : list string) (M0 : CellMatrix) (r : string) :
  In r vars ->
  foldl (fun M r => <[r := makeEmptyRow all r]> M) M0 vars !! r
  = Some (makeEmptyRow all r).
Proof.
  revert M0. induction vars as [|x vars IH]; intros M0 Hin; [destruct Hin|]. cbn [foldl].
  destruct (List.in_dec String.string_dec r vars) as [Hr|Hr]; [now apply IH|].
  destruct Hin as [->|Hin]; [|contradiction]. clear IH.
  assert (H : forall M1 : CellMatrix,
             M1 !! r = Some (makeEmptyRow all r) ->
             foldl (fun M r0 => <[r0 := makeEmptyRow all r0]> M) M1 vars !! r
             = Some (makeEmptyRow all r)).
  { induction vars as [|y vars IH]; intros M1 H1; cbn [foldl]; [exact H1|].
    apply IH; [intros H; apply Hr; now right|].
    rewrite lookup_insert_ne; [exact H1|]. intros ->. apply Hr. now left. }
  apply H. apply lookup_insert_eq.
Qed.

Lemma makeEmptyCellMatrix_cell (vars : list string) (r c : string) :
  In r vars -> In c vars ->
  cell_at (makeEmptyCellMatrix vars) r c
  = Some (if String.eqb r c then forcedDiag else emptyCell).
Proof.
  intros Hr Hc. unfold cell_at, makeEmptyCellMatrix.
  rewrite (makeEmptyCellMatrix_row vars vars ∅ r Hr). cbn.
  now apply makeEmptyRow_lookup.
Qed.

Lemma bind_Ok {A B : Type} (c : result A) (f : A -> result B) (b : B) :
  c ≫= f = Ok b -> exists a, c = Ok a /\ f a = Ok b.
Proof. destruct c as [a|e]; cbn; [eauto | discriminate]. Qed.

Lemma foldM_returns {A St : Type} (P : St -> Prop) (f : St -> A -> result St)
    (l : list A) (s : St) :
  P s ->
  (forall s x, In x l -> P s -> exists s', f s x = Ok s' /\ P s') ->
  exists s', foldM f l s = Ok s' /\ P s'.
Proof.
  revert s. induction l as [|x l IH]; intros s Hs Hf; cbn [foldM]; [eauto|].
  destruct (Hf s x (or_introl eq_refl) Hs) as (s1 & -> & Hs1). cbn.
  apply IH; [assumption|]. intros s2 y Hy. apply Hf. now right.
Qed.

Lemma carryOver_diag (oldVars : list string) (oldM : CellMatrix)
    (newVars : list string) (newM M' : CellMatrix) :
  carryOverCellMatrix oldVars oldM newVars newM = Ok M' -> diagForced newVars M'.
Proof.
  unfold carryOverCellMatrix. intros H. apply bind_Ok in H.
  destruct H as (M1 & _ & H). intros v Hv. now apply (forceDiagonal_spec _ _ _ H).
Qed.

Lemma carryOver_returns (oldVars : list string) (oldM : CellMatrix)
    (newVars : list string) (newM : CellMatrix) :
  allRows newVars newM ->
  exists M', carryOverCellMatrix oldVars oldM newVars newM = Ok M'.
Proof.
  intros Hrows. unfold carryOverCellMatrix.
  match goal with
  | |- exists M', foldM ?f newVars newM ≫= _ = Ok M' =>
      destruct (foldM_returns (allRows newVars) f newVars newM Hrows) as (M1 & -> & H1)
  end.
  - intros M r Hr HM. destruct (inb r oldVars); cbn [negb]; [|eauto].
    apply (foldM_returns (allRows newVars)); [assumption|].
    intros M2 c Hc HM2. destruct (inb c oldVars); cbn [negb]; [|eauto].
    destruct (cell_at oldM r c); [|eauto].
    destruct (cell_set_returns M2 r c (mkCell (cell_r c0) (cell_n c0))) as [M3 H3];
      [now apply HM2|].
    exists M3. split; [assumption|]. intros x Hx.
    eapply cell_set_rows; [eassumption | now apply HM2].
  - cbn. now apply forceDiagonal_returns.
Qed.

Lemma buildPreset_diag (sample : SampleType) :
  exists M, buildPresetBaseMatrix sample = Ok M
            /\ diagForced BASE_VARS M /\ allRows BASE_VARS M.
Proof.
  destruct (buildPresetBaseMatrix sample) as [M|e] eqn:E.
  - exists M. split; [reflexivity|]. unfold buildPresetBaseMatrix in E.
    apply bind_Ok in E. destruct E as (M1 & H1 & E).
    destruct (forceDiagonal_spec _ _ _ E) as (Hd & _ & Hr).
    split; [exact Hd|]. intros r Hr'. specialize (Hd r Hr').
    unfold cell_at in Hd. destruct (M !! r); [eauto | discriminate].
  - exfalso. destruct sample; vm_compute in E; discriminate.
Qed.

Lemma applySampleType_diag (vars : list string) (prev : CellMatrix)
    (sample : SampleType) (M' : CellMatrix) :
  applySampleType vars prev sample = Ok M' -> diagForced vars M'.
Proof.
  unfold applySampleType. intros H.
  apply bind_Ok in H. destruct H as (base & _ & H).
  apply bind_Ok in H. destruct H as (next & _ & H).
  inversion H; subst. intros v Hv. now apply foldl_put_diag.
Qed.

Lemma parseCombined_diag (scan : string -> option (num * option num))
    (rows : list (list string)) (vars : list string) (M : CellMatrix) :
  parseCombinedMatrixText scan rows = Ok (vars, M) -> diagForced vars M.
Proof.
  unfold parseCombinedMatrixText.
  repeat match goal with
         | |- context [if ?b then _ else _] => destruct b; [discriminate|]
         end.
  intros H. apply bind_Ok in H. destruct H as (M1 & _ & H).
  apply bind_Ok in H. destruct H as (u & _ & H).
  apply bind_Ok in H. destruct H as (M2 & H2 & H).
  inversion H; subst. intros v Hv. now apply (forceDiagonal_spec _ _ _ H2).
Qed.

Lemma setCell_diag (vars : list string) (prev : CellMatrix) (r c : string)
    (patch : CellPatch) :
  diagForced vars prev -> diagForced vars (setCell prev r c patch).
Proof.
  intros Hd v Hv. unfold setCell.
  destruct (String.eqb_spec r c) as [->|Hne]; cbn [negb].
  - rewrite !cell_at_put_cell.
    destruct (decide (c = v /\ c = v)); [reflexivity | now apply Hd].
  - rewrite !cell_at_put_cell.
    rewrite !decide_False by (intros [-> ->]; congruence). now apply Hd.
Qed.

Lemma setCell_diag_cell (prev : CellMatrix) (v : string) (patch : CellPatch) :
  cell_at (setCell prev v v patch) v v = Some forcedDiag.
Proof.
  unfold setCell. rewrite String.eqb_refl. cbn [negb].
  rewrite cell_at_put_cell, decide_True by auto. reflexivity.
Qed.

Lemma Copy_setCell_diag (vars : list string) (prev : CellMatrix) (a b : string)
    (patch : CellPatch) :
  diagForced vars prev -> diagForced vars (Copy.setCell prev a b patch).
Proof.
  intros Hd v Hv. unfold Copy.setCell.
  destruct (String.eqb_spec a b) as [->|Hne].
  - rewrite !cell_at_put_cell.
    destruct (decide (b = v /\ b = v)); [reflexivity | now apply Hd].
  - rewrite !cell_at_put_cell.
    rewrite !decide_False by (intros [-> ->]; congruence). now apply Hd.
Qed.

Lemma Copy_reconcile_diag (vars : list string) (m m' : CellMatrix) (ws : list finding) :
  Copy.reconcile vars m = Ok (m', ws) -> diagForced vars m'.
Proof.
  unfold Copy.reconcile. intros H.
  apply bind_Ok in H. destruct H as (acc & _ & H).
  apply bind_Ok in H. destruct H as (m1 & H1 & H).
  inversion H; subst. intros v Hv. now apply (forceDiagonal_spec _ _ _ H1).
Qed.

Lemma Copy_parse_diag (Number : string -> num) (toLowerCase : string -> string)
    (rRows nRows : list (list string)) (vars : list string) (m : CellMatrix)
    (ws : list finding) :
  Copy.parseMatrixText Number toLowerCase rRows nRows = Ok (vars, m, ws) ->
  diagForced vars m.
Proof.
  unfold Copy.parseMatrixText.
  repeat match goal with
         | |- context [if ?b then _ else _] => destruct b; [discriminate|]
         end.
  intros H. apply bind_Ok in H. destruct H as (m1 & _ & H).
  apply bind_Ok in H. destruct H as ([m2 ws2] & H2 & H).
  inversion H; subst. eapply Copy_reconcile_diag. exact H2.
Qed.

Lemma foldM_invariant {A St : Type} (P : St -> Prop) (f : St -> A -> result St)
    (l : list A) (s s' : St) :
  P s ->
  (forall s x s', In x l -> P s -> f s x = Ok s' -> P s') ->
  foldM f l s = Ok s' -> P s'.
Proof.
  revert s. induction l as [|x l IH]; intros s Hs Hf; cbn [foldM].
  - intros H. inversion H; subst. exact Hs.
  - destruct (f s x) as [s1|] eqn:E; [|discriminate]. cbn.
    apply IH; [eapply Hf; eauto; now left|].
    intros s2 y s3 Hy. apply Hf. now right.
Qed.

Lemma cell_at_cell_set_opt (M M' : CellMatrix) (a b x y : string) (c : option Cell) :
  cell_set_opt M a b c = Ok M' ->
  cell_at M' x y = if decide (a = x /\ b = y) then c else cell_at M x y.
Proof.
  unfold cell_set_opt, cell_at. destruct (M !! a) as [row|] eqn:Ha; [|discriminate].
  intros H. inversion H; subst; clear H.
  destruct (decide (a = x)) as [->|Hax].
  - rewrite lookup_insert_eq, Ha. cbn.
    destruct (decide (b = y)) as [->|Hby].
    + rewrite decide_True by auto.
      destruct c; [apply lookup_insert_eq | apply lookup_delete_eq].
    + rewrite decide_False by tauto.
      destruct c; [now apply lookup_insert_ne | now apply lookup_delete_ne].
  - rewrite lookup_insert_ne by assumption. rewrite decide_False by tauto. reflexivity.
Qed.

Lemma applyVars_diag (vars : list string) (cellM : CellMatrix) (names : list string)
    (sample : SampleType) (M' : CellMatrix) :
  applyVarsMatrix vars cellM names sample = Ok M' ->
  diagForced (BASE_VARS ++ names) M'.
Proof.
  unfold applyVarsMatrix. intros H.
  apply bind_Ok in H. destruct H as (M1 & H1 & H).
  apply bind_Ok in H. destruct H as (base & Hbase & H).
  apply carryOver_diag in H1.
  destruct (buildPreset_diag sample) as (base' & Hb' & Hbd & _).
  rewrite Hbase in Hb'. inversion Hb'; subst base'; clear Hb'.
  revert H. apply foldM_invariant; [exact H1|].
  intros M2 a M3 Ha HM2. apply foldM_invariant; [exact HM2|].
  intros M4 b M5 Hb HM4 Hstep.
  apply bind_Ok in Hstep. destruct Hstep as (c & Hc & Hset).
  apply cell_get_at in Hc. intros v Hv.
  rewrite (cell_at_cell_set_opt _ _ _ _ _ _ _ Hset).
  destruct (decide (a = v /\ b = v)) as [[-> ->]|]; [|now apply HM4].
  rewrite <- Hc. now apply Hbd.
Qed.

(** C9.  Every operation that builds or edits a correlation matrix leaves
    the diagonal forced: for every variable v of the operation's variable
    list the resulting matrix has M[v][v] = {r: 1, n: NaN}, whatever the
    caller supplied.  This covers the empty matrix, the carry-over on a
    change of variables (alone and inside [applyVars]), the preset matrix
    and the loading of a preset into the current matrix, the text parsers of
    both variants, and the single-cell edit [setCell] of both variants (which
    keeps the diagonal of the other variables and forces the one it is asked
    to write). *)
Theorem diagonal_always_forced :
  (forall vars, diagForced vars (makeEmptyCellMatrix vars))
  /\ (forall oldVars oldM newVars newM M',
        carryOverCellMatrix oldVars oldM newVars newM = Ok M' -> diagForced newVars M')
  /\ (forall oldVars oldM newVars newM,
        allRows newVars newM ->
        exists M', carryOverCellMatrix oldVars oldM newVars newM = Ok M')
  /\ (forall vars cellM names sample M',
        applyVarsMatrix vars cellM names sample = Ok M' ->
        diagForced (BASE_VARS ++ names) M')
  /\ (forall sample,
        exists M, buildPresetBaseMatrix sample = Ok M /\ diagForced BASE_VARS M)
  /\ (forall vars prev sample M',
        applySampleType vars prev sample = Ok M' -> diagForced vars M')
  /\ (forall scan rows vars M,
        parseCombinedMatrixText scan rows = Ok (vars, M) -> diagForced vars M)
  /\ (forall vars prev r c patch,
        diagForced vars prev -> diagForced vars (setCell prev r c patch))
  /\ (forall prev v patch, cell_at (setCell prev v v patch) v v = Some forcedDiag)
  /\ (forall Number toLowerCase rRows nRows vars m ws,
        Copy.parseMatrixText Number toLowerCase rRows nRows = Ok (vars, m, ws) ->
        diagForced vars m)
  /\ (forall vars prev a b patch,
        diagForced vars prev -> diagForced vars (Copy.setCell prev a b patch)).
Proof.
  split; [intros vars v Hv; rewrite makeEmptyCellMatrix_cell by assumption;
          now rewrite String.eqb_refl|].
  split; [exact carryOver_diag|].
  split; [exact carryOver_returns|].
  split; [exact applyVars_diag|].
  split; [intros sample; destruct (buildPreset_diag sample) as (M & ? & ? & _); eauto|].
  split; [exact applySampleType_diag|].
  split; [exact parseCombined_diag|].
  split; [exact setCell_diag|].
  split; [exact setCell_diag_cell|].
  split; [exact Copy_parse_diag | exact Copy_setCell_diag].
Qed.

(** The grid editor asked to write r = 0.3, n = 50 on the diagonal cell of
    [loyalty] in the preset matrix. *)
Lemma diagonal_always_forced_witness :
  exists M, buildPresetBaseMatrix All = Ok M
            /\ diagForced BASE_VARS
                 (setCell M "loyalty" "loyalty"
                    (mkPatch (Some (Fin (3 # 10))) (Some (num_of_Z 50)))).
Proof.
  destruct diagonal_always_forced
    as (_ & _ & _ & _ & Hpreset & _ & _ & Hset & _).
  destruct (Hpreset All) as (M & HM & Hd).
  exists M. split; [exact HM|]. apply Hset. exact Hd.
Defined.

(** ** Path estimation *)

Lemma mapM_ext_in {A B : Type} (f g : A -> result B) (l : list A) :
  (forall x, In x l -> f x = g x) -> mapM f l = mapM g l.
Proof.
  induction l as [|x l IH]; intros H; cbn; [reflexivity|].
  rewrite (H x (or_introl eq_refl)), IH; [reflexivity|].
  intros y Hy. apply H. now right.
Qed.

Lemma foldM_ext {A St : Type} (f g : St -> A -> result St) (l : list A) (s : St) :
  (forall s x, f s x = g s x) -> foldM f l s = foldM g l s.
Proof.
  intros H. revert s. induction l as [|x l IH]; intros s; cbn; [reflexivity|].
  rewrite H. destruct (g s x); cbn; [apply IH | reflexivity].
Qed.

Lemma parentsOf_cons (y : string) (e : Edge) (es : list Edge) :
  parentsOf y (e :: es)
  = if String.eqb (e_to e) y then e_from e :: parentsOf y es else parentsOf y es.
Proof.
  unfold parentsOf. rewrite filter_cons.
  destruct (String.eqb (e_to e) y); case_decide; try congruence; reflexivity.
Qed.

Lemma estimateOne_ext (M1 M2 : CellMatrix) (edges : list Edge) (st : EstPaths)
    (y : string) :
  (forall a b, estimationCell edges a b -> cell_at M1 a b = cell_at M2 a b) ->
  estimateOne M1 edges st y = estimateOne M2 edges st y.
Proof.
  intros H. unfold estimateOne.
  destruct (Nat.eqb (length (parentsOf y edges)) 0); [reflexivity|].
  assert (HR : mapM (fun a => mapM (fun b => cell_get_r M1 a b) (parentsOf y edges))
                 (parentsOf y edges)
               = mapM (fun a => mapM (fun b => cell_get_r M2 a b) (parentsOf y edges))
                   (parentsOf y edges)).
  { apply mapM_ext_in. intros a Ha. apply mapM_ext_in. intros b Hb.
    rewrite !cell_get_r_at, H; [reflexivity|]. exists y. auto. }
  assert (Hr : mapM (fun a => cell_get_r M1 a y) (parentsOf y edges)
               = mapM (fun a => cell_get_r M2 a y) (parentsOf y edges)).
  { apply mapM_ext_in. intros a Ha.
    rewrite !cell_get_r_at, H; [reflexivity|]. exists y. auto. }
  rewrite HR, Hr. reflexivity.
Qed.

(** C10.  The estimate depends only on the cells M[a][b] where a and b are
    parents of one same variable, or a is a parent of b: two matrices that
    agree on these cells give the same outcome (the same coefficients, R²
    and residual variances, or the same exception), whatever their other
    cells hold. *)
Theorem estimate_depends_only_on_model_cells (vars : list string)
    (M1 M2 : CellMatrix) (edges : list Edge) :
  (forall a b, estimationCell edges a b -> cell_at M1 a b = cell_at M2 a b) ->
  estimatePathsFromCorrelation vars M1 edges
  = estimatePathsFromCorrelation vars M2 edges.
Proof.
  intros H. unfold estimatePathsFromCorrelation.
  rewrite (foldM_ext (estimateOne M1 edges) (estimateOne M2 edges)); [reflexivity|].
  intros st y. now apply estimateOne_ext.
Qed.

Lemma estimate_depends_only_on_model_cells_witness :
  cell_at (twoVarMatrix (1 # 2) (3 # 10)) "b" "a"
  <> cell_at (twoVarMatrix (1 # 2) (7 # 10)) "b" "a"
  /\ estimatePathsFromCorrelation ["a"; "b"] (twoVarMatrix (1 # 2) (3 # 10))
       [mkEdge "a" "b"]
     = estimatePathsFromCorrelation ["a"; "b"] (twoVarMatrix (1 # 2) (7 # 10))
         [mkEdge "a" "b"].
Proof.
  split; [vm_compute; discriminate|].
  apply (estimate_depends_only_on_model_cells ["a"; "b"]
           (twoVarMatrix (1 # 2) (3 # 10)) (twoVarMatrix (1 # 2) (7 # 10))
           [mkEdge "a" "b"]).
  intros a b (y & Ha & Hb). rewrite parentsOf_cons in Ha, Hb. cbn [e_to e_from] in Ha, Hb.
  destruct (String.eqb_spec "b" y) as [Heq|Hne].
  - subst y. destruct Ha as [<-|[]].
    destruct Hb as [[<-|[]]| ->]; vm_compute; reflexivity.
  - destruct Ha.
Defined.

Lemma num_one_mul_add (r : num) : (n0 + n1 * r)%num = r.
Proof.
  destruct r as [| | |[a b]]; try reflexivity.
  unfold n0, n1, num_mul, num_add, Qmult, Qplus. cbn [Qnum Qden]. do 2 f_equal; lia.
Qed.

Lemma num_zero_add_mul (r s : num) : (n0 + r * s)%num = (r * s)%num.
Proof.
  destruct (r * s)%num as [| | |[a b]]; try reflexivity.
  unfold n0, num_add, Qplus. cbn [Qnum Qden]. do 2 f_equal; lia.
Qed.

Lemma matInverse_unit : matInverse [[n1]] = Ok [[n1]].
Proof. vm_compute. reflexivity. Qed.

(** The loop body on a variable with the single parent [x] and a unit
    diagonal cell for [x]. *)
Lemma estimateOne_single (M : CellMatrix) (edges : list Edge) (st : EstPaths)
    (x y : string) (cx : Cell) :
  parentsOf y edges = [x] ->
  cell_at M x x = Some cx -> cell_r cx = n1 ->
  estimateOne M edges st y
  = match cell_at M x y with
    | None => Err TypeError
    | Some cxy =>
        Ok (mkEstPaths
              (est_coeffs st ++ [mkCoef x y (cell_r cxy)])
              (<[y := (cell_r cxy * cell_r cxy)%num]> (est_r2 st))
              (<[y := num_max lit_1e_8 (n1 - cell_r cxy * cell_r cxy)%num]>
                 (est_resid st)))
    end.
Proof.
  intros Hpar Hxx Hone. unfold estimateOne. rewrite Hpar. cbn [length Nat.eqb].
  cbn [mapM]. rewrite !cell_get_r_at, Hxx, Hone.
  destruct (cell_at M x y) as [cxy|]; [|reflexivity].
  cbn [mbind result_bind mret result_ret]. rewrite matInverse_unit.
  cbn [mbind result_bind matVecMul map vecDot reducei nth imap].
  rewrite num_one_mul_add, num_zero_add_mul. reflexivity.
Qed.

Lemma imap_coef_to (y : string) (beta : list num) (X : list string) (c : Coef) :
  In c (imap (fun i x => mkCoef x y (nth i beta NaN)) X) -> c_to c = y.
Proof.
  rewrite <- list_elem_of_In, list_elem_of_lookup. intros (i & Hi).
  rewrite list_lookup_imap in Hi.
  destruct (X !! i); cbn in Hi; [|discriminate]. inversion Hi. reflexivity.
Qed.

Lemma estimateOne_other (M : CellMatrix) (edges : list Edge) (st st' : EstPaths)
    (y y' : string) :
  estimateOne M edges st y' = Ok st' -> y' <> y ->
  est_r2 st' !! y = est_r2 st !! y
  /\ est_resid st' !! y = est_resid st !! y
  /\ (forall c, In c (est_coeffs st') -> c_to c = y -> In c (est_coeffs st))
  /\ (forall c, In c (est_coeffs st) -> In c (est_coeffs st')).
Proof.
  unfold estimateOne. intros H Hne.
  destruct (Nat.eqb (length (parentsOf y' edges)) 0).
  { inversion H; subst. auto. }
  apply bind_Ok in H. destruct H as (Rxx & _ & H).
  apply bind_Ok in H. destruct H as (rXy & _ & H).
  apply bind_Ok in H. destruct H as (inv & _ & H).
  inversion H; subst; clear H. cbn [est_r2 est_resid est_coeffs].
  rewrite !lookup_insert_ne by assumption. repeat split.
  - intros c Hc Hto. apply List.in_app_iff in Hc. destruct Hc as [Hc|Hc]; [exact Hc|].
    apply imap_coef_to in Hc. congruence.
  - intros c Hc. apply List.in_app_iff. now left.
Qed.

Lemma estimate_fold_single (M : CellMatrix) (edges : list Edge) (x y : string)
    (cx cxy : Cell) (vars : list string) (st st' : EstPaths) :
  parentsOf y edges = [x] ->
  cell_at M x x = Some cx -> cell_r cx = n1 -> cell_at M x y = Some cxy ->
  foldM (estimateOne M edges) vars st = Ok st' ->
  (forall c, In c (est_coeffs st) -> c_to c = y -> c = mkCoef x y (cell_r cxy)) ->
  (est_r2 st !! y = Some (cell_r cxy * cell_r cxy)%num
   /\ est_resid st !! y = Some (num_max lit_1e_8 (n1 - cell_r cxy * cell_r cxy)%num)
   /\ In (mkCoef x y (cell_r cxy)) (est_coeffs st))
  \/ In y vars ->
  (est_r2 st' !! y = Some (cell_r cxy * cell_r cxy)%num
   /\ est_resid st' !! y = Some (num_max lit_1e_8 (n1 - cell_r cxy * cell_r cxy)%num)
   /\ In (mkCoef x y (cell_r cxy)) (est_coeffs st'))
  /\ (forall c, In c (est_coeffs st') -> c_to c = y -> c = mkCoef x y (cell_r cxy)).
Proof.
  intros Hpar Hxx Hone Hxy. revert st.
  induction vars as [|v vars IH]; intros st Hfold Hall Hgood; cbn [foldM] in Hfold.
  - inversion Hfold; subst. destruct Hgood as [Hgood|[]]. auto.
  - apply bind_Ok in Hfold. destruct Hfold as (st1 & Hstep & Hfold).
    destruct (String.string_dec v y) as [->|Hne].
    + rewrite (estimateOne_single M edges st x y cx Hpar Hxx Hone), Hxy in Hstep.
      inversion Hstep; subst st1; clear Hstep.
      apply (IH _ Hfold); cbn [est_coeffs est_r2 est_resid].
      * intros c Hc Hto. apply List.in_app_iff in Hc.
        destruct Hc as [Hc|[<-|[]]]; auto.
      * left. rewrite !lookup_insert_eq. repeat split.
        apply List.in_app_iff. right. now left.
    + destruct (estimateOne_other _ _ _ _ y _ Hstep Hne) as (H2 & H3 & H4 & H5).
      apply (IH _ Hfold).
      * intros c Hc Hto. auto.
      * destruct Hgood as [(G1 & G2 & G3)|[Hv|Hin]]; [left|congruence|now right].
        rewrite H2, H3. auto.
Qed.

Lemma foldM_Err {A St : Type} (f : St -> A -> result St) (l : list A) (s : St)
    (e : js_error) :
  foldM f l s = Err e -> exists x s', In x l /\ f s' x = Err e.
Proof.
  revert s. induction l as [|a l IH]; intros s H; cbn [foldM] in H; [discriminate|].
  destruct (f s a) as [s1|e1] eqn:E; cbn in H.
  - destruct (IH _ H) as (x & s' & Hx & Hf). exists x, s'. split; [now right | exact Hf].
  - inversion H; subst. exists a, s. split; [now left | exact E].
Qed.

Lemma foldM_In_Ok {A St : Type} (f : St -> A -> result St) (l : list A) (s s' : St)
    (x : A) :
  foldM f l s = Ok s' -> In x l -> exists s1 s2, f s1 x = Ok s2.
Proof.
  revert s. induction l as [|a l IH]; intros s H Hin; [destruct Hin|].
  cbn [foldM] in H. apply bind_Ok in H. destruct H as (s1 & Hs1 & H).
  destruct Hin as [->|Hin]; eauto.
Qed.

Lemma resid_defaults_preserve (edges : list Edge) (vars : list string) (st : EstPaths)
    (y : string) (z : num) :
  est_resid st !! y = Some z ->
  let st' :=
    foldl (fun st v =>
             if isEndogenous edges v && negb (bool_decide (is_Some (est_resid st !! v)))
             then mkEstPaths (est_coeffs st) (est_r2 st) (<[v := n1]> (est_resid st))
             else st) st vars in
  est_coeffs st' = est_coeffs st /\ est_r2 st' = est_r2 st
  /\ est_resid st' !! y = Some z.
Proof.
  revert st. induction vars as [|v vars IH]; intros st Hy; cbn [foldl]; [auto|].
  destruct (isEndogenous edges v && negb (bool_decide (is_Some (est_resid st !! v))))
    eqn:E.
  - destruct (String.string_dec v y) as [->|Hne].
    + exfalso. rewrite Hy in E. rewrite bool_decide_eq_true_2 in E by eauto.
      rewrite andb_false_r in E. discriminate.
    + specialize (IH (mkEstPaths (est_coeffs st) (est_r2 st) (<[v := n1]> (est_resid st)))).
      cbn [est_coeffs est_r2 est_resid] in IH. apply IH.
      now rewrite lookup_insert_ne.
  - now apply IH.
Qed.

(** C3.  If [y] is a variable whose only incoming edge comes from [x], and
    the diagonal cell of [x] holds r = 1, then whenever the estimate
    returns, the cell (x, y) exists and the result holds for [y] exactly
    one coefficient, from [x], equal to the observed correlation r(x, y);
    R²(y) equals r(x, y) squared, and the residual variance of [y] is
    max(1e-8, 1 - R²). *)
Theorem single_parent_identity (vars : list string) (M : CellMatrix)
    (edges : list Edge) (x y : string) (cx : Cell) (res : EstPaths) :
  In y vars ->
  parentsOf y edges = [x] ->
  cell_at M x x = Some cx -> cell_r cx = n1 ->
  estimatePathsFromCorrelation vars M edges = Ok res ->
  exists cxy,
    cell_at M x y = Some cxy
    /\ In (mkCoef x y (cell_r cxy)) (est_coeffs res)
    /\ (forall c, In c (est_coeffs res) -> c_to c = y -> c = mkCoef x y (cell_r cxy))
    /\ est_r2 res !! y = Some (cell_r cxy * cell_r cxy)%num
    /\ est_resid res !! y
       = Some (num_max lit_1e_8 (n1 - cell_r cxy * cell_r cxy)%num).
Proof.
  intros Hy Hpar Hxx Hone Hest. unfold estimatePathsFromCorrelation in Hest.
  apply bind_Ok in Hest. destruct Hest as (st & Hfold & Hres).
  destruct (foldM_In_Ok _ _ _ _ _ Hfold Hy) as (s1 & s2 & Hstep).
  rewrite (estimateOne_single M edges s1 x y cx Hpar Hxx Hone) in Hstep.
  destruct (cell_at M x y) as [cxy|] eqn:Hxy; [|discriminate]. clear Hstep.
  exists cxy. split; [reflexivity|].
  destruct (estimate_fold_single M edges x y cx cxy vars _ st Hpar Hxx Hone Hxy Hfold)
    as ((G1 & G2 & G3) & Hall).
  { intros c []. }
  { now right. }
  inversion Hres; subst res; clear Hres.
  destruct (resid_defaults_preserve edges vars st y _ G2) as (-> & -> & ->).
  auto.
Qed.

Lemma single_parent_identity_witness :
  exists cxy,
    cell_at (twoVarMatrix (1 # 2) (1 # 2)) "a" "b" = Some cxy
    /\ In (mkCoef "a" "b" (cell_r cxy)) [mkCoef "a" "b" (Fin (1 # 2))]
    /\ (forall c, In c [mkCoef "a" "b" (Fin (1 # 2))] -> c_to c = "b" ->
                  c = mkCoef "a" "b" (cell_r cxy))
    /\ ({["b" := Fin (1 # 4)]} : gmap string num) !! "b"
       = Some (cell_r cxy * cell_r cxy)%num
    /\ ({["b" := Fin (3 # 4)]} : gmap string num) !! "b"
       = Some (num_max lit_1e_8 (n1 - cell_r cxy * cell_r cxy)%num).
Proof.
  exact (single_parent_identity ["a"; "b"] (twoVarMatrix (1 # 2) (1 # 2))
           [mkEdge "a" "b"] "a" "b" forcedDiag
           (mkEstPaths [mkCoef "a" "b" (Fin (1 # 2))]
                       {["b" := Fin (1 # 4)]} {["b" := Fin (3 # 4)]})
           (or_intror (or_introl eq_refl))
           ltac:(vm_compute; reflexivity)
           ltac:(vm_compute; reflexivity)
           eq_refl
           ltac:(vm_compute; reflexivity)).
Defined.

(** ** The estimation run *)

Section Run.
Variables js_sqrt js_log : num -> num.

Lemma runTry_fit (vars : list string) (cellM : CellMatrix) (edges : list Edge)
    (nMethod : NMethod) (N : num) (warnings warnings' : list finding)
    (res : EstResult) :
  runTry js_sqrt js_log vars cellM edges nMethod N warnings = Ok (res, warnings') ->
  let d := countDF vars edges in
  let fit := res_fit res in
  (exists S est Sigma,
      buildRMatrix vars cellM = Ok S
      /\ estimatePathsFromCorrelation vars cellM edges = Ok est
      /\ impliedSigmaRecursive vars S edges (est_coeffs est) (est_resid est) = Ok Sigma
      /\ srmrOffDiag js_sqrt S Sigma = Ok (SRMR fit)
      /\ res_coeffs res = est_coeffs est /\ res_r2 res = est_r2 est
      /\ res_resid res = est_resid est)
  /\ totalN fit = N /\ N_method fit = nMethod
  /\ fit_df fit = df_df d
  /\ observedMoments fit = df_observedMoments d
  /\ freeParams fit = df_freeParams d
  /\ endogenousCount fit = df_endoCount d
  /\ ((0 < df_df d)%Z ->
      is_Some (chi2 fit) /\ is_Some (rmsea fit) /\ is_Some (cfi fit) /\ is_Some (tli fit)
      /\ warnings' = warnings)
  /\ (~ (0 < df_df d)%Z ->
      chi2 fit = None /\ rmsea fit = None /\ cfi fit = None /\ tli fit = None
      /\ warnings' = warnings ++ [DfZero]).
Proof.
  unfold runTry. intros H.
  apply bind_Ok in H. destruct H as (S & HS & H).
  apply bind_Ok in H. destruct H as (est & Hest & H).
  apply bind_Ok in H. destruct H as (Sigma & HSigma & H).
  apply bind_Ok in H. destruct H as (srmr & Hsrmr & H).
  destruct (Z.ltb_spec 0 (df_df (countDF vars edges))) as [Hdf|Hdf].
  - apply bind_Ok in H. destruct H as (chis & _ & H).
    destruct (computeFitIndices _ _ _ _ _ _) as [[c t] r].
    inversion H; subst; clear H.
    cbn [res_fit res_coeffs res_r2 res_resid totalN N_method SRMR fit_df
         observedMoments freeParams endogenousCount chi2 rmsea cfi tli].
    split; [exists S, est, Sigma; auto 10|].
    repeat split; eauto; contradiction.
  - inversion H; subst; clear H.
    cbn [res_fit res_coeffs res_r2 res_resid totalN N_method SRMR fit_df
         observedMoments freeParams endogenousCount chi2 rmsea cfi tli].
    split; [exists S, est, Sigma; auto 10|].
    repeat split; eauto; lia.
Qed.

(** C4.  For every run that stores an estimate, the fit carries the SRMR
    of the observed against the implied matrix and the df, observedMoments,
    freeParams and endogenousCount of the degrees-of-freedom accounting;
    chi2, rmsea, cfi and tli are present exactly when df > 0; and when
    df = 0 they are absent and the warning that the fit indices are not
    meaningful is among the warnings shown. *)
Theorem fit_indices_iff_df_positive (vars : list string) (cellM : CellMatrix)
    (edges : list Edge) (nMethod : NMethod) (st : RunState) (res : EstResult) :
  runEstimationAndStore js_sqrt js_log vars cellM edges nMethod = Ok st ->
  lastEst st = Some res ->
  let d := countDF vars edges in
  let fit := res_fit res in
  matrixErrors st = []
  /\ (exists S est Sigma,
        buildRMatrix vars cellM = Ok S
        /\ estimatePathsFromCorrelation vars cellM edges = Ok est
        /\ impliedSigmaRecursive vars S edges (est_coeffs est) (est_resid est) = Ok Sigma
        /\ srmrOffDiag js_sqrt S Sigma = Ok (SRMR fit))
  /\ fit_df fit = df_df d
  /\ observedMoments fit = df_observedMoments d
  /\ freeParams fit = df_freeParams d
  /\ endogenousCount fit = df_endoCount d
  /\ (is_Some (chi2 fit) <-> (0 < fit_df fit)%Z)
  /\ (is_Some (rmsea fit) <-> (0 < fit_df fit)%Z)
  /\ (is_Some (cfi fit) <-> (0 < fit_df fit)%Z)
  /\ (is_Some (tli fit) <-> (0 < fit_df fit)%Z)
  /\ (fit_df fit = 0%Z -> In DfZero (matrixWarnings st)).
Proof.
  unfold runEstimationAndStore. intros H Hlast.
  apply bind_Ok in H. destruct H as (v & _ & H).
  match type of H with
  | (if negb (is_nil ?errs) then _ else _) = _ => destruct errs as [|e0 errs0] eqn:Eerr
  end; cbn [is_nil negb] in H.
  2:{ inversion H; subst. discriminate. }
  destruct (runTry _ _ _ _ _ _ _ _) as [[res' ws]|e] eqn:Htry.
  2:{ inversion H; subst. discriminate. }
  inversion H; subst st; clear H. cbn in Hlast. inversion Hlast; subst res'; clear Hlast.
  cbn [matrixErrors matrixWarnings].
  destruct (runTry_fit _ _ _ _ _ _ _ _ Htry)
    as ((S & est & Sigma & HS & Hest & HSig & Hsrmr & _) & _ & _ & Hdf & Hom & Hfp & Hec
        & Hpos & Hzero).
  assert (Hiff : forall o : option num,
             ((0 < df_df (countDF vars edges))%Z -> is_Some o) ->
             (~ (0 < df_df (countDF vars edges))%Z -> o = None) ->
             (is_Some o <-> (0 < df_df (countDF vars edges))%Z)).
  { intros o H1 H2. split; [|exact H1]. intros [x Hx].
    destruct (Z_lt_dec 0 (df_df (countDF vars edges))) as [Hlt|Hnlt]; [assumption|].
    rewrite (H2 Hnlt) in Hx. discriminate. }
  split; [reflexivity|]. split; [exists S, est, Sigma; auto|].
  rewrite Hdf.
  split; [reflexivity|]. split; [exact Hom|]. split; [exact Hfp|]. split; [exact Hec|].
  split; [apply Hiff; intros Hd; [apply Hpos | apply Hzero]; exact Hd|].
  split; [apply Hiff; intros Hd; [apply Hpos | apply Hzero]; exact Hd|].
  split; [apply Hiff; intros Hd; [apply Hpos | apply Hzero]; exact Hd|].
  split; [apply Hiff; intros Hd; [apply Hpos | apply Hzero]; exact Hd|].
  intros E. destruct Hzero as (_ & _ & _ & _ & ->); [lia|].
  apply List.in_app_iff. right. now left.
Qed.

End Run.

(** A run on two variables with the single path a -> b: df = 1, so the
    chi-square fields are present. *)
Lemma fit_indices_iff_df_positive_witness :
  exists st res,
    runEstimationAndStore approxSqrt approxLog ["a"; "b"]
      (twoVarMatrix (1 # 2) (1 # 2)) losslessEdges harmonic = Ok st
    /\ lastEst st = Some res
    /\ fit_df (res_fit res) = 1%Z
    /\ (is_Some (chi2 (res_fit res)) <-> (0 < fit_df (res_fit res))%Z)
    /\ (fit_df (res_fit res) = 0%Z -> In DfZero (matrixWarnings st)).
Proof.
  destruct (runEstimationAndStore approxSqrt approxLog ["a"; "b"]
              (twoVarMatrix (1 # 2) (1 # 2)) losslessEdges harmonic)
    as [st|e] eqn:Hrun; [|vm_compute in Hrun; discriminate].
  destruct (lastEst st) as [res|] eqn:Hlast.
  2:{ exfalso. vm_compute in Hrun. inversion Hrun; subst st. discriminate. }
  exists st, res. split; [reflexivity|]. split; [exact Hlast|].
  destruct (fit_indices_iff_df_positive approxSqrt approxLog ["a"; "b"]
              (twoVarMatrix (1 # 2) (1 # 2)) losslessEdges harmonic st res Hrun Hlast)
    as (_ & _ & Hdf & _ & _ & _ & Hchi & _ & _ & _ & Hzero).
  split; [rewrite Hdf; vm_compute; reflexivity|]. split; assumption.
Defined.

(** ** Symmetry reconciliation *)

Lemma cell_get_def_at (M : CellMatrix) (a b : string) :
  cell_get_def M a b
  = match cell_at M a b with Some c => Ok c | None => Err TypeError end.
Proof.
  unfold cell_get_def, cell_get, cell_at.
  destruct (M !! a) as [row|]; [|reflexivity]. cbn. now destruct (row !! b).
Qed.

Lemma reconcilePair_ok (m m1 : CellMatrix) (w w1 : list finding) (x y : string) :
  Copy.reconcilePair (m, w) (x, y) = Ok (m1, w1) ->
  exists cab cba,
    cell_at m x y = Some cab /\ cell_at m y x = Some cba
    /\ m1 = put_cell
              (put_cell m x y (mkCell (reconciledR (cell_r cab) (cell_r cba))
                                      (reconciledN (cell_n cab) (cell_n cba))))
              y x (mkCell (reconciledR (cell_r cab) (cell_r cba))
                          (reconciledN (cell_n cab) (cell_n cba)))
    /\ w1 = w
            ++ (if mismatch (cell_r cab) (cell_r cba)
                then [RMismatchAveraged x y (cell_r cab) (cell_r cba)] else [])
            ++ (if mismatch (cell_n cab) (cell_n cba)
                then [NMismatchMin x y (cell_n cab) (cell_n cba)] else []).
Proof.
  unfold Copy.reconcilePair. rewrite !cell_get_def_at.
  destruct (cell_at m x y) as [cab|]; [|discriminate].
  destruct (cell_at m y x) as [cba|]; [|discriminate].
  cbn [mbind result_bind]. intros H. exists cab, cba.
  split; [reflexivity|]. split; [reflexivity|].
  unfold reconciledR, reconciledN, mismatch.
  destruct (isFinite (cell_r cab) && isFinite (cell_r cba)
            && (num_abs (cell_r cab - cell_r cba) >? lit_1e_6)%num);
    destruct (isFinite (cell_n cab) && isFinite (cell_n cba)
              && (num_abs (cell_n cab - cell_n cba) >? lit_1e_6)%num);
    destruct (isFinite (cell_r cab)); destruct (isFinite (cell_r cba));
    destruct (isFinite (cell_n cab)); destruct (isFinite (cell_n cba));
    cbn in H;
    (apply bind_Ok in H; destruct H as (ma & Ha & H);
     apply bind_Ok in H; destruct H as (mb & Hb & H);
     apply cell_set_put in Ha, Hb; inversion H; subst;
     rewrite <- ?List.app_assoc, ?List.app_nil_r; auto).
Qed.

Lemma foldM_app {A St : Type} (f : St -> A -> result St) (l1 l2 : list A) (s : St) :
  foldM f (l1 ++ l2) s = foldM f l1 s ≫= foldM f l2.
Proof.
  revert s. induction l1 as [|x l1 IH]; intros s; cbn; [reflexivity|].
  destruct (f s x); cbn; [apply IH | reflexivity].
Qed.

Lemma isRMismatch_self (a b : string) (r1 r2 : num) :
  isRMismatch a b (RMismatchAveraged a b r1 r2) = true.
Proof. cbn. now rewrite !String.eqb_refl. Qed.

Lemma isRMismatch_other (a b x y : string) (r1 r2 : num) :
  (x, y) <> (a, b) -> isRMismatch a b (RMismatchAveraged x y r1 r2) = false.
Proof.
  intros Hne. cbn. destruct (String.eqb_spec a x) as [->|]; [|reflexivity].
  destruct (String.eqb_spec b y) as [->|]; [congruence | reflexivity].
Qed.

(** Pairs other than (a, b) and (b, a) leave the two cells and the
    warnings about (a, b) alone. *)
Lemma reconcile_untouched (a b : string) (l : list (string * string))
    (m m' : CellMatrix) (w w' : list finding) :
  untouched a b l ->
  foldM Copy.reconcilePair l (m, w) = Ok (m', w') ->
  cell_at m' a b = cell_at m a b /\ cell_at m' b a = cell_at m b a
  /\ List.filter (isRMismatch a b) w' = List.filter (isRMismatch a b) w.
Proof.
  revert m w. induction l as [|[x y] l IH]; intros m w Hun H; cbn [foldM] in H.
  - inversion H; subst. auto.
  - apply bind_Ok in H. destruct H as ([m1 w1] & Hstep & H).
    destruct (Hun x y (or_introl eq_refl)) as [Hab Hba].
    apply reconcilePair_ok in Hstep.
    destruct Hstep as (cab & cba & _ & _ & -> & ->).
    destruct (IH _ _ (fun x' y' Hin => Hun x' y' (or_intror Hin)) H) as (-> & -> & ->).
    rewrite !cell_at_put_cell.
    rewrite !decide_False by (intros [-> ->]; congruence).
    repeat split.
    rewrite !List.filter_app.
    destruct (mismatch (cell_r cab) (cell_r cba));
      destruct (mismatch (cell_n cab) (cell_n cba)); cbn [List.filter];
      rewrite ?isRMismatch_other by assumption; cbn [isRMismatch app];
      rewrite ?List.app_nil_r; reflexivity.
Qed.

(** With pairwise distinct variables a pair of the loops occurs once, and
    its mirror image never. *)
Lemma unordered_pairs_once (vars : list string) (a b : string) :
  NoDup vars -> In (a, b) (unordered_pairs vars) ->
  a <> b
  /\ exists l1 l2, unordered_pairs vars = l1 ++ (a, b) :: l2
                   /\ untouched a b l1 /\ untouched a b l2.
Proof.
  induction vars as [|v rest IH]; cbn [unordered_pairs]; [intros _ []|].
  rewrite NoDup_cons, List.in_app_iff, List.in_map_iff.
  intros [Hv Hnd] [(b' & Heq & Hb)|Hin].
  - inversion Heq; subst v b'; clear Heq.
    assert (Hab : a <> b) by (intros ->; apply Hv; now apply list_elem_of_In).
    split; [exact Hab|].
    apply list_elem_of_In, list_elem_of_split in Hb. destruct Hb as (r1 & r2 & ->).
    apply NoDup_app in Hnd. destruct Hnd as (_ & Hdis & Hnd2).
    apply NoDup_cons in Hnd2. destruct Hnd2 as [Hb2 _].
    exists (map (fun y => (a, y)) r1), (map (fun y => (a, y)) r2 ++ unordered_pairs (r1 ++ b :: r2)).
    split; [rewrite List.map_app, <- List.app_assoc; reflexivity|].
    split.
    + intros x y Hxy. apply List.in_map_iff in Hxy. destruct Hxy as (y' & Hy' & Hin).
      inversion Hy'; subst x y'. split; [|congruence].
      intros E. inversion E; subst y.
      apply (Hdis b); [now apply list_elem_of_In | now left].
    + intros x y Hxy. apply List.in_app_iff in Hxy. destruct Hxy as [Hxy|Hxy].
      * apply List.in_map_iff in Hxy. destruct Hxy as (y' & Hy' & Hin).
        inversion Hy'; subst x y'. split; [|congruence].
        intros E. inversion E; subst y. apply Hb2. now apply list_elem_of_In.
      * apply unordered_pairs_In in Hxy. destruct Hxy as [Hx Hy].
        split; intros E; inversion E; subst; apply Hv; now apply list_elem_of_In.
  - destruct (IH Hnd Hin) as (Hab & l1 & l2 & Hl & H1 & H2).
    split; [exact Hab|].
    destruct (unordered_pairs_In _ _ _ Hin) as [Ha Hb].
    exists (map (fun y => (v, y)) rest ++ l1), l2.
    split; [rewrite Hl, <- List.app_assoc; reflexivity|].
    split; [|exact H2].
    intros x y Hxy. apply List.in_app_iff in Hxy. destruct Hxy as [Hxy|Hxy]; [|auto].
    apply List.in_map_iff in Hxy. destruct Hxy as (y' & Hy' & Hiny).
    inversion Hy'; subst x y'.
    split; intros E; inversion E; subst; apply Hv; now apply list_elem_of_In.
Qed.

(** The average of two correlations within [-0.999, 0.999] is not changed
    by the clamp. *)
Lemma clamp_average (r1 r2 : num) :
  isFinite r1 = true -> isFinite r2 = true ->
  (num_abs r1 <=? lit_0_999)%num = true ->
  (num_abs r2 <=? lit_0_999)%num = true ->
  Copy.clampR ((r1 + r2) / n2)%num = ((r1 + r2) / n2)%num.
Proof.
  destruct r1 as [| | |p], r2 as [| | |q]; try discriminate. intros _ _.
  unfold num_abs, num_le, lit_0_999. rewrite !Qle_bool_iff.
  intros Hp Hq. apply Qabs_Qle_condition in Hp, Hq.
  unfold num_add, num_div, n2. change (Qeq_bool 2 0) with false. cbv iota.
  unfold Copy.clampR, num_gt, num_lt, num_neg, lit_0_999, Qltb. cbn [isFinite negb].
  assert (Hhalf : ((p + q) / 2 == (p + q) * (1 # 2))%Q) by field.
  assert (H1 : Qle_bool ((p + q) / 2) (999 # 1000) = true)
    by (apply Qle_bool_iff; rewrite Hhalf; lra).
  assert (H2 : Qle_bool (- (999 # 1000)) ((p + q) / 2) = true)
    by (apply Qle_bool_iff; rewrite Hhalf; lra).
  rewrite H1, H2. reflexivity.
Qed.

(** C1 (corrected).  In the symmetry pass of the text parser
    ([Copy.reconcile]), for pairwise distinct variables and a pair (a, b)
    of the loops: both cells of the pair receive one same reconciled cell.
    When the two sides hold finite correlations differing by more than
    1e-6, its r is the clamped average, which is the average (r1+r2)/2 for
    sides within [-0.999, 0.999] (the range in which the parser stores
    them), and exactly one warning about an r mismatch of this pair is
    recorded; without such a mismatch no such warning is recorded and the
    r is the first side if finite, else the second if finite.  The
    validator ([validateCellMatrix]) reconciles nothing: on such a mismatch
    it reports the asymmetry as an error and ok is false. *)
Theorem reconcile_mismatched_pair (vars : list string) (m m' : CellMatrix)
    (ws : list finding) (a b : string) (cab cba : Cell) :
  NoDup vars ->
  In (a, b) (unordered_pairs vars) ->
  cell_at m a b = Some cab -> cell_at m b a = Some cba ->
  Copy.reconcile vars m = Ok (m', ws) ->
  let r1 := cell_r cab in
  let r2 := cell_r cba in
  (exists k, cell_at m' a b = Some (mkCell (reconciledR r1 r2) k)
             /\ cell_at m' b a = Some (mkCell (reconciledR r1 r2) k))
  /\ (mismatch r1 r2 = true ->
      reconciledR r1 r2 = Copy.clampR ((r1 + r2) / n2)%num
      /\ ((num_abs r1 <=? lit_0_999)%num = true ->
          (num_abs r2 <=? lit_0_999)%num = true ->
          reconciledR r1 r2 = ((r1 + r2) / n2)%num)
      /\ List.filter (isRMismatch a b) ws = [RMismatchAveraged a b r1 r2])
  /\ (mismatch r1 r2 = false ->
      List.filter (isRMismatch a b) ws = []
      /\ (isFinite r1 = true -> reconciledR r1 r2 = r1)
      /\ (isFinite r1 = false -> isFinite r2 = true -> reconciledR r1 r2 = r2))
  /\ (forall v, allRows vars m -> validateCellMatrix vars m = Ok v ->
        mismatch r1 r2 = true ->
        In (RNotSymmetric a b) (v_errors v) /\ v_ok v = false).
Proof.
  intros Hnd Hin Hab Hba Hrec r1 r2.
  destruct (unordered_pairs_once vars a b Hnd Hin) as (Hne & l1 & l2 & Hl & Hu1 & Hu2).
  unfold Copy.reconcile in Hrec.
  apply bind_Ok in Hrec. destruct Hrec as ([mf wf] & Hfold & Hrec).
  apply bind_Ok in Hrec. destruct Hrec as (md & Hdiag & Hrec).
  inversion Hrec; subst md ws; clear Hrec. cbn [fst snd] in Hdiag.
  rewrite upper_pairs_unordered, Hl, foldM_app in Hfold.
  apply bind_Ok in Hfold. destruct Hfold as ([ma wa] & H1 & Hfold).
  cbn [foldM] in Hfold.
  apply bind_Ok in Hfold. destruct Hfold as ([mb wb] & Hstep & H2).
  destruct (reconcile_untouched a b l1 _ _ _ _ Hu1 H1) as (E1 & E2 & Ew1).
  destruct (reconcile_untouched a b l2 _ _ _ _ Hu2 H2) as (F1 & F2 & Ew2).
  apply reconcilePair_ok in Hstep.
  destruct Hstep as (cab' & cba' & Gab & Gba & -> & ->).
  rewrite E1, Hab in Gab. rewrite E2, Hba in Gba.
  inversion Gab; subst cab'. inversion Gba; subst cba'. clear Gab Gba.
  destruct (forceDiagonal_spec _ _ _ Hdiag) as (_ & Hoff & _).
  split; [|split; [|split]].
  - exists (reconciledN (cell_n cab) (cell_n cba)).
    rewrite !Hoff by (left; congruence). rewrite F1, F2, !cell_at_put_cell.
    rewrite decide_False by (intros [? ?]; congruence).
    rewrite !decide_True by auto. auto.
  - intros Hm. unfold reconciledR. fold r1 r2. rewrite Hm.
    apply andb_true_iff in Hm as Hm'. destruct Hm' as [Hf _].
    apply andb_true_iff in Hf. destruct Hf as [Hf1 Hf2].
    split; [reflexivity|]. split; [intros; now apply clamp_average|].
    rewrite Ew2, !List.filter_app, Ew1. fold r1 r2. rewrite Hm.
    cbn [List.filter app]. rewrite isRMismatch_self.
    destruct (mismatch (cell_n cab) (cell_n cba)); reflexivity.
  - intros Hm. split; [|split].
    + rewrite Ew2, !List.filter_app, Ew1. fold r1 r2. rewrite Hm.
      cbn [List.filter app].
      destruct (mismatch (cell_n cab) (cell_n cba)); reflexivity.
    + unfold reconciledR. rewrite Hm. intros ->. reflexivity.
    + unfold reconciledR. rewrite Hm. intros -> ->. reflexivity.
  - intros v Hrows Hv Hm.
    destruct (validate_all_rows _ _ _ Hrows Hv) as (He & _ & Hok).
    assert (Herr : In (RNotSymmetric a b) (v_errors v)).
    { rewrite He. apply List.in_app_iff. right. apply pairErrors_In.
      unfold mismatch in Hm. apply andb_true_iff in Hm. destruct Hm as [Hf Hgt].
      apply andb_true_iff in Hf. destruct Hf as [Hf1 Hf2].
      exists a, b, cab, cba. auto 10. }
    split; [exact Herr|]. rewrite Hok. destruct (v_errors v); [destruct Herr|reflexivity].
Qed.

(** Two variables whose sides hold r = 0.5 and r = 0.3. *)
Lemma reconcile_mismatched_pair_witness :
  exists m' ws,
    Copy.reconcile ["a"; "b"] (twoVarMatrix (1 # 2) (3 # 10)) = Ok (m', ws)
    /\ (exists k,
          cell_at m' "a" "b"
          = Some (mkCell (reconciledR (Fin (1 # 2)) (Fin (3 # 10))) k)
          /\ cell_at m' "b" "a"
             = Some (mkCell (reconciledR (Fin (1 # 2)) (Fin (3 # 10))) k))
    /\ reconciledR (Fin (1 # 2)) (Fin (3 # 10))
       = ((Fin (1 # 2) + Fin (3 # 10)) / n2)%num
    /\ List.filter (isRMismatch "a" "b") ws
       = [RMismatchAveraged "a" "b" (Fin (1 # 2)) (Fin (3 # 10))].
Proof.
  destruct (Copy.reconcile ["a"; "b"] (twoVarMatrix (1 # 2) (3 # 10)))
    as [[m' ws]|e] eqn:Hrec; [|vm_compute in Hrec; discriminate].
  exists m', ws. split; [reflexivity|].
  destruct (reconcile_mismatched_pair ["a"; "b"] (twoVarMatrix (1 # 2) (3 # 10))
              m' ws "a" "b" (cellQ (1 # 2) 100) (cellQ (3 # 10) 100))
    as (Hcells & Hmis & _).
  - apply (bool_decide_unpack (NoDup ["a"; "b"])). vm_compute. exact I.
  - now left.
  - vm_compute; reflexivity.
  - vm_compute; reflexivity.
  - exact Hrec.
  - split; [exact Hcells|].
    destruct Hmis as (_ & Havg & Hwarn); [vm_compute; reflexivity|].
    split; [apply Havg; vm_compute; reflexivity | exact Hwarn].
Defined.

(** C1, the claim as stated fails for the validator: on the two sides
    r = 0.5 and r = 0.3 it returns the asymmetry as an error, with ok false
    and no warning, and it returns no matrix. *)
Lemma validate_reports_asymmetry_as_error :
  mismatch (Fin (1 # 2)) (Fin (3 # 10)) = true
  /\ validateCellMatrix ["a"; "b"] (twoVarMatrix (1 # 2) (3 # 10))
     = Ok (mkValidation false [RNotSymmetric "a" "b"] []).
Proof. split; vm_compute; reflexivity. Qed.

(** ** The inverse throws on a small pivot, and only then *)






(** ** Equal rows make the inverse throw *)






Lemma updRow_ext (n : nat) (f g : num -> nat -> num) (row : list num) :
  (forall x j, j < n -> f x j = g x j) -> updRow n f row = updRow n g row.
Proof.
  intros H. unfold updRow. apply List.map_ext_in. intros j Hj.
  apply List.in_seq in Hj. apply H. lia.
Qed.



















(** ** The estimate throws on equal rows of parent correlations *)











(** * Further properties of the code *)

(** ** Editing the edges *)

Lemma same_edge_spec (from to : string) (e : Edge) :
  String.eqb (e_from e) from && String.eqb (e_to e) to = true <-> e = mkEdge from to.
Proof.
  destruct e as [f t]. cbn. rewrite andb_true_iff, !String.eqb_eq. split.
  - intros [-> ->]. reflexivity.
  - intros H. inversion H. auto.
Qed.

Lemma existsb_same_edge (edges : list Edge) (from to : string) :
  existsb (fun e => String.eqb (e_from e) from && String.eqb (e_to e) to) edges = true
  <-> In (mkEdge from to) edges.
Proof.
  rewrite List.existsb_exists. split.
  - intros (e & He & Hs). apply same_edge_spec in Hs. now subst.
  - intros H. exists (mkEdge from to). split; [exact H|]. now apply same_edge_spec.
Qed.

Lemma addEdge_In (edges : list Edge) (from to : string) (e : Edge) :
  In e (addEdge edges from to) <-> In e edges \/ (from <> to /\ e = mkEdge from to).
Proof.
  unfold addEdge. destruct (String.eqb_spec from to) as [Heq|Hne].
  - split; [auto | intros [H|[H _]]; [exact H | contradiction]].
  - destruct (existsb _ edges) eqn:Hex.
    + apply existsb_same_edge in Hex. split; [auto|].
      intros [H|[_ ->]]; assumption.
    + rewrite List.in_app_iff. cbn [In]. split.
      * intros [H|[<-|[]]]; auto.
      * intros [H|[_ ->]]; auto.
Qed.

Lemma addEdge_NoDup (edges : list Edge) (from to : string) :
  NoDup edges -> NoDup (addEdge edges from to).
Proof.
  intros Hnd. unfold addEdge. destruct (String.eqb from to); [exact Hnd|].
  destruct (existsb _ edges) eqn:Hex; [exact Hnd|].
  apply NoDup_app. split; [exact Hnd|]. split; [|apply NoDup_singleton].
  intros e He Hin. apply list_elem_of_singleton in Hin. subst e.
  apply list_elem_of_In, existsb_same_edge in He. congruence.
Qed.

Lemma addEdge_no_loop (edges : list Edge) (from to : string) :
  (forall e, In e edges -> e_from e <> e_to e) ->
  forall e, In e (addEdge edges from to) -> e_from e <> e_to e.
Proof.
  intros H e He. apply addEdge_In in He. destruct He as [He|[Hne ->]]; [auto|exact Hne].
Qed.

(** X1.  [addEdge] adds the edge from -> to exactly when from and to differ
    and the edge is not there yet; it never removes an edge, never creates a
    self-loop and never creates a duplicate. *)
Theorem addEdge_adds_only_new_proper_edges (edges : list Edge) (from to : string) :
  (forall e, In e (addEdge edges from to)
             <-> In e edges \/ (from <> to /\ e = mkEdge from to))
  /\ (from <> to -> ~ In (mkEdge from to) edges ->
      addEdge edges from to = edges ++ [mkEdge from to])
  /\ (from = to \/ In (mkEdge from to) edges -> addEdge edges from to = edges)
  /\ (NoDup edges -> NoDup (addEdge edges from to))
  /\ ((forall e, In e edges -> e_from e <> e_to e) ->
      forall e, In e (addEdge edges from to) -> e_from e <> e_to e).
Proof.
  split; [intros e; apply addEdge_In|].
  split.
  { intros Hne Hnin. unfold addEdge.
    destruct (String.eqb_spec from to); [contradiction|].
    destruct (existsb _ edges) eqn:Hex; [|reflexivity].
    apply existsb_same_edge in Hex. contradiction. }
  split.
  { intros [->|Hin]; unfold addEdge.
    - now rewrite String.eqb_refl.
    - destruct (String.eqb from to); [reflexivity|].
      apply existsb_same_edge in Hin. now rewrite Hin. }
  split; [apply addEdge_NoDup | apply addEdge_no_loop].
Qed.

Lemma removeEdgeAt_shift (edges : list Edge) (s idx : nat) :
  map snd (List.filter (fun ie => negb (Nat.eqb (fst ie) (s + idx)))
                       (zip (seq s (length edges)) edges))
  = delete idx edges.
Proof.
  revert s idx. induction edges as [|e edges IH]; intros s idx; [reflexivity|].
  cbn [length seq zip zip_with List.filter fst].
  destruct idx as [|idx].
  - rewrite Nat.add_0_r, Nat.eqb_refl. cbn [negb delete].
    clear IH. change (delete 0 (e :: edges)) with edges.
    assert (H : forall (l : list Edge) t, s < t ->
              map snd (List.filter (fun ie => negb (Nat.eqb (fst ie) s))
                                   (zip (seq t (length l)) l)) = l).
    { induction l as [|x l IHl]; intros t Ht; [reflexivity|].
      cbn [length seq zip zip_with List.filter fst].
      destruct (Nat.eqb_spec t s); [lia|]. cbn [negb map snd].
      f_equal. apply IHl. lia. }
    apply H. lia.
  - destruct (Nat.eqb_spec s (s + S idx)); [lia|]. cbn [negb map snd].
    change (delete (S idx) (e :: edges)) with (e :: delete idx edges).
    f_equal. replace (s + S idx) with (S s + idx) by lia. apply IH.
Qed.

(** X2.  [removeEdgeAt] deletes the edge at the given index and nothing
    else: it is the deletion at that position, it leaves the list alone when
    the index is out of range, and removing the last position after a
    successful [addEdge] gives back the edges from before. *)
Theorem removeEdgeAt_deletes_position (edges : list Edge) (idx : nat) :
  removeEdgeAt edges idx = delete idx edges
  /\ (length edges <= idx -> removeEdgeAt edges idx = edges)
  /\ (idx < length edges -> length (removeEdgeAt edges idx) = length edges - 1)
  /\ (forall from to, from <> to -> ~ In (mkEdge from to) edges ->
        removeEdgeAt (addEdge edges from to) (length edges) = edges).
Proof.
  assert (Hdel : forall l i, removeEdgeAt l i = delete i l).
  { intros l i. unfold removeEdgeAt. apply (removeEdgeAt_shift l 0 i). }
  split; [apply Hdel|]. split; [|split].
  - intros Hge. rewrite Hdel. revert idx Hge.
    induction edges as [|e edges IH]; intros idx Hge; [now destruct idx|].
    destruct idx as [|idx]; [cbn in Hge; lia|].
    change (delete (S idx) (e :: edges)) with (e :: delete idx edges).
    f_equal. apply IH. cbn in Hge. lia.
  - intros Hlt. rewrite Hdel, length_delete; [lia|].
    apply lookup_lt_is_Some. exact Hlt.
  - intros from to Hne Hnin. rewrite Hdel. unfold addEdge.
    destruct (String.eqb_spec from to); [contradiction|].
    destruct (existsb _ edges) eqn:Hex;
      [apply existsb_same_edge in Hex; contradiction|].
    clear. induction edges as [|e edges IH]; [reflexivity|].
    cbn [length app]. change (delete (S (length edges)) (e :: (edges ++ [mkEdge from to])))
      with (e :: delete (length edges) (edges ++ [mkEdge from to])).
    now rewrite IH.
Qed.

Lemma removeEdgeAt_deletes_position_witness :
  removeEdgeAt (addEdge [mkEdge "value" "loyalty"] "quality" "loyalty") 1
  = [mkEdge "value" "loyalty"].
Proof.
  destruct (removeEdgeAt_deletes_position [mkEdge "value" "loyalty"] 1)
    as (_ & _ & _ & H).
  apply (H "quality" "loyalty").
  - discriminate.
  - cbn. intros [H'|[]]. discriminate H'.
Defined.

Lemma onNodeClick_well_formed (d : DiagramState) (v : string) :
  NoDup (ds_edges d) /\ (forall e, In e (ds_edges d) -> e_from e <> e_to e) ->
  NoDup (ds_edges (onNodeClick d v))
  /\ (forall e, In e (ds_edges (onNodeClick d v)) -> e_from e <> e_to e).
Proof.
  intros [Hnd Hloop]. unfold onNodeClick.
  destruct (negb (Copy.truthy (connectFrom d))); [auto|].
  destruct (bool_decide (connectFrom d = Some v)); [auto|].
  cbn [ds_edges]. split; [now apply addEdge_NoDup | now apply addEdge_no_loop].
Qed.

(** X3.  Whatever nodes are clicked, in whatever order, the diagram of
    [PathModelBuilder2] never holds a self-loop or a duplicate edge, provided
    it held none before.  A first click on a node selects it; a second click
    on the same node clears the selection and leaves the edges alone; a
    click on another node asks [addEdge] for the edge from the selected node
    and clears the selection. *)
Theorem diagram_clicks_keep_edges_well_formed (clicks : list string) (d : DiagramState) :
  NoDup (ds_edges d) ->
  (forall e, In e (ds_edges d) -> e_from e <> e_to e) ->
  (NoDup (ds_edges (foldl onNodeClick d clicks))
   /\ forall e, In e (ds_edges (foldl onNodeClick d clicks)) -> e_from e <> e_to e)
  /\ (forall v, Copy.truthy (connectFrom d) = false ->
        onNodeClick d v = mkDiagramState (Some v) (ds_edges d))
  /\ (forall v, v <> "" ->
        onNodeClick (mkDiagramState (Some v) (ds_edges d)) v
        = mkDiagramState None (ds_edges d))
  /\ (forall a b, a <> "" -> a <> b ->
        onNodeClick (mkDiagramState (Some a) (ds_edges d)) b
        = mkDiagramState None (addEdge (ds_edges d) a b)).
Proof.
  intros Hnd Hloop. split; [|split; [|split]].
  - revert d Hnd Hloop. induction clicks as [|v clicks IH]; intros d Hnd Hloop.
    + cbn. auto.
    + cbn [foldl]. destruct (onNodeClick_well_formed d v (conj Hnd Hloop)) as [H1 H2].
      now apply IH.
  - intros v Hf. unfold onNodeClick. now rewrite Hf.
  - intros v Hv. unfold onNodeClick. cbn [connectFrom Copy.truthy ds_edges].
    destruct (String.eqb_spec v ""); [contradiction|]. cbn [negb].
    now rewrite bool_decide_eq_true_2.
  - intros a b Ha Hab. unfold onNodeClick. cbn [connectFrom Copy.truthy ds_edges].
    destruct (String.eqb_spec a ""); [contradiction|]. cbn [negb].
    rewrite bool_decide_eq_false_2 by congruence. reflexivity.
Qed.

Lemma diagram_clicks_keep_edges_well_formed_witness :
  ds_edges (foldl onNodeClick (mkDiagramState None [])
              ["value"; "loyalty"; "value"; "loyalty"; "quality"; "quality"])
  = [mkEdge "value" "loyalty"]
  /\ NoDup (ds_edges (foldl onNodeClick (mkDiagramState None [])
              ["value"; "loyalty"; "value"; "loyalty"; "quality"; "quality"])).
Proof.
  split; [vm_compute; reflexivity|].
  apply (diagram_clicks_keep_edges_well_formed
           ["value"; "loyalty"; "value"; "loyalty"; "quality"; "quality"]
           (mkDiagramState None [])).
  - apply NoDup_nil_2.
  - intros e [].
Defined.

Lemma toggleEdge_In (prev : list Edge) (from to : string) (e : Edge) :
  from <> to ->
  (In e (Copy.toggleEdge prev from to)
   <-> (In e prev /\ e <> mkEdge from to)
       \/ (e = mkEdge from to /\ ~ In (mkEdge from to) prev)).
Proof.
  intros Hne. unfold Copy.toggleEdge.
  destruct (String.eqb_spec from to); [contradiction|].
  destruct (existsb _ prev) eqn:Hex.
  - apply existsb_same_edge in Hex. rewrite List.filter_In, negb_true_iff.
    rewrite <- not_true_iff_false, same_edge_spec. split.
    + intros [H1 H2]. left. auto.
    + intros [[H1 H2]|[-> H2]]; [auto | contradiction].
  - assert (Hnin : ~ In (mkEdge from to) prev).
    { intros H. apply existsb_same_edge in H. congruence. }
    rewrite List.in_app_iff. cbn [In]. split.
    + intros [H|[<-|[]]]; [left; split; [exact H | intros ->; contradiction] | right; auto].
    + intros [[H _]|[-> _]]; auto.
Qed.

(** X4.  [toggleEdge] of the other variant flips the presence of the edge
    from -> to and touches no other edge; a self-loop is ignored.  Toggling
    twice restores the set of edges, and restores the very list when the
    edge was absent. *)
Theorem toggleEdge_flips_one_edge (prev : list Edge) (from to : string) :
  (from = to -> Copy.toggleEdge prev from to = prev)
  /\ (from <> to ->
      forall e, In e (Copy.toggleEdge prev from to)
                <-> (In e prev /\ e <> mkEdge from to)
                    \/ (e = mkEdge from to /\ ~ In (mkEdge from to) prev))
  /\ (forall e, In e (Copy.toggleEdge (Copy.toggleEdge prev from to) from to)
                <-> In e prev)
  /\ (~ In (mkEdge from to) prev ->
      Copy.toggleEdge (Copy.toggleEdge prev from to) from to = prev).
Proof.
  split; [intros ->; unfold Copy.toggleEdge; now rewrite String.eqb_refl|].
  split; [intros Hne e; now apply toggleEdge_In|].
  destruct (String.eqb_spec from to) as [Heq|Hne].
  { subst. unfold Copy.toggleEdge. rewrite String.eqb_refl. split; [tauto|reflexivity]. }
  split.
  - intros e. rewrite toggleEdge_In by assumption.
    pose proof (toggleEdge_In prev from to e Hne) as He.
    pose proof (toggleEdge_In prev from to (mkEdge from to) Hne) as HE.
    assert (HP : In (mkEdge from to) prev \/ ~ In (mkEdge from to) prev).
    { destruct (existsb (fun e0 => String.eqb (e_from e0) from && String.eqb (e_to e0) to)
                  prev) eqn:Hex.
      - left. now apply existsb_same_edge.
      - right. intros H. apply existsb_same_edge in H. congruence. }
    assert (HQ : e = mkEdge from to \/ e <> mkEdge from to).
    { destruct (String.eqb (e_from e) from && String.eqb (e_to e) to) eqn:E.
      - left. now apply same_edge_spec.
      - right. intros H. apply same_edge_spec in H. congruence. }
    destruct HQ as [->|HQ]; tauto.
  - intros Hnin. unfold Copy.toggleEdge.
    destruct (String.eqb_spec from to); [contradiction|].
    assert (Hex : existsb (fun e0 => String.eqb (e_from e0) from && String.eqb (e_to e0) to)
                    prev = false).
    { apply not_true_iff_false. intros H. apply existsb_same_edge in H. contradiction. }
    rewrite Hex.
    assert (Hex2 : existsb (fun e0 => String.eqb (e_from e0) from && String.eqb (e_to e0) to)
                     (prev ++ [mkEdge from to]) = true).
    { apply existsb_same_edge, List.in_app_iff. right. now left. }
    rewrite Hex2, List.filter_app. cbn [List.filter e_from e_to].
    rewrite !String.eqb_refl. cbn [andb negb]. rewrite List.app_nil_r.
    clear Hex2. induction prev as [|x prev IH]; [reflexivity|].
    cbn [List.filter existsb] in *. apply orb_false_iff in Hex. destruct Hex as [Hx Hex].
    rewrite Hx. cbn [negb]. f_equal. apply IH; [|exact Hex].
    intros H. apply Hnin. now right.
Qed.

(** ** Clamping *)

Lemma Qle_bool_false_lt (x y : Q) : Qle_bool x y = false -> (y < x)%Q.
Proof.
  intros H. apply Qnot_le_lt. intros Hle. apply Qle_bool_iff in Hle. congruence.
Qed.

Lemma clampR_fin (q : Q) :
  Copy.clampR (Fin q)
  = if Qle_bool q (999 # 1000)
    then (if Qle_bool (- (999 # 1000)) q then Fin q else Fin (- (999 # 1000)))
    else Fin (999 # 1000).
Proof.
  unfold Copy.clampR, num_gt, num_lt, num_neg, lit_0_999, Qltb. cbn [isFinite negb].
  destruct (Qle_bool q (999 # 1000)); cbn [negb]; [|reflexivity].
  destruct (Qle_bool (- (999 # 1000)) q); reflexivity.
Qed.

Lemma clampR_fin_bounded (q : Q) :
  exists q', Copy.clampR (Fin q) = Fin q' /\ (Qabs q' <= 999 # 1000)%Q.
Proof.
  rewrite clampR_fin.
  destruct (Qle_bool q (999 # 1000)) eqn:H1.
  - destruct (Qle_bool (- (999 # 1000)) q) eqn:H2.
    + exists q. split; [reflexivity|]. apply Qabs_Qle_condition.
      apply Qle_bool_iff in H1, H2. auto.
    + exists (- (999 # 1000))%Q. split; [reflexivity|]. apply Qabs_Qle_condition. lra.
  - exists (999 # 1000)%Q. split; [reflexivity|]. apply Qabs_Qle_condition. lra.
Qed.

(** X5.  [clampR] of the other variant maps every non-finite value to NaN
    and every finite value into [-0.999, 0.999]; a finite value already in
    that range is returned unchanged, so clamping twice is clamping once. *)
Theorem clampR_range (x : num) :
  (isFinite x = false -> Copy.clampR x = NaN)
  /\ (isFinite x = true ->
      isFinite (Copy.clampR x) = true
      /\ (num_abs (Copy.clampR x) <=? lit_0_999)%num = true)
  /\ (isFinite x = true -> (num_abs x <=? lit_0_999)%num = true -> Copy.clampR x = x)
  /\ Copy.clampR (Copy.clampR x) = Copy.clampR x.
Proof.
  destruct x as [| | |q]; try (repeat split; try discriminate; reflexivity).
  assert (Hrange : isFinite (Copy.clampR (Fin q)) = true
                   /\ (num_abs (Copy.clampR (Fin q)) <=? lit_0_999)%num = true).
  { rewrite clampR_fin.
    destruct (Qle_bool q (999 # 1000)) eqn:H1; [|split; reflexivity].
    destruct (Qle_bool (- (999 # 1000)) q) eqn:H2; [|split; reflexivity].
    split; [reflexivity|]. unfold num_abs, num_le, lit_0_999.
    apply Qle_bool_iff, Qabs_Qle_condition. apply Qle_bool_iff in H1, H2. auto. }
  assert (Hid : forall p, (num_abs (Fin p) <=? lit_0_999)%num = true ->
                          Copy.clampR (Fin p) = Fin p).
  { intros p. unfold num_abs, num_le, lit_0_999. rewrite Qle_bool_iff. intros H.
    apply Qabs_Qle_condition in H. destruct H as [H1 H2].
    apply Qle_bool_iff in H1, H2. rewrite clampR_fin, H1, H2. reflexivity. }
  split; [discriminate|]. split; [intros _; exact Hrange|]. split; [intros _; apply Hid|].
  destruct Hrange as [Hf Hr].
  destruct (Copy.clampR (Fin q)) as [| | |q']; try discriminate.
  now apply Hid.
Qed.

Lemma num_max_cases (x y : num) :
  x <> NaN -> y <> NaN ->
  (num_max x y = x \/ num_max x y = y)
  /\ (x <=? num_max x y)%num = true /\ (y <=? num_max x y)%num = true.
Proof.
  intros Hx Hy. unfold num_max.
  destruct x, y; try congruence.
  all: match goal with
       | |- context [if ?b then _ else _] => destruct b eqn:E
       end.
  all: repeat split; auto using num_le_refl, num_le_total.
Qed.

Lemma num_le_not_nan (x y : num) : (x <=? y)%num = true -> x <> NaN /\ y <> NaN.
Proof. destruct x, y; unfold num_le; intros H; split; congruence. Qed.

Lemma num_le_antisym (x y : num) :
  (x <=? y)%num = true -> (y <=? x)%num = true -> num_eq x y.
Proof.
  destruct x, y; unfold num_le, num_eq; try discriminate; try (intros; exact I).
  rewrite !Qle_bool_iff. apply Qle_antisym.
Qed.

Lemma num_eq_refl (x : num) : x <> NaN -> num_eq x x.
Proof. destruct x; cbn; try congruence; intros _; try exact I; apply Qeq_refl. Qed.

(** X6.  The coordinate kept while a node is dragged,
    [Math.max(lo, Math.min(hi, x))], lies between the two margins for every
    position that is a number, and is numerically the position when that
    already lies between them; a NaN position stays NaN. *)
Theorem clampCoord_within_margins (lo hi x : num) :
  (lo <=? hi)%num = true ->
  (x <> NaN ->
   (lo <=? clampCoord lo hi x)%num = true /\ (clampCoord lo hi x <=? hi)%num = true)
  /\ ((lo <=? x)%num = true -> (x <=? hi)%num = true -> num_eq (clampCoord lo hi x) x)
  /\ clampCoord lo hi NaN = NaN.
Proof.
  intros Hlh. destruct (num_le_not_nan _ _ Hlh) as [Hlo Hhi].
  unfold clampCoord. split; [|split].
  - intros Hx.
    destruct (num_min_cases hi x Hhi Hx) as (Hc & Hm1 & Hm2).
    assert (Hm : num_min hi x <> NaN) by (destruct Hc as [-> | ->]; assumption).
    destruct (num_max_cases lo (num_min hi x) Hlo Hm) as (Hc' & Hl1 & Hl2).
    split; [exact Hl1|]. destruct Hc' as [-> | ->]; assumption.
  - intros H1 H2. destruct (num_le_not_nan _ _ H1) as [_ Hx].
    destruct (num_min_cases hi x Hhi Hx) as (Hc & Hm1 & Hm2).
    assert (Hm : num_min hi x <> NaN) by (destruct Hc as [-> | ->]; assumption).
    destruct (num_max_cases lo (num_min hi x) Hlo Hm) as (Hc' & Hl1 & Hl2).
    destruct Hc' as [E|E]; rewrite E in *.
    + apply num_le_antisym; [exact H1|].
      destruct Hc as [E'|E']; rewrite E' in *; [|exact Hl2].
      eapply num_le_trans; eassumption.
    + destruct Hc as [E'|E']; rewrite E' in *.
      * now apply num_le_antisym.
      * now apply num_eq_refl.
  - unfold num_min, num_max. destruct hi, lo; reflexivity.
Qed.

(** The canvas of [PathModelBuilder2] is 720 wide with margins of 50. *)
Lemma clampCoord_within_margins_witness :
  (num_of_Z 50 <=? clampCoord (num_of_Z 50) (num_of_Z 670) (num_of_Z 900))%num = true
  /\ (clampCoord (num_of_Z 50) (num_of_Z 670) (num_of_Z 900) <=? num_of_Z 670)%num = true.
Proof.
  destruct (clampCoord_within_margins (num_of_Z 50) (num_of_Z 670) (num_of_Z 900))
    as (H & _ & _); [vm_compute; reflexivity|].
  apply H. discriminate.
Defined.

(** ** Editing one cell *)

(** X7.  A grid edit of an off-diagonal cell (r, c) in [PathModelBuilder2]
    writes the edited fields on both (r, c) and (c, r), so both sides read
    the new value; a field that the edit does not carry keeps, on each side,
    the value that side had (NaN if the cell was missing); no other cell
    changes. *)
Theorem setCell_mirrors_patch (prev : CellMatrix) (r c : string) (patch : CellPatch) :
  r <> c ->
  cell_at (setCell prev r c patch) r c
  = Some (spread (default emptyCell (cell_at prev r c)) patch)
  /\ cell_at (setCell prev r c patch) c r
     = Some (spread (default emptyCell (cell_at prev c r)) patch)
  /\ (forall x, patch_r patch = Some x ->
        cell_r <$> cell_at (setCell prev r c patch) r c = Some x
        /\ cell_r <$> cell_at (setCell prev r c patch) c r = Some x)
  /\ (forall k, patch_n patch = Some k ->
        cell_n <$> cell_at (setCell prev r c patch) r c = Some k
        /\ cell_n <$> cell_at (setCell prev r c patch) c r = Some k)
  /\ (forall a b, (a, b) <> (r, c) -> (a, b) <> (c, r) ->
        cell_at (setCell prev r c patch) a b = cell_at prev a b).
Proof.
  intros Hne. unfold setCell.
  destruct (String.eqb_spec r c); [contradiction|]. cbn [negb].
  assert (H1 : cell_at (put_cell (put_cell prev r c
                 (spread (default emptyCell (cell_at prev r c)) patch)) c r
                 (spread (default emptyCell
                    (cell_at (put_cell prev r c
                       (spread (default emptyCell (cell_at prev r c)) patch)) c r)) patch))
                 r c
               = Some (spread (default emptyCell (cell_at prev r c)) patch)).
  { rewrite !cell_at_put_cell. rewrite decide_False by (intros [? ?]; congruence).
    rewrite decide_True by auto. reflexivity. }
  assert (H2 : cell_at (put_cell (put_cell prev r c
                 (spread (default emptyCell (cell_at prev r c)) patch)) c r
                 (spread (default emptyCell
                    (cell_at (put_cell prev r c
                       (spread (default emptyCell (cell_at prev r c)) patch)) c r)) patch))
                 c r
               = Some (spread (default emptyCell (cell_at prev c r)) patch)).
  { rewrite !cell_at_put_cell. rewrite decide_True by auto.
    rewrite decide_False by (intros [? ?]; congruence). reflexivity. }
  split; [exact H1|]. split; [exact H2|]. split; [|split].
  - intros x Hx. rewrite H1, H2. unfold spread. rewrite Hx. cbn. auto.
  - intros k Hk. rewrite H1, H2. unfold spread. rewrite Hk. cbn. auto.
  - intros a b Hab Hba. rewrite !cell_at_put_cell.
    rewrite !decide_False by (intros [? ?]; congruence). reflexivity.
Qed.

Lemma setCell_mirrors_patch_witness :
  cell_r <$> cell_at (setCell (twoVarMatrix (1 # 2) (3 # 10)) "a" "b"
                        (mkPatch (Some (Fin (2 # 5))) None)) "a" "b"
  = Some (Fin (2 # 5))
  /\ cell_r <$> cell_at (setCell (twoVarMatrix (1 # 2) (3 # 10)) "a" "b"
                           (mkPatch (Some (Fin (2 # 5))) None)) "b" "a"
     = Some (Fin (2 # 5)).
Proof.
  destruct (setCell_mirrors_patch (twoVarMatrix (1 # 2) (3 # 10)) "a" "b"
              (mkPatch (Some (Fin (2 # 5))) None))
    as (_ & _ & H & _); [discriminate|].
  apply H. reflexivity.
Defined.

Lemma validateMatrix_errors_In (vars : list string) (cellM : CellMatrix)
    (f : Copy.GridFinding) :
  In f (Copy.validateMatrix vars cellM).1 <->
  exists r c, In r vars /\ In c vars
              /\ In f (Copy.checkGridCell r c (cell_at cellM r c)).1.
Proof.
  unfold Copy.validateMatrix. cbn [fst].
  rewrite List.in_flat_map. split.
  - intros (p & Hp & Hf). apply List.in_flat_map in Hp. destruct Hp as (r & Hr & Hp).
    apply List.in_map_iff in Hp. destruct Hp as (c & <- & Hc). eauto.
  - intros (r & c & Hr & Hc & Hf).
    exists (Copy.checkGridCell r c (cell_at cellM r c)). split; [|exact Hf].
    apply List.in_flat_map. exists r. split; [exact Hr|].
    apply List.in_map_iff. eauto.
Qed.

Lemma checkGridCell_bound (r c r' c' : string) (cell : option Cell) :
  In (Copy.InvalidRBound r' c') (Copy.checkGridCell r c cell).1 ->
  r = r' /\ c = c' /\ r <> c
  /\ exists x, cell = Some x /\ isFinite (cell_r x) = true
               /\ (num_abs (cell_r x) >=? n1)%num = true.
Proof.
  unfold Copy.checkGridCell. destruct cell as [x|]; [|intros []].
  destruct (String.eqb_spec r c) as [Heq|Hne]; [intros []|]. cbn [fst].
  rewrite List.in_app_iff.
  destruct (isFinite (cell_r x) && (num_abs (cell_r x) >=? n1)%num) eqn:E.
  - intros [[H|[]]|H].
    + inversion H; subst. apply andb_true_iff in E. destruct E. eauto 10.
    + destruct (isFinite (cell_n x) && (cell_n x <=? n0)%num); [|destruct H].
      destruct H as [H|[]]. discriminate H.
  - intros [[]|H].
    destruct (isFinite (cell_n x) && (cell_n x <=? n0)%num); [|destruct H].
    destruct H as [H|[]]. discriminate H.
Qed.

Lemma clampR_below_one (x : num) :
  isFinite (Copy.clampR x) = true -> (num_abs (Copy.clampR x) >=? n1)%num = false.
Proof.
  destruct x as [| | |q]; try discriminate. intros _.
  destruct (clampR_fin_bounded q) as [q' [-> Hq']].
  unfold num_ge, num_le, num_abs, n1.
  apply not_true_iff_false. rewrite Qle_bool_iff. lra.
Qed.

(** X8.  A grid edit of an off-diagonal cell (a, b) in the other variant
    leaves one same cell on (a, b) and (b, a) and changes no other cell.
    An edited r is stored clamped, so the validation of that variant
    ([validateMatrix]) never reports the edited pair for a correlation out
    of bounds, whatever value was typed. *)
Theorem Copy_setCell_symmetric_and_clamped (vars : list string) (prev : CellMatrix)
    (a b : string) (patch : CellPatch) :
  a <> b ->
  (exists upd,
      cell_at (Copy.setCell prev a b patch) a b = Some upd
      /\ cell_at (Copy.setCell prev a b patch) b a = Some upd
      /\ (forall x, patch_r patch = Some x -> cell_r upd = Copy.clampR x)
      /\ (forall k, patch_n patch = Some k -> cell_n upd = k))
  /\ (forall x y, (x, y) <> (a, b) -> (x, y) <> (b, a) ->
        cell_at (Copy.setCell prev a b patch) x y = cell_at prev x y)
  /\ (forall x, patch_r patch = Some x ->
        ~ In (Copy.InvalidRBound a b)
             (Copy.validateMatrix vars (Copy.setCell prev a b patch)).1
        /\ ~ In (Copy.InvalidRBound b a)
                (Copy.validateMatrix vars (Copy.setCell prev a b patch)).1).
Proof.
  intros Hne.
  set (cur := default emptyCell (cell_at prev a b)).
  set (upd := mkCell (match patch_r patch with Some x => Copy.clampR x | None => cell_r cur end)
                     (match patch_n patch with Some x => x | None => cell_n cur end)).
  assert (Hab : cell_at (Copy.setCell prev a b patch) a b = Some upd).
  { unfold Copy.setCell. destruct (String.eqb_spec a b); [contradiction|].
    rewrite !cell_at_put_cell. rewrite decide_False by (intros [? ?]; congruence).
    rewrite decide_True by auto. reflexivity. }
  assert (Hba : cell_at (Copy.setCell prev a b patch) b a = Some upd).
  { unfold Copy.setCell. destruct (String.eqb_spec a b); [contradiction|].
    rewrite !cell_at_put_cell. rewrite decide_True by auto. reflexivity. }
  split; [|split].
  - exists upd. split; [exact Hab|]. split; [exact Hba|]. split.
    + intros x Hx. unfold upd. now rewrite Hx.
    + intros k Hk. unfold upd. now rewrite Hk.
  - intros x y H1 H2. unfold Copy.setCell.
    destruct (String.eqb_spec a b); [contradiction|].
    rewrite !cell_at_put_cell.
    rewrite !decide_False by (intros [? ?]; congruence). reflexivity.
  - intros x Hx.
    assert (Hbound : isFinite (cell_r upd) = true ->
                     (num_abs (cell_r upd) >=? n1)%num = false).
    { unfold upd. rewrite Hx. cbn [cell_r]. apply clampR_below_one. }
    split; intros Hin; apply validateMatrix_errors_In in Hin;
      destruct Hin as (r & c & _ & _ & Hin); apply checkGridCell_bound in Hin;
      destruct Hin as (-> & -> & _ & cell & Hcell & Hfin & Hge).
    + rewrite Hab in Hcell. inversion Hcell; subst cell.
      rewrite (Hbound Hfin) in Hge. discriminate.
    + rewrite Hba in Hcell. inversion Hcell; subst cell.
      rewrite (Hbound Hfin) in Hge. discriminate.
Qed.

Lemma Copy_setCell_symmetric_and_clamped_witness :
  exists upd,
    cell_at (Copy.setCell (twoVarMatrix (1 # 2) (3 # 10)) "a" "b"
               (mkPatch (Some (Fin 7)) None)) "a" "b" = Some upd
    /\ cell_at (Copy.setCell (twoVarMatrix (1 # 2) (3 # 10)) "a" "b"
                  (mkPatch (Some (Fin 7)) None)) "b" "a" = Some upd
    /\ cell_r upd = lit_0_999.
Proof.
  destruct (Copy_setCell_symmetric_and_clamped ["a"; "b"]
              (twoVarMatrix (1 # 2) (3 # 10)) "a" "b" (mkPatch (Some (Fin 7)) None))
    as ((upd & Hab & Hba & Hr & _) & _); [discriminate|].
  exists upd. split; [exact Hab|]. split; [exact Hba|].
  rewrite (Hr (Fin 7) eq_refl). vm_compute. reflexivity.
Defined.

(** ** Variable names *)

Lemma uniqueVars_fold (l : list string) (seen : gset string) (out : list string) :
  (forall x, x ∈ seen <-> x ∈ out) -> NoDup out ->
  let r := (foldl (fun (acc : gset string * list string) v =>
                     if bool_decide (v ∈ acc.1) then acc
                     else ({[v]} ∪ acc.1, acc.2 ++ [v]))
                  (seen, out) l).2 in
  NoDup r /\ (forall x, x ∈ r <-> x ∈ out \/ x ∈ l)
  /\ exists k, r = out ++ k /\ sublist k l.
Proof.
  revert seen out. induction l as [|v l IH]; intros seen out Hseen Hnd; cbn [foldl].
  - cbn. split; [exact Hnd|]. split.
    + intros x. rewrite elem_of_nil. tauto.
    + exists []. split; [now rewrite List.app_nil_r | constructor].
  - cbn [fst snd]. destruct (bool_decide (v ∈ seen)) eqn:E.
    + apply bool_decide_eq_true in E.
      destruct (IH seen out Hseen Hnd) as (H1 & H2 & k & Hk & Hsub).
      split; [exact H1|]. split.
      * intros x. rewrite H2, elem_of_cons. split; [tauto|].
        intros [H|[->|H]]; auto. left. now apply Hseen.
      * exists k. split; [exact Hk|]. now apply sublist_cons.
    + apply bool_decide_eq_false in E.
      destruct (IH ({[v]} ∪ seen) (out ++ [v])) as (H1 & H2 & k & Hk & Hsub).
      * intros x. rewrite elem_of_union, elem_of_singleton, elem_of_app,
          list_elem_of_singleton, Hseen. tauto.
      * apply NoDup_app. split; [exact Hnd|]. split; [|apply NoDup_singleton].
        intros x Hx Hxv. apply list_elem_of_singleton in Hxv. subst x.
        apply E. now apply Hseen.
      * split; [exact H1|]. split.
        -- intros x. rewrite H2, elem_of_app, list_elem_of_singleton, elem_of_cons. tauto.
        -- exists (v :: k). split; [now rewrite Hk, <- List.app_assoc|].
           now apply sublist_skip.
Qed.

Lemma uniqueVars_fold_seen (l : list string) (seen : gset string) (out : list string) :
  (forall x, x ∈ seen <-> x ∈ out) ->
  forall x, x ∈ (foldl uniqueStep (seen, out) l).1
            <-> x ∈ (foldl uniqueStep (seen, out) l).2.
Proof.
  revert seen out. induction l as [|v l IH]; intros seen out Hseen; cbn [foldl].
  - exact Hseen.
  - cbn [fst snd]. destruct (bool_decide (v ∈ seen)); [now apply IH|].
    apply IH. intros x. rewrite elem_of_union, elem_of_singleton, elem_of_app,
      list_elem_of_singleton, Hseen. tauto.
Qed.

Lemma filter_filter_and {A : Type} (p q : A -> bool) (l : list A) :
  List.filter p (List.filter q l) = List.filter (fun x => q x && p x) l.
Proof.
  induction l as [|x l IH]; [reflexivity|]. cbn [List.filter].
  destruct (q x); cbn [List.filter andb]; [|exact IH]. now rewrite IH.
Qed.

Lemma inb_elem_of (x : string) (l : list string) : inb x l = true <-> x ∈ l.
Proof.
  unfold inb. rewrite List.existsb_exists, list_elem_of_In. split.
  - intros (y & Hy & E). apply String.eqb_eq in E. now subst.
  - intros H. exists x. split; [exact H | apply String.eqb_refl].
Qed.

Lemma uniqueVars_fold_keepFirst (l : list string) (seen : gset string)
    (out : list string) :
  (forall x, x ∈ seen <-> x ∈ out) ->
  (foldl uniqueStep (seen, out) l).2
  = out ++ List.filter (fun y => negb (inb y out)) (keepFirst l).
Proof.
  revert seen out. induction l as [|v l IH]; intros seen out Hseen;
    cbn [foldl keepFirst List.filter].
  - now rewrite List.app_nil_r.
  - cbn [fst snd]. destruct (bool_decide (v ∈ seen)) eqn:E.
    + apply bool_decide_eq_true in E. apply Hseen, inb_elem_of in E as Ein.
      rewrite Ein. cbn [negb]. rewrite (IH _ _ Hseen). f_equal.
      rewrite filter_filter_and. apply List.filter_ext. intros y.
      destruct (String.eqb_spec y v) as [->|Hne]; cbn [negb andb]; [|reflexivity].
      now rewrite Ein.
    + apply bool_decide_eq_false in E.
      assert (Ein : inb v out = false).
      { apply not_true_iff_false. rewrite inb_elem_of, <- Hseen. exact E. }
      rewrite Ein. cbn [negb]. rewrite (IH ({[v]} ∪ seen) (out ++ [v])).
      * rewrite <- List.app_assoc. cbn [app]. do 2 f_equal.
        rewrite filter_filter_and. apply List.filter_ext. intros y.
        unfold inb. rewrite List.existsb_app. cbn [existsb].
        rewrite orb_false_r, negb_orb. apply andb_comm.
      * intros x. rewrite elem_of_union, elem_of_singleton, elem_of_app,
          list_elem_of_singleton, Hseen. tauto.
Qed.

(** X9.  [uniqueVars] returns the cleaned names without repetition, each
    at its first occurrence: the result has no duplicate and no empty name,
    it holds exactly the non-empty cleaned names of the input, it is a
    subsequence of the cleaned input, and it is the cleaned input with
    every later repetition of a name removed.  In particular, at the first
    occurrence of a name x in the cleaned input, the names placed before x
    in the result are exactly the names that occur before it in the input,
    and those placed after x occur after it. *)
Theorem uniqueVars_distinct_clean_names (cleanName : string -> string)
    (names : list string) :
  let cleaned := List.filter (fun s => negb (String.eqb s "")) (map cleanName names) in
  NoDup (Copy.uniqueVars cleanName names)
  /\ (forall x, In x (Copy.uniqueVars cleanName names)
                <-> x <> "" /\ exists s, In s names /\ cleanName s = x)
  /\ sublist (Copy.uniqueVars cleanName names) cleaned
  /\ Copy.uniqueVars cleanName names = keepFirst cleaned
  /\ (forall l1 x l2,
        cleaned = l1 ++ x :: l2 -> ~ In x l1 ->
        exists o1 o2,
          Copy.uniqueVars cleanName names = o1 ++ x :: o2
          /\ (forall z, In z o1 <-> In z l1)
          /\ (forall z, In z o2 -> In z l2)).
Proof.
  intros cleaned. unfold Copy.uniqueVars. fold cleaned.
  assert (H0 : forall x : string, x ∈ (∅ : gset string) <-> x ∈ ([] : list string)).
  { intros x. rewrite elem_of_empty, elem_of_nil. tauto. }
  destruct (uniqueVars_fold cleaned ∅ [] H0 NoDup_nil_2) as (H1 & H2 & k & Hk & Hsub).
  split; [exact H1|]. split; [|split; [|split]].
  - intros x. rewrite <- list_elem_of_In, H2, elem_of_nil, list_elem_of_In.
    unfold cleaned. rewrite List.filter_In, List.in_map_iff, negb_true_iff.
    rewrite <- not_true_iff_false, String.eqb_eq. split.
    + intros [[]|[(s & Hs & Hin) Hne]]. split; [exact Hne|]. eauto.
    + intros [Hne (s & Hin & Hs)]. right. split; [eauto | exact Hne].
  - rewrite Hk. exact Hsub.
  - rewrite (uniqueVars_fold_keepFirst cleaned ∅ [] H0). cbn [app].
    rewrite <- (List.filter_ext (fun _ => true)) by reflexivity.
    clear. induction (keepFirst cleaned) as [|y l IH]; [reflexivity|].
    cbn [List.filter]. now rewrite IH.
  - intros l1 x l2 Hsplit Hx. rewrite Hsplit, foldl_app. cbn [foldl].
    destruct (foldl uniqueStep (∅, []) l1) as [s1 o1] eqn:E1.
    pose proof (uniqueVars_fold_seen l1 ∅ [] H0) as Hs1.
    destruct (uniqueVars_fold l1 ∅ [] H0 NoDup_nil_2) as (Hnd1 & Hm1 & _).
    rewrite E1 in Hs1, Hnd1, Hm1. cbn [fst snd] in Hs1, Hnd1, Hm1.
    assert (Hfresh : x ∉ s1).
    { rewrite Hs1, Hm1, elem_of_nil, list_elem_of_In. tauto. }
    cbn [fst snd]. rewrite bool_decide_eq_false_2 by exact Hfresh.
    destruct (uniqueVars_fold l2 ({[x]} ∪ s1) (o1 ++ [x])) as (_ & _ & k2 & Hk2 & Hsub2).
    + intros z. rewrite elem_of_union, elem_of_singleton, elem_of_app,
        list_elem_of_singleton, Hs1. tauto.
    + apply NoDup_app. split; [exact Hnd1|]. split; [|apply NoDup_singleton].
      intros z Hz Hzx. apply list_elem_of_singleton in Hzx. subst z.
      apply Hfresh. now apply Hs1.
    + exists o1, k2. split; [|split].
      * cbn zeta in Hk2. rewrite Hk2, <- List.app_assoc. reflexivity.
      * intros z. rewrite <- !list_elem_of_In, Hm1, elem_of_nil. tauto.
      * intros z Hz. apply list_elem_of_In. apply list_elem_of_In in Hz.
        eapply elem_of_sublist; eassumption.
Qed.

(** The name [a] is repeated after [b] and after an empty name: it stays
    where it first occurred. *)
Lemma uniqueVars_distinct_clean_names_witness :
  Copy.uniqueVars (fun s => s) ["a"; "b"; ""; "a"] = ["a"; "b"]
  /\ exists o1 o2,
       Copy.uniqueVars (fun s => s) ["a"; "b"; ""; "a"] = o1 ++ "b" :: o2
       /\ (forall z, In z o1 <-> In z ["a"])
       /\ (forall z, In z o2 -> In z ["a"]).
Proof.
  destruct (uniqueVars_distinct_clean_names (fun s => s) ["a"; "b"; ""; "a"])
    as (_ & _ & _ & Heq & Hfirst).
  split; [exact Heq|].
  apply (Hfirst ["a"] "b" ["a"]); [reflexivity|].
  intros [H|[]]. discriminate H.
Defined.

(** ** What a passed validation guarantees, and when the validator throws *)

Lemma checkPair_Err (M : CellMatrix) (acc : list finding * list finding)
    (a b : string) (e : js_error) :
  checkPair M acc (a, b) = Err e ->
  e = TypeError /\ (M !! a = None \/ M !! b = None \/ cell_at M a b = None).
Proof.
  destruct acc as [errs ws]. unfold checkPair.
  rewrite cell_get_r_at. unfold cell_get.
  destruct (M !! a) as [ra|] eqn:Ha; [|cbn; intros H; inversion H; auto].
  destruct (M !! b) as [rb|] eqn:Hb; [|cbn; intros H; inversion H; auto].
  cbn. destruct (cell_at M a b) eqn:Hc; cbn; [discriminate|].
  intros H; inversion H; auto.
Qed.

Lemma checkPair_Ok_cell (M : CellMatrix) (acc acc' : list finding * list finding)
    (a b : string) :
  checkPair M acc (a, b) = Ok acc' -> is_Some (cell_at M a b).
Proof.
  destruct acc as [errs ws]. unfold checkPair. rewrite cell_get_r_at.
  destruct (cell_get M a b); [|discriminate]. cbn.
  destruct (cell_get M b a); [|discriminate]. cbn.
  destruct (cell_at M a b); [eauto | discriminate].
Qed.

(** X10.  The validator throws only in one situation: every declared
    variable has a row, but some cell above the diagonal (row earlier than
    column in the variable order) is missing; the exception is then the
    read of a property of [undefined].  In every other situation it
    returns. *)
Theorem validate_throws_iff_upper_cell_missing (vars : list string) (M : CellMatrix) :
  (forall e, validateCellMatrix vars M = Err e ->
     e = TypeError /\ allRows vars M
     /\ exists a b, In (a, b) (unordered_pairs vars) /\ cell_at M a b = None)
  /\ (allRows vars M ->
      (exists a b, In (a, b) (unordered_pairs vars) /\ cell_at M a b = None) ->
      validateCellMatrix vars M = Err TypeError).
Proof.
  assert (Hfwd : forall e, validateCellMatrix vars M = Err e ->
            e = TypeError /\ allRows vars M
            /\ exists a b, In (a, b) (unordered_pairs vars) /\ cell_at M a b = None).
  { intros e. unfold validateCellMatrix.
    destruct (missingRows vars M) eqn:Hmiss; [|discriminate].
    apply missingRows_nil in Hmiss. cbn [is_nil negb app].
    destruct (foldM (checkPair M) (upper_pairs vars) (cellFindings vars M, []))
      as [acc|e'] eqn:Hf; [discriminate|].
    cbn. intros H. inversion H; subst e'; clear H.
    apply foldM_Err in Hf. destruct Hf as ([a b] & s' & Hin & Herr).
    rewrite upper_pairs_unordered in Hin.
    apply checkPair_Err in Herr. destruct Herr as [-> Hcases].
    destruct (unordered_pairs_In _ _ _ Hin) as [Ha Hb].
    split; [reflexivity|]. split; [exact Hmiss|]. exists a, b. split; [exact Hin|].
    destruct Hcases as [H|[H|H]]; [| |exact H].
    - destruct (Hmiss a Ha) as [x Hx]. congruence.
    - destruct (Hmiss b Hb) as [x Hx]. congruence. }
  split; [exact Hfwd|].
  intros Hrows (a & b & Hin & Hnone).
  destruct (validateCellMatrix vars M) as [v|e] eqn:Hv.
  - exfalso. unfold validateCellMatrix in Hv.
    apply missingRows_nil in Hrows. rewrite Hrows in Hv. cbn [is_nil negb app] in Hv.
    apply bind_Ok in Hv. destruct Hv as (acc & Hf & _).
    rewrite upper_pairs_unordered in Hf.
    destruct (foldM_In_Ok _ _ _ _ _ Hf Hin) as (s1 & s2 & Hstep).
    apply checkPair_Ok_cell in Hstep. rewrite Hnone in Hstep.
    destruct Hstep as [x Hx]. discriminate.
  - destruct (Hfwd e eq_refl) as [-> _]. reflexivity.
Qed.

Lemma validate_throws_iff_upper_cell_missing_witness :
  validateCellMatrix ["a"; "b"]
    (<["a" := {["a" := forcedDiag]}]>
       (<["b" := <["a" := cellQ (1 # 2) 100]> {["b" := forcedDiag]}]> ∅))
  = Err TypeError.
Proof.
  apply (validate_throws_iff_upper_cell_missing ["a"; "b"]).
  - intros r [<-|[<-|[]]]; vm_compute; eauto.
  - exists "a", "b". split; [now left | vm_compute; reflexivity].
Defined.

(** X11.  A validation that returns ok = true guarantees: every variable
    has a row and every cell exists; every r is finite and neither below -1
    nor above 1; a diagonal r is within 1e-6 of 1; an off-diagonal n is
    finite and not <= 2; and the two sides of every pair of variables hold
    correlations that differ by at most 1e-6. *)
Theorem validate_ok_guarantees (vars : list string) (M : CellMatrix) (v : Validation) :
  validateCellMatrix vars M = Ok v ->
  v_ok v = true ->
  allRows vars M
  /\ (forall r c, In r vars -> In c vars ->
        exists cell,
          cell_at M r c = Some cell
          /\ isFinite (cell_r cell) = true
          /\ (cell_r cell <? num_neg n1)%num = false
          /\ (cell_r cell >? n1)%num = false
          /\ (r = c -> (num_abs (cell_r cell - n1) >? lit_1e_6)%num = false)
          /\ (r <> c -> isFinite (cell_n cell) = true
                        /\ (cell_n cell <=? n2)%num = false))
  /\ (forall a b, In (a, b) (unordered_pairs vars) ->
        (num_abs (corr M a b - corr M b a) >? lit_1e_6)%num = false).
Proof.
  intros Hv Hok.
  assert (Hrows : allRows vars M).
  { unfold validateCellMatrix in Hv.
    destruct (missingRows vars M) eqn:Hmiss; [now apply missingRows_nil|].
    cbn in Hv. inversion Hv; subst. discriminate. }
  destruct (validate_all_rows _ _ _ Hrows Hv) as (He & _ & Hok').
  rewrite Hok in Hok'.
  assert (Hnone : forall f, ~ expectedError vars M f).
  { intros f Hf. apply expectedError_iff in Hf. rewrite <- He in Hf.
    destruct (v_errors v); [destruct Hf | discriminate]. }
  assert (Hcells : forall r c, In r vars -> In c vars ->
            exists cell,
              cell_at M r c = Some cell
              /\ isFinite (cell_r cell) = true
              /\ (cell_r cell <? num_neg n1)%num = false
              /\ (cell_r cell >? n1)%num = false
              /\ (r = c -> (num_abs (cell_r cell - n1) >? lit_1e_6)%num = false)
              /\ (r <> c -> isFinite (cell_n cell) = true
                            /\ (cell_n cell <=? n2)%num = false)).
  { intros r c Hr Hc.
    destruct (cell_at M r c) as [cell|] eqn:Hcell;
      [|exfalso; apply (Hnone (MissingCell r c)); now apply exp_missing_cell].
    exists cell. split; [reflexivity|].
    assert (Hfin : isFinite (cell_r cell) = true).
    { apply not_false_iff_true. intros H. apply (Hnone (InvalidR r c)).
      now apply (exp_invalid_r vars M r c cell). }
    split; [exact Hfin|].
    split; [|split; [|split]].
    - apply not_true_iff_false. intros H.
      apply (Hnone (ROutOfBounds r c (cell_r cell))).
      apply (exp_out_of_bounds vars M r c cell); auto.
    - apply not_true_iff_false. intros H.
      apply (Hnone (ROutOfBounds r c (cell_r cell))).
      apply (exp_out_of_bounds vars M r c cell); auto.
    - intros <-. apply not_true_iff_false. intros H.
      apply (Hnone (DiagNotOne r r (cell_r cell))).
      now apply (exp_diag vars M r cell).
    - intros Hne.
      assert (Hn : isFinite (cell_n cell) = true).
      { apply not_false_iff_true. intros H. apply (Hnone (MissingN r c)).
        now apply (exp_missing_n vars M r c cell). }
      split; [exact Hn|]. apply not_true_iff_false. intros H.
      apply (Hnone (NTooSmall r c (cell_n cell))).
      now apply (exp_small_n vars M r c cell). }
  split; [exact Hrows|]. split; [exact Hcells|].
  intros a b Hin. destruct (unordered_pairs_In _ _ _ Hin) as [Ha Hb].
  destruct (Hcells a b Ha Hb) as (c1 & H1 & F1 & _).
  destruct (Hcells b a Hb Ha) as (c2 & H2 & F2 & _).
  unfold corr. rewrite H1, H2.
  apply not_true_iff_false. intros H. apply (Hnone (RNotSymmetric a b)).
  now apply (exp_not_symmetric vars M a b c1 c2).
Qed.

Lemma validate_ok_guarantees_witness :
  allRows ["a"; "b"] (twoVarMatrix (1 # 2) (1 # 2))
  /\ (num_abs (corr (twoVarMatrix (1 # 2) (1 # 2)) "a" "b"
               - corr (twoVarMatrix (1 # 2) (1 # 2)) "b" "a") >? lit_1e_6)%num = false.
Proof.
  destruct (validate_ok_guarantees ["a"; "b"] (twoVarMatrix (1 # 2) (1 # 2))
              (mkValidation true [] []))
    as (Hrows & _ & Hsym); [vm_compute; reflexivity | reflexivity |].
  split; [exact Hrows|]. apply Hsym. now left.
Defined.

(** ** What a parsed matrix guarantees *)

Lemma skipn_cons_nth (l : list string) (s : nat) (y : string) (t : list string) :
  skipn s l = y :: t -> nth s l "" = y /\ skipn (S s) l = t.
Proof.
  revert s. induction l as [|x l IH]; intros s H.
  - destruct s; discriminate.
  - destruct s as [|s].
    + cbn in H. inversion H; subst. auto.
    + cbn [skipn] in H. destruct (IH s H) as [H1 H2]. split; [exact H1|].
      exact H2.
Qed.

Lemma same_names_aux (vars pv : list string) (s : nat) :
  length pv = length (skipn s vars) ->
  forallb (fun iv => String.eqb iv.2 (nth iv.1 vars "")) (zip (seq s (length pv)) pv) = true ->
  pv = skipn s vars.
Proof.
  revert s. induction pv as [|x pv IH]; intros s Hlen Hall.
  - destruct (skipn s vars); [reflexivity | discriminate].
  - destruct (skipn s vars) as [|y t] eqn:Hs; [discriminate|].
    cbn [length seq zip zip_with forallb fst snd] in Hall.
    apply andb_true_iff in Hall. destruct Hall as [Hx Hall].
    apply String.eqb_eq in Hx.
    destruct (skipn_cons_nth vars s y t Hs) as [Hn Ht].
    rewrite Hn in Hx. subst y. f_equal.
    rewrite <- Ht. apply IH; [|exact Hall].
    rewrite Ht. cbn in Hlen. lia.
Qed.

Lemma checkCoverage_Ok (vars : list string) (M : CellMatrix) :
  checkCoverage vars M = Ok tt ->
  forall r c, In r vars -> In c vars -> is_Some (cell_at M r c).
Proof.
  unfold checkCoverage. intros H r c Hr Hc.
  destruct (foldM_In_Ok _ _ _ _ _ H Hr) as (s1 & s2 & Hrow).
  unfold cell_at. destruct (M !! r) as [row|]; [|discriminate]. cbn.
  destruct (foldM_In_Ok _ _ _ _ _ Hrow Hc) as (t1 & t2 & Hcell).
  destruct (row !! c); [eauto | discriminate].
Qed.

Lemma parseCombined_shape (scan : string -> option (num * option num))
    (rows : list (list string)) (vars : list string) (M : CellMatrix) :
  parseCombinedMatrixText scan rows = Ok (vars, M) ->
  2 <= length rows
  /\ vars = skipn 1 (nth 0 rows []) /\ vars <> []
  /\ NoDup vars /\ ~ In "" vars
  /\ (forall r c, In r vars -> In c vars -> is_Some (cell_at M r c)).
Proof.
  unfold parseCombinedMatrixText.
  destruct (Nat.ltb_spec (length rows) 2) as [|Hrows]; [discriminate|].
  destruct (Nat.ltb_spec (length (nth 0 rows [])) 2) as [|Hhead]; [discriminate|].
  destruct (existsb _ (skipn 1 (nth 0 rows []))) eqn:Hempty; [discriminate|].
  destruct (hasDuplicates (skipn 1 (nth 0 rows []))) eqn:Hdup; [discriminate|].
  intros H. apply bind_Ok in H. destruct H as (M1 & _ & H).
  apply bind_Ok in H. destruct H as ([] & Hcov & H).
  apply bind_Ok in H. destruct H as (M2 & Hdiag & H).
  inversion H; subst vars M2; clear H.
  split; [exact Hrows|]. split; [reflexivity|]. split.
  { destruct (nth 0 rows []) as [|h [|h2 t]]; cbn in Hhead; try lia. discriminate. }
  split.
  { unfold hasDuplicates in Hdup. apply negb_false_iff in Hdup.
    now apply bool_decide_eq_true in Hdup. }
  split.
  { intros Hin. apply not_true_iff_false in Hempty. apply Hempty.
    apply List.existsb_exists. exists "". split; [exact Hin | reflexivity]. }
  intros r c Hr Hc.
  destruct (forceDiagonal_spec _ _ _ Hdiag) as (Hd & Ho & _).
  destruct (String.string_dec r c) as [->|Hne].
  - rewrite Hd by assumption. eauto.
  - rewrite Ho by now left. now apply (checkCoverage_Ok _ _ Hcov).
Qed.

(** X12.  A pasted matrix that [parseCombinedMatrixText] accepts has at
    least two lines; its variables are the header names after the first
    field, none empty and none repeated; a cell exists for every pair of
    variables.  The validator therefore returns on it (it cannot throw), and
    reports no missing row and no missing cell.  The "Load from text"
    button stores such a matrix only when these variables are the current
    ones in the same order. *)
Theorem parsed_matrix_is_complete (scan : string -> option (num * option num))
    (rows : list (list string)) (vars : list string) (M : CellMatrix) :
  parseCombinedMatrixText scan rows = Ok (vars, M) ->
  (2 <= length rows
   /\ vars = skipn 1 (nth 0 rows []) /\ vars <> []
   /\ NoDup vars /\ ~ In "" vars
   /\ (forall r c, In r vars -> In c vars -> is_Some (cell_at M r c)))
  /\ (exists v, validateCellMatrix vars M = Ok v
                /\ forall r c, ~ In (MissingRow r) (v_errors v)
                               /\ ~ In (MissingCell r c) (v_errors v))
  /\ (forall current M',
        loadFromText scan current rows = Ok M' -> current = vars /\ M' = M).
Proof.
  intros Hparse. pose proof (parseCombined_shape _ _ _ _ Hparse) as Hshape.
  destruct Hshape as (H2 & Hvars & Hne & Hnd & Hempty & Hcells).
  split; [auto 10|].
  assert (Hrows : allRows vars M).
  { intros r Hr. specialize (Hcells r r Hr Hr). unfold cell_at in Hcells.
    destruct (M !! r); [eauto|]. destruct Hcells as [x Hx]. discriminate. }
  split.
  - destruct (validate_returns vars M Hrows) as [v Hv].
    { intros a b Hin. destruct (unordered_pairs_In _ _ _ Hin). auto. }
    exists v. split; [exact Hv|]. intros r c.
    destruct (validate_all_rows _ _ _ Hrows Hv) as (He & _ & _).
    clear Hvars.
    split; intros Hin; rewrite He in Hin; apply expectedError_iff in Hin;
      inversion Hin as [r0 c0 Hr0 Hc0 Hnone| | | | | |].
    destruct (Hcells r c Hr0 Hc0) as [x Hx]. congruence.
  - intros current M' Hload. unfold loadFromText in Hload. rewrite Hparse in Hload.
    cbn [mbind result_bind fst snd] in Hload.
    destruct (Nat.eqb_spec (length vars) (length current)) as [Hlen|];
      [|discriminate].
    cbn [andb] in Hload.
    destruct (forallb _ _) eqn:Hall; [|discriminate].
    cbn in Hload. inversion Hload; subst M'. split; [|reflexivity].
    symmetry. apply (same_names_aux current vars 0); assumption.
Qed.

(** A two-variable paste, read with a scanner that takes every token for
    r = 0.5 with n = 100. *)
Lemma parsed_matrix_is_complete_witness :
  exists vars M v,
    parseCombinedMatrixText (fun _ => Some (Fin (1 # 2), Some (num_of_Z 100)))
      [[""; "a"; "b"]; ["a"; "1"; "0.5|100"]; ["b"; "0.5|100"; "1"]] = Ok (vars, M)
    /\ vars = ["a"; "b"]
    /\ validateCellMatrix vars M = Ok v.
Proof.
  destruct (parseCombinedMatrixText (fun _ => Some (Fin (1 # 2), Some (num_of_Z 100)))
              [[""; "a"; "b"]; ["a"; "1"; "0.5|100"]; ["b"; "0.5|100"; "1"]])
    as [[vars M]|e] eqn:Hparse; [|vm_compute in Hparse; discriminate].
  destruct (parsed_matrix_is_complete _ _ vars M Hparse)
    as ((_ & Hvars & _) & (v & Hv & _) & _).
  exists vars, M, v. split; [reflexivity|]. split; [exact Hvars | exact Hv].
Defined.
